(** * The Mesh engine of the material point method code ([mpm::Mesh<Tdim>])

    A shallow embedding of [include/mesh.h] and [include/mesh.tcc]: the
    containers of nodes, cells and particles with their id maps, particle
    localisation, the domain-shared nodes of a decomposed mesh, the halo
    exchange of nodal values, set iteration, velocity constraints and the
    export and import of particle records.

    Conventions.
    - An object held through a [std::shared_ptr] is a [ptr] into an object
      store; containers and maps hold [ptr]s, so two views of one object
      stay views of one object.
    - [mpm::Index] ([unsigned long long]) and [unsigned] are [N]; where the
      source narrows or wraps a value the model writes the modulus out.
    - A [double] is carried as its 64-bit pattern where the mesh only
      copies it; the halo exchange, which adds, takes the type of the
      values and its sum as parameters.
    - A C++ exception is the [Throw] result of the monad [M]; the mesh state
      at the throw is kept, as it is in the program.
    - TBB loops are run in index order.  The loops modelled here either
      apply one operator per element or accumulate into sets. *)

From stdpp Require Import gmap list strings.

(** ** Scalars *)

Abbreviation Index := N (only parsing).
Abbreviation ptr := positive (only parsing).
Abbreviation double := Z (only parsing).
Abbreviation Material := positive (only parsing).

(** [std::numeric_limits<mpm::Index>::max()], the cell id of a particle
    that is in no cell. *)
Definition INDEX_MAX : N := 18446744073709551615%N.

(** Conversion of an [int] or of a [size_t] to [unsigned]. *)
Definition to_unsigned (z : Z) : N := Z.to_N (z mod 4294967296).
Definition wrap32 (n : N) : N := (n mod 4294967296)%N.

(** [Eigen::Matrix<double, Tdim, 1>] *)
Abbreviation VectorDim := (list Z) (only parsing).

(** ** Entities *)

(** Modelled from the spec: [node.h], [cell.h] and [particle.h] are not part
    of the sources; the records hold the fields that section 3 of the
    specification gives to a node, a cell and a particle. *)
Record Node := {
  n_id : Index;
  n_mpi_ranks : gset N;
  n_ghost_id : N;
  n_mass : Z
}.

Record Cell := {
  c_id : Index;
  c_nodes : list ptr;
  c_rank : N;
  c_neighbours : list Index;
  c_particles : list Index
}.

Record Particle := {
  p_id : Index;
  p_coordinates : VectorDim;
  p_xi : VectorDim;
  p_cell_id : Index;
  p_cell : option ptr;
  p_velocity : VectorDim;
  p_mass : double;
  p_state_variables : list double;
  p_material : option Material
}.

#[global] Instance Node_inhabited : Inhabited Node :=
  populate {| n_id := 0; n_mpi_ranks := ∅; n_ghost_id := 0; n_mass := 0 |}.
#[global] Instance Cell_inhabited : Inhabited Cell :=
  populate {| c_id := 0; c_nodes := []; c_rank := 0; c_neighbours := [];
              c_particles := [] |}.
#[global] Instance Particle_inhabited : Inhabited Particle :=
  populate {| p_id := 0; p_coordinates := []; p_xi := [];
              p_cell_id := INDEX_MAX; p_cell := None; p_velocity := [];
              p_mass := 0; p_state_variables := []; p_material := None |}.

(** [mpm::VelocityConstraint] (the header is not part of the sources): a
    set id, a direction and a velocity. *)
Record VelocityConstraint := {
  vc_setid : Z;
  vc_dir : N;
  vc_velocity : double
}.

(** The objects that the shared pointers of a mesh point to. *)
Record Store := {
  particle_heap : gmap positive Particle;
  node_heap : gmap positive Node;
  cell_heap : gmap positive Cell
}.

Definition set_particle_heap (v : gmap positive Particle) (s : Store) : Store :=
  {| particle_heap := v; node_heap := node_heap s; cell_heap := cell_heap s |}.
Definition set_node_heap (v : gmap positive Node) (s : Store) : Store :=
  {| particle_heap := particle_heap s; node_heap := v; cell_heap := cell_heap s |}.
Definition set_cell_heap (v : gmap positive Cell) (s : Store) : Store :=
  {| particle_heap := particle_heap s; node_heap := node_heap s; cell_heap := v |}.

(** ** The mesh: the private members of [mpm::Mesh] that the modelled
    operations read or write, and the object store. *)
Record Mesh := {
  particles_ : list ptr;
  particles_cell_ids_ : gmap N N;
  particle_sets_ : gmap N (list Index);
  map_particles_ : gmap N positive;
  nodes_ : list ptr;
  domain_shared_nodes_ : list ptr;
  map_nodes_ : gmap N positive;
  map_cells_ : gmap N positive;
  cells_ : list ptr;
  materials_ : gmap N positive;
  particle_velocity_constraints_ : list VelocityConstraint;
  console_ : list string;
  nhalo_nodes_ : N;
  ncomms_ : N;
  objects : Store
}.

Definition set_particles_ (v : list ptr) (m : Mesh) : Mesh :=
  {| particles_ := v; particles_cell_ids_ := particles_cell_ids_ m;
     particle_sets_ := particle_sets_ m; map_particles_ := map_particles_ m;
     nodes_ := nodes_ m; domain_shared_nodes_ := domain_shared_nodes_ m;
     map_nodes_ := map_nodes_ m; map_cells_ := map_cells_ m; cells_ := cells_ m;
     materials_ := materials_ m;
     particle_velocity_constraints_ := particle_velocity_constraints_ m;
     console_ := console_ m; nhalo_nodes_ := nhalo_nodes_ m;
     ncomms_ := ncomms_ m; objects := objects m |}.

Definition set_particles_cell_ids_ (v : gmap N N) (m : Mesh) : Mesh :=
  {| particles_ := particles_ m; particles_cell_ids_ := v;
     particle_sets_ := particle_sets_ m; map_particles_ := map_particles_ m;
     nodes_ := nodes_ m; domain_shared_nodes_ := domain_shared_nodes_ m;
     map_nodes_ := map_nodes_ m; map_cells_ := map_cells_ m; cells_ := cells_ m;
     materials_ := materials_ m;
     particle_velocity_constraints_ := particle_velocity_constraints_ m;
     console_ := console_ m; nhalo_nodes_ := nhalo_nodes_ m;
     ncomms_ := ncomms_ m; objects := objects m |}.

Definition set_map_particles_ (v : gmap N positive) (m : Mesh) : Mesh :=
  {| particles_ := particles_ m; particles_cell_ids_ := particles_cell_ids_ m;
     particle_sets_ := particle_sets_ m; map_particles_ := v;
     nodes_ := nodes_ m; domain_shared_nodes_ := domain_shared_nodes_ m;
     map_nodes_ := map_nodes_ m; map_cells_ := map_cells_ m; cells_ := cells_ m;
     materials_ := materials_ m;
     particle_velocity_constraints_ := particle_velocity_constraints_ m;
     console_ := console_ m; nhalo_nodes_ := nhalo_nodes_ m;
     ncomms_ := ncomms_ m; objects := objects m |}.

Definition set_nodes_ (v : list ptr) (m : Mesh) : Mesh :=
  {| particles_ := particles_ m; particles_cell_ids_ := particles_cell_ids_ m;
     particle_sets_ := particle_sets_ m; map_particles_ := map_particles_ m;
     nodes_ := v; domain_shared_nodes_ := domain_shared_nodes_ m;
     map_nodes_ := map_nodes_ m; map_cells_ := map_cells_ m; cells_ := cells_ m;
     materials_ := materials_ m;
     particle_velocity_constraints_ := particle_velocity_constraints_ m;
     console_ := console_ m; nhalo_nodes_ := nhalo_nodes_ m;
     ncomms_ := ncomms_ m; objects := objects m |}.

Definition set_domain_shared_nodes_ (v : list ptr) (m : Mesh) : Mesh :=
  {| particles_ := particles_ m; particles_cell_ids_ := particles_cell_ids_ m;
     particle_sets_ := particle_sets_ m; map_particles_ := map_particles_ m;
     nodes_ := nodes_ m; domain_shared_nodes_ := v; map_nodes_ := map_nodes_ m;
     map_cells_ := map_cells_ m; cells_ := cells_ m; materials_ := materials_ m;
     particle_velocity_constraints_ := particle_velocity_constraints_ m;
     console_ := console_ m; nhalo_nodes_ := nhalo_nodes_ m;
     ncomms_ := ncomms_ m; objects := objects m |}.

Definition set_map_nodes_ (v : gmap N positive) (m : Mesh) : Mesh :=
  {| particles_ := particles_ m; particles_cell_ids_ := particles_cell_ids_ m;
     particle_sets_ := particle_sets_ m; map_particles_ := map_particles_ m;
     nodes_ := nodes_ m; domain_shared_nodes_ := domain_shared_nodes_ m;
     map_nodes_ := v; map_cells_ := map_cells_ m; cells_ := cells_ m;
     materials_ := materials_ m;
     particle_velocity_constraints_ := particle_velocity_constraints_ m;
     console_ := console_ m; nhalo_nodes_ := nhalo_nodes_ m;
     ncomms_ := ncomms_ m; objects := objects m |}.

Definition set_map_cells_ (v : gmap N positive) (m : Mesh) : Mesh :=
  {| particles_ := particles_ m; particles_cell_ids_ := particles_cell_ids_ m;
     particle_sets_ := particle_sets_ m; map_particles_ := map_particles_ m;
     nodes_ := nodes_ m; domain_shared_nodes_ := domain_shared_nodes_ m;
     map_nodes_ := map_nodes_ m; map_cells_ := v; cells_ := cells_ m;
     materials_ := materials_ m;
     particle_velocity_constraints_ := particle_velocity_constraints_ m;
     console_ := console_ m; nhalo_nodes_ := nhalo_nodes_ m;
     ncomms_ := ncomms_ m; objects := objects m |}.

Definition set_cells_ (v : list ptr) (m : Mesh) : Mesh :=
  {| particles_ := particles_ m; particles_cell_ids_ := particles_cell_ids_ m;
     particle_sets_ := particle_sets_ m; map_particles_ := map_particles_ m;
     nodes_ := nodes_ m; domain_shared_nodes_ := domain_shared_nodes_ m;
     map_nodes_ := map_nodes_ m; map_cells_ := map_cells_ m; cells_ := v;
     materials_ := materials_ m;
     particle_velocity_constraints_ := particle_velocity_constraints_ m;
     console_ := console_ m; nhalo_nodes_ := nhalo_nodes_ m;
     ncomms_ := ncomms_ m; objects := objects m |}.

Definition set_materials_ (v : gmap N positive) (m : Mesh) : Mesh :=
  {| particles_ := particles_ m; particles_cell_ids_ := particles_cell_ids_ m;
     particle_sets_ := particle_sets_ m; map_particles_ := map_particles_ m;
     nodes_ := nodes_ m; domain_shared_nodes_ := domain_shared_nodes_ m;
     map_nodes_ := map_nodes_ m; map_cells_ := map_cells_ m; cells_ := cells_ m;
     materials_ := v;
     particle_velocity_constraints_ := particle_velocity_constraints_ m;
     console_ := console_ m; nhalo_nodes_ := nhalo_nodes_ m;
     ncomms_ := ncomms_ m; objects := objects m |}.

Definition set_particle_velocity_constraints_ (v : list VelocityConstraint) (m : Mesh) : Mesh :=
  {| particles_ := particles_ m; particles_cell_ids_ := particles_cell_ids_ m;
     particle_sets_ := particle_sets_ m; map_particles_ := map_particles_ m;
     nodes_ := nodes_ m; domain_shared_nodes_ := domain_shared_nodes_ m;
     map_nodes_ := map_nodes_ m; map_cells_ := map_cells_ m; cells_ := cells_ m;
     materials_ := materials_ m; particle_velocity_constraints_ := v;
     console_ := console_ m; nhalo_nodes_ := nhalo_nodes_ m;
     ncomms_ := ncomms_ m; objects := objects m |}.

Definition set_console_ (v : list string) (m : Mesh) : Mesh :=
  {| particles_ := particles_ m; particles_cell_ids_ := particles_cell_ids_ m;
     particle_sets_ := particle_sets_ m; map_particles_ := map_particles_ m;
     nodes_ := nodes_ m; domain_shared_nodes_ := domain_shared_nodes_ m;
     map_nodes_ := map_nodes_ m; map_cells_ := map_cells_ m; cells_ := cells_ m;
     materials_ := materials_ m;
     particle_velocity_constraints_ := particle_velocity_constraints_ m;
     console_ := v; nhalo_nodes_ := nhalo_nodes_ m; ncomms_ := ncomms_ m;
     objects := objects m |}.

Definition set_nhalo_nodes_ (v : N) (m : Mesh) : Mesh :=
  {| particles_ := particles_ m; particles_cell_ids_ := particles_cell_ids_ m;
     particle_sets_ := particle_sets_ m; map_particles_ := map_particles_ m;
     nodes_ := nodes_ m; domain_shared_nodes_ := domain_shared_nodes_ m;
     map_nodes_ := map_nodes_ m; map_cells_ := map_cells_ m; cells_ := cells_ m;
     materials_ := materials_ m;
     particle_velocity_constraints_ := particle_velocity_constraints_ m;
     console_ := console_ m; nhalo_nodes_ := v; ncomms_ := ncomms_ m;
     objects := objects m |}.

Definition set_ncomms_ (v : N) (m : Mesh) : Mesh :=
  {| particles_ := particles_ m; particles_cell_ids_ := particles_cell_ids_ m;
     particle_sets_ := particle_sets_ m; map_particles_ := map_particles_ m;
     nodes_ := nodes_ m; domain_shared_nodes_ := domain_shared_nodes_ m;
     map_nodes_ := map_nodes_ m; map_cells_ := map_cells_ m; cells_ := cells_ m;
     materials_ := materials_ m;
     particle_velocity_constraints_ := particle_velocity_constraints_ m;
     console_ := console_ m; nhalo_nodes_ := nhalo_nodes_ m; ncomms_ := v;
     objects := objects m |}.

Definition set_objects (v : Store) (m : Mesh) : Mesh :=
  {| particles_ := particles_ m; particles_cell_ids_ := particles_cell_ids_ m;
     particle_sets_ := particle_sets_ m; map_particles_ := map_particles_ m;
     nodes_ := nodes_ m; domain_shared_nodes_ := domain_shared_nodes_ m;
     map_nodes_ := map_nodes_ m; map_cells_ := map_cells_ m; cells_ := cells_ m;
     materials_ := materials_ m;
     particle_velocity_constraints_ := particle_velocity_constraints_ m;
     console_ := console_ m; nhalo_nodes_ := nhalo_nodes_ m;
     ncomms_ := ncomms_ m; objects := v |}.

(** The mesh that the constructor leaves. *)
Definition empty_store : Store :=
  {| particle_heap := ∅; node_heap := ∅; cell_heap := ∅ |}.

Definition empty_mesh : Mesh :=
  {| particles_ := []; particles_cell_ids_ := ∅; particle_sets_ := ∅;
     map_particles_ := ∅; nodes_ := []; domain_shared_nodes_ := [];
     map_nodes_ := ∅; map_cells_ := ∅; cells_ := []; materials_ := ∅;
     particle_velocity_constraints_ := []; console_ := [];
     nhalo_nodes_ := 0; ncomms_ := 0; objects := empty_store |}.

(** Reading an object through its pointer. *)
Definition particle (m : Mesh) (p : ptr) : Particle :=
  particle_heap (objects m) !!! p.
Definition node (m : Mesh) (n : ptr) : Node := node_heap (objects m) !!! n.
Definition cell (m : Mesh) (c : ptr) : Cell := cell_heap (objects m) !!! c.

(** ** Results and the state monad of a mesh operation *)

(** The outcome of an operation: a value, a C++ exception with its message,
    or no defined outcome at all: behaviour that the language leaves
    undefined (reading a buffer past what was written into it), or a
    blocking call that never returns. *)
Inductive Res (A : Type) : Type :=
| Ok (a : A)
| Throw (what : string)
| Undefined.
Arguments Ok {A} a.
Arguments Throw {A} what.
Arguments Undefined {A}.

Definition M (A : Type) : Type := Mesh → Res A * Mesh.

Definition ret {A} (a : A) : M A := λ m, (Ok a, m).
Definition throw {A} (what : string) : M A := λ m, (Throw what, m).
Definition undefined {A} : M A := λ m, (Undefined, m).
Definition bind {A B} (c : M A) (k : A → M B) : M B :=
  λ m, match c m with
       | (Ok a, m') => k a m'
       | (Throw what, m') => (Throw what, m')
       | (Undefined, m') => (Undefined, m')
       end.
Definition get : M Mesh := λ m, (Ok m, m).
Definition modify (f : Mesh → Mesh) : M unit := λ m, (Ok tt, f m).

(** [try { body } catch (std::exception& e) { handler }]: every exception
    thrown in the modelled code derives from [std::exception]. *)
Definition try_catch {A} (body : M A) (handler : string → M A) : M A :=
  λ m, match body m with
       | (Ok a, m') => (Ok a, m')
       | (Throw what, m') => handler what m'
       | (Undefined, m') => (Undefined, m')
       end.

Notation "'let*' x ':=' c 'in' k" := (bind c (λ x, k))
  (at level 20, x pattern, c at level 100, k at level 200).

(** [console_->error(...)] *)
Definition console_error (what : string) : M unit :=
  modify (λ m, set_console_ (console_ m ++ [what]) m).

(** A [for] loop over a list whose body may throw. *)
Fixpoint for_each {A} (l : list A) (body : A → M unit) : M unit :=
  match l with
  | [] => ret tt
  | x :: l' => let* _ := body x in for_each l' body
  end.

(** ** Containers and maps *)

Module Container.
Section WithId.
Context (id_of : ptr → Index).

(** Modelled from the spec: [container.h] is not part of the sources.
    Section 4.1: a container keeps its entities in insertion order, [add]
    fails when duplicates are checked and an entity with the same id is
    present, [remove] fails when the entity is absent. *)
Definition has_id (c : list ptr) (i : Index) : bool :=
  bool_decide (i ∈ id_of <$> c).

Definition add (c : list ptr) (p : ptr) (check_duplicates : bool)
  : bool * list ptr :=
  if check_duplicates && has_id c (id_of p) then (false, c)
  else (true, c ++ [p]).

Definition remove (c : list ptr) (p : ptr) : bool * list ptr :=
  if bool_decide (p ∈ c) then (true, filter (λ q, q ≠ p) c)
  else (false, c).
End WithId.
End Container.

Module Map.
(** Modelled from the spec: [map.h] is not part of the sources.  Section
    4.1: the map is the id to entity association.  [insert] is the
    insertion of an associative container, which keeps the entry of a key
    that is present and says so. *)
Definition insert (i : Index) (p : ptr) (mp : gmap N positive)
  : bool * gmap N positive :=
  match mp !! i with
  | Some _ => (false, mp)
  | None => (true, <[i := p]> mp)
  end.

Definition remove (i : Index) (mp : gmap N positive)
  : bool * gmap N positive :=
  match mp !! i with
  | Some _ => (true, base.delete i mp)
  | None => (false, mp)
  end.

(** Modelled from the spec: [operator[]], the entity of an id.  Section 7
    calls an id that is not present in a map a lookup-miss failure; the
    mesh asks [find(id) != end()] first where an id may be missing, and
    here the failure is an exception. *)
Definition at_ (mp : gmap N positive) (i : Index) : M positive :=
  match mp !! i with
  | Some p => ret p
  | None => throw "map: id not found"
  end.

(** [find(id) != end()] *)
Definition mem (mp : gmap N positive) (i : Index) : bool :=
  bool_decide (is_Some (mp !! i)).
End Map.

(** ** Members of the entities that the mesh calls *)

(** The element of a cell decides point containment; it is supplied from
    outside the mesh (section 6).  [is_point_in_cell c x] is [Some xi] when
    the cell behind [c] contains [x], with the reference coordinates [xi]. *)
Class Element := {
  is_point_in_cell : ptr → VectorDim → option VectorDim
}.

Definition update_particle (p : ptr) (f : Particle → Particle) : M unit :=
  modify (λ m, set_objects
    (set_particle_heap (<[p := f (particle m p)]> (particle_heap (objects m)))
       (objects m)) m).

Definition update_cell (c : ptr) (f : Cell → Cell) : M unit :=
  modify (λ m, set_objects
    (set_cell_heap (<[c := f (cell m c)]> (cell_heap (objects m)))
       (objects m)) m).

Definition update_node (n : ptr) (f : Node → Node) (s : Store) : Store :=
  set_node_heap (<[n := f (node_heap s !!! n)]> (node_heap s)) s.

Module CellBase.
(** Modelled from the spec: the member functions of [Cell] live in
    [cell.h], which is not part of the sources.  Each is given the effect
    that the specification (sections 3 and 4.2) and the comment at its call
    site describe. *)
Definition with_particles (f : list Index → list Index) (c : Cell) : Cell :=
  {| c_id := c_id c; c_nodes := c_nodes c; c_rank := c_rank c;
     c_neighbours := c_neighbours c; c_particles := f (c_particles c) |}.

(** [add_particle_id], [remove_particle_id], [clear_particle_ids]: the set
    of the ids of the particles that are in the cell. *)
Definition add_particle_id (c : ptr) (i : Index) : M unit :=
  update_cell c (with_particles
    (λ l, if bool_decide (i ∈ l) then l else l ++ [i])).
Definition remove_particle_id (c : ptr) (i : Index) : M unit :=
  update_cell c (with_particles (filter (λ j, j ≠ i))).
Definition clear_particle_ids (c : ptr) : M unit :=
  update_cell c (with_particles (λ _, [])).
End CellBase.

Module ParticleBase.
(** Modelled from the spec: the member functions of [ParticleBase] live in
    [particle.h], which is not part of the sources.  Each is given the
    effect that the specification (sections 3 and 4.2) and the comment at
    its call site describe. *)
Definition with_cell (c : option ptr) (ci : Index) (x : Particle) : Particle :=
  {| p_id := p_id x; p_coordinates := p_coordinates x; p_xi := p_xi x;
     p_cell_id := ci; p_cell := c; p_velocity := p_velocity x;
     p_mass := p_mass x; p_state_variables := p_state_variables x;
     p_material := p_material x |}.

Definition with_xi (xi : VectorDim) (x : Particle) : Particle :=
  {| p_id := p_id x; p_coordinates := p_coordinates x; p_xi := xi;
     p_cell_id := p_cell_id x; p_cell := p_cell x;
     p_velocity := p_velocity x; p_mass := p_mass x;
     p_state_variables := p_state_variables x;
     p_material := p_material x |}.

(** The particle leaves the cell it is in, if any. *)
Definition leave_cell (p : ptr) : M unit :=
  let* m := get in
  match p_cell (particle m p) with
  | Some c0 => CellBase.remove_particle_id c0 (p_id (particle m p))
  | None => ret tt
  end.

(** [assign_cell]: the cell becomes the cell of the particle. *)
Definition assign_cell (p c : ptr) : M unit :=
  let* _ := leave_cell p in
  let* m := get in
  let* _ := update_particle p (with_cell (Some c) (c_id (cell m c))) in
  CellBase.add_particle_id c (p_id (particle m p)).

(** [assign_cell_xi]: the cell and the reference coordinates in it. *)
Definition assign_cell_xi (p c : ptr) (xi : VectorDim) : M unit :=
  let* _ := leave_cell p in
  let* m := get in
  let* _ := update_particle p
              (λ x, with_xi xi (with_cell (Some c) (c_id (cell m c)) x)) in
  CellBase.add_particle_id c (p_id (particle m p)).

(** [remove_cell]: the particle is in no cell. *)
Definition remove_cell (p : ptr) : M unit :=
  let* _ := leave_cell p in
  update_particle p (with_cell None INDEX_MAX).

Section WithElement.
Context `{Element}.

(** [compute_reference_location]: whether the coordinates of the
    particle map to reference coordinates inside its own cell; when
    they do, these are stored. *)
Definition compute_reference_location (p : ptr) : M bool :=
  let* m := get in
  match p_cell (particle m p) with
  | Some c =>
      match is_point_in_cell c (p_coordinates (particle m p)) with
      | Some xi => let* _ := update_particle p (with_xi xi) in ret true
      | None => ret false
      end
  | None => ret false
  end.
End WithElement.
End ParticleBase.

Module NodeBase.
(** Modelled from the spec: the member functions of [NodeBase] live in
    [node.h], which is not part of the sources.  Each is given the effect
    that the specification (sections 3 and 4.3) and the comment at its call
    site describe. *)
Definition with_mpi_ranks (r : gset N) (x : Node) : Node :=
  {| n_id := n_id x; n_mpi_ranks := r; n_ghost_id := n_ghost_id x;
     n_mass := n_mass x |}.
Definition with_ghost_id (g : N) (x : Node) : Node :=
  {| n_id := n_id x; n_mpi_ranks := n_mpi_ranks x; n_ghost_id := g;
     n_mass := n_mass x |}.
Definition with_mass (v : Z) (x : Node) : Node :=
  {| n_id := n_id x; n_mpi_ranks := n_mpi_ranks x;
     n_ghost_id := n_ghost_id x; n_mass := v |}.

Definition clear_mpi_ranks (n : ptr) : Store → Store :=
  update_node n (with_mpi_ranks ∅).
(** [mpi_rank(r)]: the rank joins the ranks of the node. *)
Definition mpi_rank (r : N) (n : ptr) : Store → Store :=
  update_node n (λ x, with_mpi_ranks (n_mpi_ranks x ∪ {[r]}) x).
Definition ghost_id (g : N) (n : ptr) : Store → Store :=
  update_node n (with_ghost_id g).
End NodeBase.

(** ** Nodes and cells of the mesh: [add_node], [remove_node], [add_cell],
    [remove_cell] *)

Definition add_node (n : ptr) (check_duplicates : bool) : M bool :=
  let* m := get in
  let '(insertion_status, c') :=
    Container.add (λ q, n_id (node m q)) (nodes_ m) n check_duplicates in
  let* _ := modify (set_nodes_ c') in
  let* _ := (if insertion_status
             then modify (λ m, set_map_nodes_
                    (Map.insert (n_id (node m n)) n (map_nodes_ m)).2 m)
             else ret tt) in
  ret insertion_status.

Definition remove_node (n : ptr) : M bool :=
  let* m := get in
  let id := n_id (node m n) in
  let '(removed, c') := Container.remove (nodes_ m) n in
  let* _ := modify (set_nodes_ c') in
  if removed then
    let '(erased, mp') := Map.remove id (map_nodes_ m) in
    let* _ := modify (set_map_nodes_ mp') in
    ret erased
  else ret false.

Definition add_cell (c : ptr) (check_duplicates : bool) : M bool :=
  let* m := get in
  let '(insertion_status, l') :=
    Container.add (λ q, c_id (cell m q)) (cells_ m) c check_duplicates in
  let* _ := modify (set_cells_ l') in
  let* _ := (if insertion_status
             then modify (λ m, set_map_cells_
                    (Map.insert (c_id (cell m c)) c (map_cells_ m)).2 m)
             else ret tt) in
  ret insertion_status.

Definition remove_cell (c : ptr) : M bool :=
  let* m := get in
  let id := c_id (cell m c) in
  let '(removed, l') := Container.remove (cells_ m) c in
  let* _ := modify (set_cells_ l') in
  if removed then
    let '(erased, mp') := Map.remove id (map_cells_ m) in
    let* _ := modify (set_map_cells_ mp') in
    ret erased
  else ret false.

(** ** Particle localisation: [locate_particle_cells] *)

Section Localisation.
Context `{Element}.

(** The loop over the neighbours of the current cell: the first
    neighbour that contains the point takes the particle. *)
Fixpoint locate_in_neighbours (p : ptr) (coordinates : VectorDim)
    (neighbours : list Index) : M bool :=
  match neighbours with
  | [] => ret false
  | neighbour :: rest =>
      let* m := get in
      let* c := Map.at_ (map_cells_ m) neighbour in
      match is_point_in_cell c coordinates with
      | Some xi =>
          let* _ := ParticleBase.assign_cell_xi p c xi in ret true
      | None => locate_in_neighbours p coordinates rest
      end
  end.

(** The body of the loop over all the cells, with the captured flag
    [status]. *)
Definition locate_in_cell (p : ptr) (status : bool) (c : ptr) : M bool :=
  let* m := get in
  if negb status then
    match is_point_in_cell c (p_coordinates (particle m p)) with
    | Some xi => let* _ := ParticleBase.assign_cell_xi p c xi in ret true
    | None => ret status
    end
  else ret status.

Fixpoint locate_in_cells (p : ptr) (status : bool) (cells : list ptr)
  : M bool :=
  match cells with
  | [] => ret status
  | c :: rest =>
      let* status' := locate_in_cell p status c in
      locate_in_cells p status' rest
  end.

Definition locate_particle_cells (p : ptr) : M bool :=
  let* m := get in
  let* found :=
    if bool_decide (p_cell_id (particle m p) ≠ INDEX_MAX) then
      let* _ :=
        match p_cell (particle m p) with
        | None =>
            let* c := Map.at_ (map_cells_ m) (p_cell_id (particle m p)) in
            ParticleBase.assign_cell p c
        | Some _ => ret tt
        end in
      let* located := ParticleBase.compute_reference_location p in
      if located then ret true
      else
        let* m1 := get in
        let* c := Map.at_ (map_cells_ m1) (p_cell_id (particle m1 p)) in
        locate_in_neighbours p (p_coordinates (particle m1 p))
          (c_neighbours (cell m1 c))
    else ret false in
  if found then ret true
  else
    let* m2 := get in
    locate_in_cells p false (cells_ m2).

(** ** Particles of the mesh: [add_particle] and the removals *)

(** The three statements that both branches of [add_particle] run: the
    container, the map of cell ids and the id map take the particle. *)
Definition insert_particle (p : ptr) (checks : bool) : M bool :=
  let* m := get in
  let '(status, c') :=
    Container.add (λ q, p_id (particle m q)) (particles_ m) p checks in
  let* _ := modify (set_particles_ c') in
  let* _ := modify (λ m, set_particles_cell_ids_
              (match particles_cell_ids_ m !! p_id (particle m p) with
               | Some _ => particles_cell_ids_ m
               | None => <[p_id (particle m p) := p_cell_id (particle m p)]>
                           (particles_cell_ids_ m)
               end) m) in
  let* _ := modify (λ m, set_map_particles_
              (Map.insert (p_id (particle m p)) p (map_particles_ m)).2 m) in
  ret status.

Definition add_particle (p : ptr) (checks : bool) : M bool :=
  try_catch
    (let* status :=
       if checks then
         let* located := locate_particle_cells p in
         if located then insert_particle p checks
         else throw "Particle not found in mesh"
       else insert_particle p checks in
     if status then ret true else throw "Particle addition failed")
    (λ what, let* _ := console_error what in ret false).
End Localisation.

Definition remove_particle (p : ptr) : M bool :=
  let* m := get in
  let id := p_id (particle m p) in
  let* q := Map.at_ (map_particles_ m) id in
  let* _ := ParticleBase.remove_cell q in
  let* m1 := get in
  let '(removed, c') := Container.remove (particles_ m1) p in
  let* _ := modify (set_particles_ c') in
  if removed then
    let '(erased, mp') := Map.remove id (map_particles_ m1) in
    let* _ := modify (set_map_particles_ mp') in
    ret erased
  else ret false.

Definition remove_particle_by_id (id : Index) : M bool :=
  let* m := get in
  let* q := Map.at_ (map_particles_ m) id in
  let* _ := ParticleBase.remove_cell q in
  let* m1 := get in
  let* q1 := Map.at_ (map_particles_ m1) id in
  let '(result, c') := Container.remove (particles_ m1) q1 in
  let* _ := modify (set_particles_ c') in
  if result then
    let '(erased, mp') := Map.remove id (map_particles_ m1) in
    let* _ := modify (set_map_particles_ mp') in
    ret erased
  else ret false.

(** The loop that both bulk removals run per particle id. *)
Definition drop_particle_id (id : Index) : M unit :=
  let* m := get in
  let* q := Map.at_ (map_particles_ m) id in
  let* _ := ParticleBase.remove_cell q in
  modify (λ m, set_map_particles_ (Map.remove id (map_particles_ m)).2 m).

(** [particles_.clear()] and the loop that adds every particle of the id map
    again, without duplicate checks.  The order in which a hash map is
    traversed is not fixed by its interface; the model takes the order of
    [map_to_list]. *)
Definition rebuild_particles : M unit :=
  modify (λ m, set_particles_
    (foldl (λ c q, (Container.add (λ q, p_id (particle m q)) c q false).2) []
       ((map_to_list (map_particles_ m)).*2)) m).

Definition remove_particles (pids : list Index) : M unit :=
  match pids with
  | [] => ret tt
  | _ => let* _ := for_each pids drop_particle_id in rebuild_particles
  end.

(** [mpi_rank] is the rank of the process, [0] in a build without MPI. *)
Definition remove_all_nonrank_particles (mpi_rank : N) : M unit :=
  let* m := get in
  let* _ := for_each (cells_ m) (λ c,
    let* m1 := get in
    if bool_decide (length (c_particles (cell m1 c)) ≠ 0%nat)
       && bool_decide (c_rank (cell m1 c) ≠ mpi_rank)
    then
      let* _ := for_each (c_particles (cell m1 c)) drop_particle_id in
      CellBase.clear_particle_ids c
    else ret tt) in
  rebuild_particles.

(** [particles_cell_ids()] *)
Definition particles_cell_ids (m : Mesh) : gmap N N := particles_cell_ids_ m.

(** ** Iteration: [iterate_over_particles], [iterate_over_particle_set] *)

(** [tbb::parallel_for] over the range of indices from [first] to [last]:
    the body runs once at every index of the range.  An operator changes
    the objects it is given, not the containers of the mesh (section 5). *)
Definition parallel_for (first last : nat) (body : nat → Store → Store)
    (s : Store) : Store :=
  foldl (λ s i, body i s) s (seq first (last - first)).

Definition Toper : Type := ptr → Store → Store.

Definition iterate_over_particles (oper : Toper) : M unit :=
  modify (λ m, set_objects
    (parallel_for 0 (length (particles_ m))
       (λ i s, match particles_ m !! i with
               | Some p => oper p s
               | None => s
               end) (objects m)) m).

Definition iterate_over_particle_set (set_id : Z) (oper : Toper) : M unit :=
  if bool_decide (set_id = (-1)%Z) then
    modify (λ m, set_objects
      (parallel_for 0 (length (particles_ m))
         (λ i s, match particles_ m !! i with
                 | Some p => oper p s
                 | None => s
                 end) (objects m)) m)
  else
    let* m := get in
    match particle_sets_ m !! to_unsigned set_id with
    | None => throw "robin_map::at: key not found"
    | Some set =>
        modify (λ m, set_objects
          (parallel_for 0 (length set)
             (λ i s, match set !! i with
                     | Some id =>
                         (* [unsigned id = set[i]] *)
                         match map_particles_ m !! wrap32 id with
                         | Some p => oper p s
                         | None => s
                         end
                     | None => s
                     end) (objects m)) m)
    end.

(** ** Velocity constraints of particles *)

Definition create_particle_velocity_constraint (Tdim : N) (set_id : Z)
    (constraint : VelocityConstraint) : M bool :=
  try_catch
    (let* m := get in
     if bool_decide (set_id = (-1)%Z)
        || bool_decide (is_Some (particle_sets_ m !! to_unsigned set_id))
     then
       if (vc_dir constraint <? Tdim)%N then
         let* _ := modify (λ m, set_particle_velocity_constraints_
                     (particle_velocity_constraints_ m ++ [constraint]) m) in
         ret true
       else throw "Invalid direction of velocity constraint"
     else throw "No particle set found to assign velocity constraint")
    (λ what, let* _ := console_error what in ret false).

(** ** Domain decomposition: [find_domain_shared_nodes] *)

(** Modelled from the spec: [Cell::assign_mpi_rank_to_nodes] lives in
    [cell.h], which is not part of the sources.  Section 4.3: the ranks of a
    node are the ranks of all the cells that touch it; the rank of the cell
    joins the ranks of each of its nodes. *)
Definition assign_mpi_rank_to_nodes (c : ptr) (s : Store) : Store :=
  let x := cell_heap s !!! c in
  foldl (λ s n, NodeBase.mpi_rank (c_rank x) n s) s (c_nodes x).

(** Modelled from the spec: [Container::add] with one argument.  The
    declaration that gives the second parameter its default is not part of
    the sources; the members of the mesh that forward to it default to
    checking duplicates. *)
Definition default_check_duplicates : bool := true.

Definition add_domain_shared_node (n : ptr) (m : Mesh) : Mesh :=
  set_domain_shared_nodes_
    (Container.add (λ q, n_id (node m q)) (domain_shared_nodes_ m) n
       default_check_duplicates).2 m.

(** The body of the loop over the nodes when [USE_HALO_EXCHANGE] is
    defined. *)
Definition shared_node_step_halo (mpi_rank : N) (m : Mesh) (n : ptr) : Mesh :=
  let nodal_mpi_ranks := n_mpi_ranks (node m n) in
  let nodal_mpi_ranks_size := wrap32 (N.of_nat (size nodal_mpi_ranks)) in
  if (1 <? nodal_mpi_ranks_size)%N then
    if bool_decide (mpi_rank ∈ nodal_mpi_ranks) then
      let m1 := set_objects (NodeBase.ghost_id (ncomms_ m) n (objects m)) m in
      let m2 := add_domain_shared_node n m1 in
      set_ncomms_ (wrap32 (ncomms_ m2 + nodal_mpi_ranks_size - 1)) m2
    else m
  else m.

(** The body of the loop over the nodes when it is not. *)
Definition shared_node_step (mpi_rank : N) (m : Mesh) (n : ptr) : Mesh :=
  let nodal_mpi_ranks := n_mpi_ranks (node m n) in
  if bool_decide (1 < size nodal_mpi_ranks)%nat then
    let m1 := set_objects
                (NodeBase.ghost_id (nhalo_nodes_ m) n (objects m)) m in
    let m2 := set_nhalo_nodes_ (wrap32 (nhalo_nodes_ m1 + 1)) m1 in
    if bool_decide (mpi_rank ∈ nodal_mpi_ranks)
    then add_domain_shared_node n m2
    else m2
  else m.

(** [USE_HALO_EXCHANGE] is the build option of the same name; [mpi_rank] is
    the rank of the process, [0] in a build without MPI. *)
Definition find_domain_shared_nodes (USE_HALO_EXCHANGE : bool) (mpi_rank : N)
    (m : Mesh) : Mesh :=
  let s1 := foldl (λ s n, NodeBase.clear_mpi_ranks n s) (objects m) (nodes_ m) in
  let s2 := foldl (λ s c, assign_mpi_rank_to_nodes c s) s1 (cells_ m) in
  let m1 := set_domain_shared_nodes_ [] (set_objects s2 m) in
  if USE_HALO_EXCHANGE then
    foldl (shared_node_step_halo mpi_rank) (set_ncomms_ 0 m1) (nodes_ m1)
  else
    foldl (shared_node_step mpi_rank) (set_nhalo_nodes_ 0 m1) (nodes_ m1).

(** ** Sequences of additions and removals *)

Inductive MeshOp : Type :=
| AddNode (n : ptr) (check_duplicates : bool)
| RemoveNode (n : ptr)
| AddCell (c : ptr) (check_duplicates : bool)
| RemoveCell (c : ptr)
| AddParticle (p : ptr) (checks : bool)
| RemoveParticle (p : ptr).

Definition run_op `{Element} (o : MeshOp) : M bool :=
  match o with
  | AddNode n check_duplicates => add_node n check_duplicates
  | RemoveNode n => remove_node n
  | AddCell c check_duplicates => add_cell c check_duplicates
  | RemoveCell c => remove_cell c
  | AddParticle p checks => add_particle p checks
  | RemoveParticle p => remove_particle p
  end.

(** The mesh after a sequence of operations, each started where the one
    before it left the mesh, whether it returned or threw. *)
Definition run_ops `{Element} (ops : list MeshOp) (m : Mesh) : Mesh :=
  foldl (λ m o, (run_op o m).2) m ops.

(** An addition that checks duplicates, or a removal. *)
Definition checks_duplicates (o : MeshOp) : Prop :=
  match o with
  | AddNode _ b | AddCell _ b | AddParticle _ b => b = true
  | _ => True
  end.

(** ** Export and import of particle records *)

(** Modelled from the spec: [mpm::HDF5Particle] is declared in
    [hdf5_particle.h], which is not part of the sources; section 6 of the
    specification lists the fields of the record. *)
Record HDF5Particle := {
  h_id : Index;
  h_mass : double;
  h_coordinates : VectorDim;
  h_velocity : VectorDim;
  h_stress : list double;
  h_strain : list double;
  h_material_id : N;
  h_nstate_vars : N;
  h_svars : list double
}.

(** Modelled from the spec: the conversion between a particle and its
    record belongs to the particle ([ParticleBase::hdf5],
    [ParticleBase::initialise_particle]), whose code is not part of the
    sources; the mesh is given it. *)
Class ParticleCodec := {
  hdf5 : Particle → HDF5Particle;
  initialise_particle : HDF5Particle → Material → Particle → Particle
}.

(** The files: the table of records under each file name. *)
Abbreviation Files := (gmap string (list HDF5Particle)) (only parsing).

Section ParticleFiles.
Context `{ParticleCodec}.

(** [H5TBmake_table] writes [NRECORDS] records, the number of particles as
    an [unsigned]; the file is created anew. *)
Definition write_particles_hdf5 (phase : N) (filename : string)
    (fs : gmap string (list HDF5Particle)) (m : Mesh)
  : bool * gmap string (list HDF5Particle) :=
  let nparticles := wrap32 (N.of_nat (length (particles_ m))) in
  let particle_data := (λ p, hdf5 (particle m p)) <$> particles_ m in
  (true, <[filename := take (N.to_nat nparticles) particle_data]> fs).

(** [H5TBread_table] copies every record of the table into [dst_buf], for
    which room for [nparticles] records was reserved; the loop then reads
    one record per particle.  With more records than room, or fewer than
    particles, the program reads or writes outside the buffer. *)
Definition read_particles_hdf5 (phase : N) (filename : string)
    (fs : gmap string (list HDF5Particle)) : M bool :=
  match fs !! filename with
  | None => throw "HDF5 particle file is not found"
  | Some dst_buf =>
      let* m := get in
      let nparticles := wrap32 (N.of_nat (length (particles_ m))) in
      if bool_decide (N.of_nat (length dst_buf) = nparticles
                      ∧ length dst_buf = length (particles_ m))
      then
        let* _ := for_each (zip (particles_ m) dst_buf) (λ '(p, record),
          let* m1 := get in
          match materials_ m1 !! h_material_id record with
          | None => throw "map::at"
          | Some material =>
              update_particle p (initialise_particle record material)
          end) in
        ret true
      else undefined
  end.
End ParticleFiles.

(** ** Halo exchange of a nodal property: [nodal_halo_exchange]

    The exchange involves every process.  A world is the list of the meshes
    of the processes, the mesh of rank [r] at position [r]; an operation
    of MPI is a function of the world.  [Ttype] is any type with the zero
    [mpm::zero<Ttype>()] and the sum of [MPI_SUM] and [+=]; [getter] and
    [setter] read and write a property of a node. *)

Definition res_bind {A B} (r : Res A) (k : A → Res B) : Res B :=
  match r with
  | Ok a => k a
  | Throw what => Throw what
  | Undefined => Undefined
  end.

(** All the processes return, or the first that does not decides. *)
Fixpoint res_all {A} (l : list (Res A)) : Res (list A) :=
  match l with
  | [] => Ok []
  | r :: l' => res_bind r (λ a, res_bind (res_all l') (λ l'', Ok (a :: l'')))
  end.

Section HaloExchange.
Context {Ttype : Type} (zero : Ttype) (plus : Ttype → Ttype → Ttype).
Context (getter : Node → Ttype) (setter : Node → Ttype → Node).

(** *** Without [USE_HALO_EXCHANGE]: one reduction over a buffer with a
    slot per ghost id *)

(** The first loop: [prop_get.at(node->ghost_id()) = getter(node)]. *)
Definition gather (m : Mesh) : Res (list Ttype) :=
  foldl (λ acc n,
           res_bind acc (λ prop_get,
             let i := N.to_nat (n_ghost_id (node m n)) in
             if bool_decide (i < length prop_get)%nat
             then Ok (<[i := getter (node m n)]> prop_get)
             else Throw "vector::at"))
    (Ok (replicate (N.to_nat (nhalo_nodes_ m)) zero))
    (domain_shared_nodes_ m).

(** [MPI_Allreduce] with [MPI_SUM]: every process contributes a buffer of
    the same length and receives the sum of the buffers, taken slot by
    slot over the ranks. *)
Definition all_reduce (bufs : list (list Ttype)) : option (list Ttype) :=
  match bufs with
  | [] => None
  | b :: rest =>
      if forallb (λ b', bool_decide (length b' = length b)) rest
      then Some (foldl (zip_with plus) b rest)
      else None
  end.

(** The second loop: [setter(node, prop_set.at(node->ghost_id()))]. *)
Definition scatter (prop_set : list Ttype) (m : Mesh) : Res Mesh :=
  foldl (λ acc n,
           res_bind acc (λ m',
             match prop_set !! N.to_nat (n_ghost_id (node m' n)) with
             | Some v =>
                 Ok (set_objects
                       (update_node n (λ x, setter x v) (objects m')) m')
             | None => Throw "vector::at"
             end))
    (Ok m) (domain_shared_nodes_ m).

Definition nodal_halo_exchange_allreduce (world : list Mesh)
  : Res (list Mesh) :=
  res_bind (res_all (gather <$> world)) (λ prop_gets,
    match all_reduce prop_gets with
    | None => Undefined
    | Some prop_set => res_all (scatter prop_set <$> world)
    end).

(** *** With [USE_HALO_EXCHANGE]: one message per shared node and
    neighbouring rank *)

(** The values that the process [src] with the mesh [m] sends to [dest]
    under [tag], in the order of its loop: for each shared node, to each
    other rank of the node, the property of the node under the id of the
    node.  [MPI_Isend] is taken to carry the value that [property] holds
    at the call. *)
Definition sent (m : Mesh) (src dest tag : N) : list Ttype :=
  omap (λ n, if bool_decide (n_id (node m n) = tag
                             ∧ dest ∈ n_mpi_ranks (node m n) ∧ dest ≠ src)
             then Some (getter (node m n)) else None)
    (domain_shared_nodes_ m).

(** [MPI_Recv] from [src] under [tag] on the process [me]: the next value
    of that source and tag that was not received before; [taken] counts
    the values received so far.  Without such a value, or without such a
    process, the call does not return. *)
Definition receive (world : list Mesh) (me src tag : N)
    (taken : gmap (N * N) nat) : Res (Ttype * gmap (N * N) nat) :=
  match world !! N.to_nat src with
  | None => Undefined
  | Some m_src =>
      let k := default 0%nat (taken !! (src, tag)) in
      match sent m_src src me tag !! k with
      | Some value => Ok (value, <[(src, tag) := S k]> taken)
      | None => Undefined
      end
  end.

(** The loop over the ranks of one node: [property += value]. *)
Definition receive_from_ranks (world : list Mesh) (me tag : N)
    (ranks : list N) (property : Ttype) (taken : gmap (N * N) nat)
  : Res (Ttype * gmap (N * N) nat) :=
  foldl (λ acc node_rank,
           res_bind acc (λ '(property, taken),
             if bool_decide (node_rank ≠ me) then
               res_bind (receive world me node_rank tag taken)
                 (λ '(value, taken'), Ok (plus property value, taken'))
             else Ok (property, taken)))
    (Ok (property, taken)) ranks.

(** The loop over the shared nodes of the process [me]. *)
Definition receive_all (world : list Mesh) (me : N) (m : Mesh) : Res Mesh :=
  res_bind
    (foldl (λ acc n,
              res_bind acc (λ '(m', taken),
                res_bind
                  (receive_from_ranks world me (n_id (node m' n))
                     (elements (n_mpi_ranks (node m' n)))
                     (getter (node m' n)) taken)
                  (λ '(property, taken'),
                    Ok (set_objects
                          (update_node n (λ x, setter x property)
                             (objects m')) m', taken'))))
       (Ok (m, ∅)) (domain_shared_nodes_ m))
    (λ '(m', _), Ok m').

Definition nodal_halo_exchange_direct (world : list Mesh)
  : Res (list Mesh) :=
  if bool_decide (1 < length world)%nat then
    res_all (imap (λ me m, receive_all world (N.of_nat me) m) world)
  else Ok world.

Definition nodal_halo_exchange (USE_HALO_EXCHANGE : bool)
    (world : list Mesh) : Res (list Mesh) :=
  if USE_HALO_EXCHANGE then nodal_halo_exchange_direct world
  else nodal_halo_exchange_allreduce world.
End HaloExchange.

(** ** Concrete meshes

    A one-dimensional element for the examples: the cell behind the
    pointer [c] is the interval from [10 * (c - 1)] to [10 * c], without
    its right end, and the reference coordinate of a point is its distance
    from the left end. *)
Definition interval_element : Element :=
  {| is_point_in_cell c x :=
       match x with
       | [v] =>
           if bool_decide (10 * (Z.pos c - 1) ≤ v < 10 * Z.pos c)%Z
           then Some [(v - 10 * (Z.pos c - 1))%Z]
           else None
       | _ => None
       end |}.

(** Two cells side by side, with the ids 0 and 1, each the neighbour of the
    other, and one particle with the id 0 at the coordinate [x], which
    believes to be in the first cell. *)
Definition line_store (x : Z) : Store :=
  {| particle_heap :=
       {[ 1%positive :=
            {| p_id := 0; p_coordinates := [x]; p_xi := [];
               p_cell_id := 0; p_cell := Some 1%positive; p_velocity := [0%Z];
               p_mass := 0; p_state_variables := []; p_material := None |} ]};
     node_heap := ∅;
     cell_heap :=
       <[ 1%positive := {| c_id := 0; c_nodes := []; c_rank := 0;
                           c_neighbours := [1%N]; c_particles := [0%N] |} ]>
       {[ 2%positive := {| c_id := 1; c_nodes := []; c_rank := 0;
                           c_neighbours := [0%N]; c_particles := [] |} ]} |}.

Definition line_mesh (x : Z) : Mesh :=
  set_cells_ [1%positive; 2%positive]
    (set_map_cells_ (<[ 0%N := 1%positive ]> {[ 1%N := 2%positive ]})
       (set_objects (line_store x) empty_mesh)).

(** A line of four cells over five nodes, decomposed over two ranks: the
    cells with the ids 0 and 1 belong to rank 0, those with the ids 2 and 3
    to rank 1, and the node with the id 2 lies between the two halves.
    The node with the id [k] is behind the pointer [k + 1] and starts with
    the ghost id 9; [mass] gives the nodal masses. *)
Definition decomposed_store (mass : positive → Z) : Store :=
  {| particle_heap := ∅;
     node_heap :=
       list_to_map
         ((λ n, (n, {| n_id := Pos.pred_N n; n_mpi_ranks := ∅;
                       n_ghost_id := 9; n_mass := mass n |}))
            <$> [1; 2; 3; 4; 5]%positive);
     cell_heap :=
       list_to_map
         ((λ c, (c, {| c_id := Pos.pred_N c; c_nodes := [c; Pos.succ c];
                       c_rank := N.div (Pos.pred_N c) 2;
                       c_neighbours := []; c_particles := [] |}))
            <$> [1; 2; 3; 4]%positive) |}.

Definition decomposed_mesh (mass : positive → Z) : Mesh :=
  set_nodes_ [1; 2; 3; 4; 5]%positive
    (set_cells_ [1; 2; 3; 4]%positive
       (set_objects (decomposed_store mass) empty_mesh)).

(** Two nodes and three cells on three ranks: the cells of the ranks 0 and
    1 touch both nodes, the cell of rank 2 touches the first node only. *)
Definition three_rank_store : Store :=
  {| particle_heap := ∅;
     node_heap :=
       list_to_map
         ((λ n, (n, {| n_id := Pos.pred_N n; n_mpi_ranks := ∅;
                       n_ghost_id := 9; n_mass := 0 |}))
            <$> [1; 2]%positive);
     cell_heap :=
       <[ 1%positive := {| c_id := 0; c_nodes := [1; 2]%positive; c_rank := 0;
                           c_neighbours := []; c_particles := [] |} ]>
       (<[ 2%positive := {| c_id := 1; c_nodes := [1; 2]%positive; c_rank := 1;
                            c_neighbours := []; c_particles := [] |} ]>
       {[ 3%positive := {| c_id := 2; c_nodes := [1%positive]; c_rank := 2;
                           c_neighbours := []; c_particles := [] |} ]}) |}.

Definition three_rank_mesh : Mesh :=
  set_nodes_ [1; 2]%positive
    (set_cells_ [1; 2; 3]%positive
       (set_objects three_rank_store empty_mesh)).

(** A conversion for the examples: the record takes the fields of the
    particle as they are, and gives them back. *)
Definition plain_codec : ParticleCodec :=
  {| hdf5 x :=
       {| h_id := p_id x; h_mass := p_mass x;
          h_coordinates := p_coordinates x; h_velocity := p_velocity x;
          h_stress := []; h_strain := []; h_material_id := 0;
          h_nstate_vars := N.of_nat (length (p_state_variables x));
          h_svars := p_state_variables x |};
     initialise_particle record material x :=
       {| p_id := h_id record; p_coordinates := h_coordinates record;
          p_xi := p_xi x; p_cell_id := p_cell_id x; p_cell := p_cell x;
          p_velocity := h_velocity record; p_mass := h_mass record;
          p_state_variables := h_svars record;
          p_material := Some material |} |}.

(** The line mesh with one particle in its container, and with a material
    under the id 0 or with none. *)
Definition particle_mesh (x : Z) (materials : gmap N positive) : Mesh :=
  set_particles_ [1%positive]
    (set_map_particles_ {[ 0%N := 1%positive ]}
       {| particles_ := []; particles_cell_ids_ := ∅; particle_sets_ := ∅;
          map_particles_ := ∅; nodes_ := []; domain_shared_nodes_ := [];
          map_nodes_ := ∅; map_cells_ := map_cells_ (line_mesh x);
          cells_ := cells_ (line_mesh x); materials_ := materials;
          particle_velocity_constraints_ := []; console_ := [];
          nhalo_nodes_ := 0; ncomms_ := 0; objects := line_store x |}).

(** The decomposed line on its two processes: the node between the halves
    has the mass 5 on rank 0 and the mass 3 on rank 1, and each process has
    found its shared nodes. *)
Definition rank0_mass (n : ptr) : Z := if decide (n = 3%positive) then 5 else 1.

Definition rank1_mass (n : ptr) : Z := if decide (n = 3%positive) then 3 else 2.

Definition two_rank_world (USE_HALO_EXCHANGE : bool) : list Mesh :=
  [ find_domain_shared_nodes USE_HALO_EXCHANGE 0 (decomposed_mesh rank0_mass);
    find_domain_shared_nodes USE_HALO_EXCHANGE 1 (decomposed_mesh rank1_mass) ].

(** The nodal mass as the exchanged property. *)
Definition mass_setter (x : Node) (v : Z) : Node := NodeBase.with_mass v x.

(** The line mesh after the addition of its particle at 15, which lies in
    the cell with the id 1. *)
Definition located_mesh : Mesh :=
  (@add_particle interval_element 1%positive true (line_mesh 15)).2.

(** * Predicates of the statements *)

(** [preserves f c]: the operation [c] leaves the observation [f] of the
    mesh as it was, whatever its outcome. *)
Definition preserves {A B} (f : Mesh → A) (c : M B) : Prop :=
  ∀ m, f (c m).2 = f m.

(** [stable s s']: from [s] to [s'] no particle changed its id or its
    coordinates, no cell its id, nodes, rank or neighbours, and no node
    changed at all. *)
Definition stable (s s' : Store) : Prop :=
  (∀ q, p_id (particle_heap s' !!! q) = p_id (particle_heap s !!! q)
        ∧ p_coordinates (particle_heap s' !!! q)
          = p_coordinates (particle_heap s !!! q))
  ∧ (∀ c, c_id (cell_heap s' !!! c) = c_id (cell_heap s !!! c)
          ∧ c_nodes (cell_heap s' !!! c) = c_nodes (cell_heap s !!! c)
          ∧ c_rank (cell_heap s' !!! c) = c_rank (cell_heap s !!! c)
          ∧ c_neighbours (cell_heap s' !!! c) = c_neighbours (cell_heap s !!! c))
  ∧ node_heap s' = node_heap s.

(** [frame m m']: [m'] is [m] with a stably changed object store. *)
Definition frame (m m' : Mesh) : Prop :=
  ∃ s, m' = set_objects s m ∧ stable (objects m) s.

(** [object_op c]: [c] returns or throws, and either way changes nothing
    of the mesh but the object store, and that stably. *)
Definition object_op {A} (c : M A) : Prop :=
  ∀ m, (c m).1 ≠ Undefined ∧ frame m ((c m).2).

(** [objects_only c]: moreover [c] returns. *)
Definition objects_only (c : M unit) : Prop :=
  ∀ m, ∃ m', c m = (Ok tt, m') ∧ frame m m'.

(** Point containment, as a proposition. *)
Definition contains `{Element} (c : ptr) (x : VectorDim) : Prop :=
  is_Some (is_point_in_cell c x).

(** The mesh is well formed around the particle [p]: the id map of the
    cells holds cells of the container under their own ids, the cell id
    of the particle (when it has one) and the ids of the neighbours of
    every cell are in that map, and the cell that the particle points
    to is a cell of the mesh. *)
Definition locatable (m : Mesh) (p : ptr) : Prop :=
  (∀ i c, map_cells_ m !! i = Some c → c ∈ cells_ m ∧ c_id (cell m c) = i)
  ∧ (p_cell_id (particle m p) ≠ INDEX_MAX →
     is_Some (map_cells_ m !! p_cell_id (particle m p)))
  ∧ (∀ c, p_cell (particle m p) = Some c → c ∈ cells_ m)
  ∧ (∀ i c n, map_cells_ m !! i = Some c → n ∈ c_neighbours (cell m c) →
              is_Some (map_cells_ m !! n)).

(** A container and its id map are in step: no two entities of the
    container share an id, and the map holds exactly the entities of the
    container, each under its id. *)
Definition in_sync (id_of : ptr → Index) (c : list ptr) (mp : gmap N positive)
  : Prop :=
  NoDup (id_of <$> c) ∧ ∀ i p, mp !! i = Some p ↔ p ∈ c ∧ id_of p = i.

Definition synced (m : Mesh) : Prop :=
  in_sync (λ q, n_id (node m q)) (nodes_ m) (map_nodes_ m)
  ∧ in_sync (λ q, c_id (cell m q)) (cells_ m) (map_cells_ m)
  ∧ in_sync (λ q, p_id (particle m q)) (particles_ m) (map_particles_ m).

(** Equal size and the same membership. *)
Definition same_size_and_members (id_of : ptr → Index) (c : list ptr)
    (mp : gmap N positive) : Prop :=
  length c = size mp
  ∧ ∀ i, is_Some (mp !! i) ↔ ∃ p, p ∈ c ∧ id_of p = i.

Definition consistent (m : Mesh) : Prop :=
  same_size_and_members (λ q, n_id (node m q)) (nodes_ m) (map_nodes_ m)
  ∧ same_size_and_members (λ q, c_id (cell m q)) (cells_ m) (map_cells_ m)
  ∧ same_size_and_members (λ q, p_id (particle m q)) (particles_ m)
      (map_particles_ m).

(** The ranks that a list of cells gives to the node [q]. *)
Definition ranks_from (s : Store) (cells : list ptr) (q : ptr) : gset N :=
  list_to_set
    ((λ c, c_rank (cell_heap s !!! c))
       <$> filter (λ c, q ∈ c_nodes (cell_heap s !!! c)) cells).

(** The ranks of the cells of the mesh that touch the node [n]. *)
Definition touching_ranks (m : Mesh) (n : ptr) : gset N :=
  list_to_set
    ((λ c, c_rank (cell m c))
       <$> filter (λ c, n ∈ c_nodes (cell m c)) (cells_ m)).

(** The nodes of the mesh that more than one rank touches, in the order of
    the container. *)
Definition shared_nodes (m : Mesh) : list ptr :=
  filter (λ n, (1 < size (touching_ranks m n))%nat) (nodes_ m).

(** Two stores that differ at most in the ranks of their nodes. *)
Definition same_but_ranks (s s' : Store) : Prop :=
  cell_heap s' = cell_heap s ∧ particle_heap s' = particle_heap s
  ∧ ∀ q, n_id (node_heap s' !!! q) = n_id (node_heap s !!! q)
         ∧ n_ghost_id (node_heap s' !!! q) = n_ghost_id (node_heap s !!! q)
         ∧ n_mass (node_heap s' !!! q) = n_mass (node_heap s !!! q).

(** Two meshes with the same nodes, seen through their ids and ranks, and
    the same bookkeeping of the shared nodes. *)
Definition same_sharing (a b : Mesh) : Prop :=
  domain_shared_nodes_ a = domain_shared_nodes_ b
  ∧ nhalo_nodes_ a = nhalo_nodes_ b ∧ ncomms_ a = ncomms_ b
  ∧ ∀ q, n_id (node a q) = n_id (node b q)
         ∧ n_mpi_ranks (node a q) = n_mpi_ranks (node b q).

(** From [a0] and [b0] to [a] and [b] the ghost id of [q] was either left
    alone in both, or it is the same in both. *)
Definition ghost_id_rel (a0 b0 a b : Mesh) (q : ptr) : Prop :=
  (n_ghost_id (node a q) = n_ghost_id (node a0 q)
   ∧ n_ghost_id (node b q) = n_ghost_id (node b0 q))
  ∨ n_ghost_id (node a q) = n_ghost_id (node b q).

(** The object store after the two loops of [find_domain_shared_nodes]
    that clear and assign the ranks of the nodes. *)
Definition rank_phase (m : Mesh) : Store :=
  foldl (λ s c, assign_mpi_rank_to_nodes c s)
    (foldl (λ s n, NodeBase.clear_mpi_ranks n s) (objects m) (nodes_ m))
    (cells_ m).

(** The body of the loop over the nodes in either build, and the mesh that
    the loop starts from. *)
Definition shared_step (USE_HALO_EXCHANGE : bool) (mpi_rank : N)
  : Mesh → ptr → Mesh :=
  if USE_HALO_EXCHANGE then shared_node_step_halo mpi_rank
  else shared_node_step mpi_rank.

Definition shared_start (USE_HALO_EXCHANGE : bool) (m : Mesh) : Mesh :=
  let m1 := set_domain_shared_nodes_ [] (set_objects (rank_phase m) m) in
  if USE_HALO_EXCHANGE then set_ncomms_ 0 m1 else set_nhalo_nodes_ 0 m1.

(** The fields of [x] that an import has to bring back are those of [y]. *)
Definition restores (x y : Particle) : Prop :=
  p_coordinates x = p_coordinates y ∧ p_velocity x = p_velocity y
  ∧ p_mass x = p_mass y ∧ p_state_variables x = p_state_variables y.

(** *** The halo exchange *)

(** The sum and the zero of the property form a commutative monoid. *)
Definition commutative_monoid {T} (zero : T) (plus : T → T → T) : Prop :=
  (∀ x y z, plus x (plus y z) = plus (plus x y) z)
  ∧ (∀ x y, plus x y = plus y x)
  ∧ (∀ x, plus zero x = x).

(** The setter writes what the getter reads, and nothing of the
    bookkeeping of the node. *)
Definition property_lens {T} (getter : Node → T) (setter : Node → T → Node)
  : Prop :=
  ∀ x v, getter (setter x v) = v ∧ n_id (setter x v) = n_id x
         ∧ n_ghost_id (setter x v) = n_ghost_id x
         ∧ n_mpi_ranks (setter x v) = n_mpi_ranks x.

(** The slot of a node in the buffers of the reduction. *)
Definition slot (m : Mesh) (n : ptr) : nat :=
  N.to_nat (n_ghost_id (node m n)).

(** Without [USE_HALO_EXCHANGE]: every process has [nhalo] slots, and its
    shared nodes have ghost ids below [nhalo], no two the same. *)
Definition allreduce_ready (world : list Mesh) (nhalo : N) : Prop :=
  ∀ m, m ∈ world →
    nhalo_nodes_ m = nhalo
    ∧ NoDup ((λ n, n_ghost_id (node m n)) <$> domain_shared_nodes_ m)
    ∧ ∀ n, n ∈ domain_shared_nodes_ m → (n_ghost_id (node m n) < nhalo)%N.

(** With [USE_HALO_EXCHANGE]: the shared nodes of a process have ids of
    their own, and each rank of a shared node is a process that shares a
    node of that id with this process. *)
Definition direct_ready (world : list Mesh) : Prop :=
  (∀ m, m ∈ world →
        NoDup ((λ n, n_id (node m n)) <$> domain_shared_nodes_ m))
  ∧ ∀ me m n src,
      world !! me = Some m → n ∈ domain_shared_nodes_ m →
      src ∈ n_mpi_ranks (node m n) → src ≠ N.of_nat me →
      ∃ ms ns, world !! N.to_nat src = Some ms
               ∧ ns ∈ domain_shared_nodes_ ms
               ∧ n_id (node ms ns) = n_id (node m n)
               ∧ N.of_nat me ∈ n_mpi_ranks (node ms ns).

(** The processes [r1] and [r2], and no others, share a node: [n1] in the
    mesh [m1] of [r1] and [n2] in the mesh [m2] of [r2].  In the build
    without [USE_HALO_EXCHANGE] the two have one ghost id, which no shared
    node of another process has; in the build with it they have one id and
    the ranks [r1] and [r2]. *)
Definition shared_by_two (USE_HALO_EXCHANGE : bool) (world : list Mesh)
    (r1 r2 : nat) (m1 m2 : Mesh) (n1 n2 : ptr) : Prop :=
  r1 ≠ r2 ∧ world !! r1 = Some m1 ∧ world !! r2 = Some m2
  ∧ n1 ∈ domain_shared_nodes_ m1 ∧ n2 ∈ domain_shared_nodes_ m2
  ∧ if USE_HALO_EXCHANGE then
      n_id (node m1 n1) = n_id (node m2 n2)
      ∧ n_mpi_ranks (node m1 n1) = {[N.of_nat r1; N.of_nat r2]}
      ∧ n_mpi_ranks (node m2 n2) = {[N.of_nat r1; N.of_nat r2]}
    else
      n_ghost_id (node m1 n1) = n_ghost_id (node m2 n2)
      ∧ ∀ r m n, world !! r = Some m → n ∈ domain_shared_nodes_ m →
                 n_ghost_id (node m n) = n_ghost_id (node m1 n1) →
                 r = r1 ∨ r = r2.

(** The value that the process [me] receives from [src] under [tag], when
    there is one. *)
Definition peer_value {T} (zero : T) (getter : Node → T) (world : list Mesh)
    (me tag src : N) : T :=
  match world !! N.to_nat src with
  | Some ms => default zero (head (sent getter ms src me tag))
  | None => zero
  end.

(** * The rest of the mesh *)

(** ** Particles that left the mesh: [locate_particles_mesh] *)

Section LocateAll.
Context `{Element}.

(** The loop over the particles of the container: a particle that no cell
    takes joins the list that is returned. *)
Fixpoint locate_particles_loop (ps : list ptr) (particles : list ptr)
  : M (list ptr) :=
  match ps with
  | [] => ret particles
  | p :: rest =>
      let* located := locate_particle_cells p in
      locate_particles_loop rest
        (if located then particles else particles ++ [p])
  end.

Definition locate_particles_mesh : M (list ptr) :=
  let* m := get in
  locate_particles_loop (particles_ m) [].
End LocateAll.

(** ** Particle sets: [create_particle_sets] *)

Definition set_particle_sets_ (v : gmap N (list Index)) (m : Mesh) : Mesh :=
  {| particles_ := particles_ m; particles_cell_ids_ := particles_cell_ids_ m;
     particle_sets_ := v; map_particles_ := map_particles_ m;
     nodes_ := nodes_ m; domain_shared_nodes_ := domain_shared_nodes_ m;
     map_nodes_ := map_nodes_ m; map_cells_ := map_cells_ m; cells_ := cells_ m;
     materials_ := materials_ m;
     particle_velocity_constraints_ := particle_velocity_constraints_ m;
     console_ := console_ m; nhalo_nodes_ := nhalo_nodes_ m;
     ncomms_ := ncomms_ m; objects := objects m |}.

(** One turn of the loop over the sets that are given: [insert] on the map
    of the sets, whose keys are [unsigned], keeps the set of a key that is
    present; [status] is what the last [insert] said. *)
Definition insert_particle_set (acc : bool * gmap N (list Index))
    (entry : Index * list Index) : bool * gmap N (list Index) :=
  match acc.2 !! wrap32 entry.1 with
  | Some _ => (false, acc.2)
  | None => (true, <[wrap32 entry.1 := entry.2]> acc.2)
  end.

(** [particle_sets] is the argument in the order in which its entries are
    traversed, which the interface of a hash map does not fix.  No statement
    of the [try] block throws; [check_duplicates] is not read. *)
Definition create_particle_sets (particle_sets : list (Index * list Index))
    (check_duplicates : bool) : M bool :=
  let* m := get in
  let r := foldl insert_particle_set (false, particle_sets_ m) particle_sets in
  let* _ := modify (set_particle_sets_ r.2) in
  ret r.1.

(** ** Velocity constraints of particles: [apply_particle_velocity_constraints] *)

Section ApplyConstraints.
(** [ParticleBase::apply_particle_velocity_constraints(dir, velocity)] is
    not part of the sources: what it does to the particle is given. *)
Context (apply_constraint : N → double → Particle → Particle).

Definition constrain (pvelocity : VelocityConstraint) : Toper :=
  λ p s, set_particle_heap
           (<[p := apply_constraint (vc_dir pvelocity) (vc_velocity pvelocity)
                     (particle_heap s !!! p)]> (particle_heap s)) s.

Definition apply_particle_velocity_constraints : M unit :=
  let* m := get in
  for_each (particle_velocity_constraints_ m) (λ pvelocity,
    iterate_over_particle_set (vc_setid pvelocity) (constrain pvelocity)).
End ApplyConstraints.

(** *** Predicates *)

(** The particle has a cell of the mesh around it. *)
Definition in_mesh `{Element} (m : Mesh) (p : ptr) : Prop :=
  Exists (λ c, contains c (p_coordinates (particle m p))) (cells_ m).

(** Every stored velocity constraint names all particles or a particle set
    of the mesh. *)
Definition constraints_resolve (m : Mesh) : Prop :=
  ∀ c, c ∈ particle_velocity_constraints_ m →
       vc_setid c = (-1)%Z
       ∨ is_Some (particle_sets_ m !! to_unsigned (vc_setid c)).

(** Every entry of the id map of the particles sits under the id of its
    particle. *)
Definition keyed_by_id (m : Mesh) : Prop :=
  ∀ i p, map_particles_ m !! i = Some p → p_id (particle m p) = i.

(** [keeps P c]: the operation [c] takes a mesh with the property [P] to a
    mesh with the property [P], whatever its outcome. *)
Definition keeps {A} (P : Mesh → Prop) (c : M A) : Prop :=
  ∀ m, P m → P (c m).2.

(** [dropped mp m m']: [m'] is [m] with the id map [mp] of the particles
    and a stably changed object store. *)
Definition dropped (mp : gmap N positive) (m m' : Mesh) : Prop :=
  ∃ s, m' = set_map_particles_ mp (set_objects s m) ∧ stable (objects m) s.

#[global] Instance contains_dec `{Element} (c : ptr) (x : VectorDim)
  : Decision (contains c x) :=
  decide (is_Some (is_point_in_cell c x)).

#[global] Instance in_mesh_dec `{Element} (m : Mesh) (p : ptr)
  : Decision (in_mesh m p) :=
  decide (Exists (λ c, contains c (p_coordinates (particle m p))) (cells_ m)).

(** ** The messages of the halo exchange *)

(** The counter [j] of the loop of [nodal_halo_exchange] that sends, with
    [USE_HALO_EXCHANGE]: one [MPI_Isend] for each shared node and each
    rank of the node other than the rank of the process. *)
Definition nsends (mpi_rank : N) (m : Mesh) : N :=
  foldl (λ j n,
           foldl (λ j node_rank,
                    if bool_decide (node_rank ≠ mpi_rank)
                    then wrap32 (j + 1) else j)
             j (elements (n_mpi_ranks (node m n))))
    0%N (domain_shared_nodes_ m).

(** [m'] is [m] but for the ranks and ghost ids of the nodes, the
    container of the shared nodes and the two counters. *)
Definition same_but_sharing (m m' : Mesh) : Prop :=
  particles_ m' = particles_ m
  ∧ particles_cell_ids_ m' = particles_cell_ids_ m
  ∧ particle_sets_ m' = particle_sets_ m
  ∧ map_particles_ m' = map_particles_ m
  ∧ nodes_ m' = nodes_ m ∧ map_nodes_ m' = map_nodes_ m
  ∧ cells_ m' = cells_ m ∧ map_cells_ m' = map_cells_ m
  ∧ materials_ m' = materials_ m
  ∧ particle_velocity_constraints_ m' = particle_velocity_constraints_ m
  ∧ console_ m' = console_ m
  ∧ particle_heap (objects m') = particle_heap (objects m)
  ∧ cell_heap (objects m') = cell_heap (objects m)
  ∧ ∀ q, n_id (node m' q) = n_id (node m q)
         ∧ n_mass (node m' q) = n_mass (node m q).

(** What the process with the mesh [m] puts into the slot [g] of its
    buffer: the property of its shared node with that ghost id, or zero. *)
Definition contribution {T} (zero : T) (getter : Node → T) (m : Mesh)
    (g : nat) : T :=
  default zero
    (head ((λ n, getter (node m n))
             <$> filter (λ n, slot m n = g) (domain_shared_nodes_ m))).

(** ** Neighbours of the cells: [compute_cell_neighbours] *)

(** [std::set<mpm::Index>::insert], on the list of the elements of the set
    in ascending order. *)
Fixpoint set_insert (x : Index) (l : list Index) : list Index :=
  match l with
  | [] => [x]
  | y :: l' =>
      if (x <? y)%N then x :: l
      else if (x =? y)%N then l
      else y :: set_insert x l'
  end.

(** Modelled from the spec: [Cell::nodes_id] and [Cell::add_neighbour]
    live in [cell.h], which is not part of the sources.  Section 3: a cell
    has the ids of its nodes and a set of neighbour cell ids; the list of
    the neighbours is that set in ascending order. *)
Definition nodes_id (s : Store) (c : ptr) : list Index :=
  foldr set_insert []
    ((λ n, n_id (node_heap s !!! n)) <$> c_nodes (cell_heap s !!! c)).

Definition add_neighbour (c : ptr) (neighbour_id : Index) (s : Store)
  : Store :=
  let x := cell_heap s !!! c in
  set_cell_heap
    (<[c := {| c_id := c_id x; c_nodes := c_nodes x; c_rank := c_rank x;
               c_neighbours := set_insert neighbour_id (c_neighbours x);
               c_particles := c_particles x |}]> (cell_heap s)) s.

(** The first loop: the ids of the cells around each node id. *)
Definition node_cell_map (m : Mesh) : gmap N (list Index) :=
  foldl (λ acc c,
           let cell_id := c_id (cell m c) in
           foldl (λ acc id,
                    <[id := set_insert cell_id (default [] (acc !! id))]> acc)
             acc (nodes_id (objects m) c))
    ∅ (cells_ m).

(** The body of the second loop, for the cell [c]: over the ids of its
    nodes, and over the cells around each. *)
Definition add_cell_neighbours (node_cell_map : gmap N (list Index))
    (c : ptr) (s : Store) : Store :=
  foldl (λ s id,
           let cell_id := c_id (cell_heap s !!! c) in
           foldl (λ s neighbour_id,
                    if bool_decide (neighbour_id ≠ cell_id)
                    then add_neighbour c neighbour_id s else s)
             s (default [] (node_cell_map !! id)))
    s (nodes_id s c).

Definition compute_cell_neighbours (m : Mesh) : Mesh :=
  let node_cell_map := node_cell_map m in
  set_objects
    (parallel_for 0 (length (cells_ m))
       (λ i s, match cells_ m !! i with
               | Some c => add_cell_neighbours node_cell_map c s
               | None => s
               end) (objects m)) m.

(** The cells [c] and [c'] have a node id in common. *)
Definition share_node (m : Mesh) (c c' : ptr) : Prop :=
  ∃ n n', n ∈ c_nodes (cell m c) ∧ n' ∈ c_nodes (cell m c')
          ∧ n_id (node m n) = n_id (node m n').

(** [neighbours_grown c X s s']: from [s] to [s'] the cell [c] gained the
    neighbours [X], and nothing else changed. *)
Definition neighbours_grown (c : ptr) (X : Index → Prop) (s s' : Store)
  : Prop :=
  node_heap s' = node_heap s ∧ particle_heap s' = particle_heap s
  ∧ (∀ c', c' ≠ c → cell_heap s' !!! c' = cell_heap s !!! c')
  ∧ c_id (cell_heap s' !!! c) = c_id (cell_heap s !!! c)
  ∧ c_nodes (cell_heap s' !!! c) = c_nodes (cell_heap s !!! c)
  ∧ c_rank (cell_heap s' !!! c) = c_rank (cell_heap s !!! c)
  ∧ c_particles (cell_heap s' !!! c) = c_particles (cell_heap s !!! c)
  ∧ ∀ d, d ∈ c_neighbours (cell_heap s' !!! c)
         ↔ d ∈ c_neighbours (cell_heap s !!! c) ∨ X d.

(** The ids that [compute_cell_neighbours] gives the cell [c] as
    neighbours: the ids, other than its own, of the cells of the mesh that
    have a node id in common with it. *)
Definition adjacent (m : Mesh) (c : ptr) (d : Index) : Prop :=
  d ≠ c_id (cell m c)
  ∧ ∃ c', c' ∈ cells_ m ∧ c_id (cell m c') = d ∧ share_node m c c'.

(** ** Removal of the particles of other ranks *)

(** The ids of the particles that the cells of other ranks list, cell by
    cell in the order of the container. *)
Definition nonrank_particle_ids (mpi_rank : N) (m : Mesh) (cells : list ptr)
  : list Index :=
  concat ((λ c, c_particles (cell m c))
            <$> filter (λ c, c_rank (cell m c) ≠ mpi_rank) cells).

(** Where [remove_all_nonrank_particles] stands after the cells [pre],
    before the cells [rest]: the particles that the cells of other ranks
    among [pre] listed are gone from the id map [mp], these cells list
    nothing, the cells of other ranks among [rest] list what they listed, and
    so does every cell whose list has none of the ids to remove. *)
Definition nonrank_progress (mpi_rank : N) (m : Mesh) (pre rest : list ptr)
    (mp : gmap N positive) (m1 : Mesh) : Prop :=
  dropped mp m m1
  ∧ (∀ i, mp !! i = if decide (i ∈ nonrank_particle_ids mpi_rank m pre)
                    then None else map_particles_ m !! i)
  ∧ (∀ c, c ∈ rest → c_rank (cell m c) ≠ mpi_rank →
          c_particles (cell m1 c) = c_particles (cell m c))
  ∧ (∀ c, c ∈ pre → c_rank (cell m c) ≠ mpi_rank →
          c_particles (cell m1 c) = [])
  ∧ (∀ c, (∀ id, id ∈ nonrank_particle_ids mpi_rank m (pre ++ rest) →
                 id ∉ c_particles (cell m c)) →
          c_particles (cell m1 c) = c_particles (cell m c)).

(** ** Ghost cells: [find_ghost_boundary_cells] *)

(** The members of the mesh that [find_ghost_boundary_cells] writes:
    [Container<Cell<Tdim>> ghost_cells_], [local_ghost_cells_] and
    [std::map<unsigned, std::vector<unsigned>> ghost_cells_neighbour_ranks_]. *)
Record Ghosts := {
  ghost_cells_ : list ptr;
  local_ghost_cells_ : list ptr;
  ghost_cells_neighbour_ranks_ : gmap N (list N) }.

Definition set_ghost_cells_ (v : list ptr) (g : Ghosts) : Ghosts :=
  {| ghost_cells_ := v; local_ghost_cells_ := local_ghost_cells_ g;
     ghost_cells_neighbour_ranks_ := ghost_cells_neighbour_ranks_ g |}.

Definition cell_id (m : Mesh) (c : ptr) : Index := c_id (cell m c).

(** The loop over the neighbours of one cell of the rank.  [ghost_cells] is
    the member, [neighbour_ranks] the [std::set<unsigned>] of the cell.
    [map_cells_[neighbour]] is [Map.at_]; nothing catches what it throws. *)
Fixpoint ghost_neighbours (mpi_rank : N) (m : Mesh) (neighbours : list Index)
    (ghost_cells : list ptr) (neighbour_ranks : list N)
    : Res unit * (list ptr * list N) :=
  match neighbours with
  | [] => (Ok tt, (ghost_cells, neighbour_ranks))
  | neighbour :: neighbours' =>
      match (Map.at_ (map_cells_ m) neighbour m).1 with
      | Ok d =>
          if bool_decide (c_rank (cell m d) ≠ mpi_rank) then
            ghost_neighbours mpi_rank m neighbours'
              (Container.add (cell_id m) ghost_cells d true).2
              (set_insert (c_rank (cell m d)) neighbour_ranks)
          else ghost_neighbours mpi_rank m neighbours' ghost_cells
                 neighbour_ranks
      | Throw what => (Throw what, (ghost_cells, neighbour_ranks))
      | Undefined => (Undefined, (ghost_cells, neighbour_ranks))
      end
  end.

(** The loop over the cells. *)
Fixpoint ghost_cells_loop (mpi_rank : N) (m : Mesh) (cells : list ptr)
    (g : Ghosts) : Res unit * Ghosts :=
  match cells with
  | [] => (Ok tt, g)
  | c :: cells' =>
      let '(r, (ghost_cells, neighbour_ranks)) :=
        if bool_decide (c_rank (cell m c) = mpi_rank)
        then ghost_neighbours mpi_rank m (c_neighbours (cell m c))
               (ghost_cells_ g) []
        else (Ok tt, (ghost_cells_ g, [])) in
      match r with
      | Ok _ =>
          ghost_cells_loop mpi_rank m cells'
            (if bool_decide (0 < length neighbour_ranks)%nat then
               {| ghost_cells_ := ghost_cells;
                  local_ghost_cells_ :=
                    (Container.add (cell_id m) (local_ghost_cells_ g) c
                       true).2;
                  ghost_cells_neighbour_ranks_ :=
                    <[ wrap32 (c_id (cell m c)) := neighbour_ranks ]>
                      (ghost_cells_neighbour_ranks_ g) |}
             else set_ghost_cells_ ghost_cells g)
      | _ => (r, set_ghost_cells_ ghost_cells g)
      end
  end.

(** [USE_MPI] is the build option; [mpi_size] and [mpi_rank] are what
    [MPI_Comm_size] and [MPI_Comm_rank] give. *)
Definition find_ghost_boundary_cells (USE_MPI : bool) (mpi_size mpi_rank : N)
    (m : Mesh) (g : Ghosts) : Res unit * Ghosts :=
  if USE_MPI && bool_decide (1 < mpi_size)%N then
    ghost_cells_loop mpi_rank m (cells_ m)
      {| ghost_cells_ := []; local_ghost_cells_ := [];
         ghost_cells_neighbour_ranks_ := ∅ |}
  else (Ok tt, g).

(** [ghost_neighbour mpi_rank m c d]: [c] is a cell of the rank, and [d],
    a cell of another rank, is the cell of one of its neighbour ids. *)
Definition ghost_neighbour (mpi_rank : N) (m : Mesh) (c d : ptr) : Prop :=
  c_rank (cell m c) = mpi_rank ∧ c_rank (cell m d) ≠ mpi_rank
  ∧ ∃ i, i ∈ c_neighbours (cell m c) ∧ map_cells_ m !! i = Some d.

(** The neighbour ids of the cells of the rank are ids of the cell map. *)
Definition neighbours_resolve (mpi_rank : N) (m : Mesh) : Prop :=
  ∀ c i, c ∈ cells_ m → c_rank (cell m c) = mpi_rank →
         i ∈ c_neighbours (cell m c) → is_Some (map_cells_ m !! i).

(** The cell map keeps every cell under its own id. *)
Definition cells_keyed_by_id (m : Mesh) : Prop :=
  ∀ i d, map_cells_ m !! i = Some d → c_id (cell m d) = i.

(** A list in strictly ascending order. *)
Fixpoint ascending (l : list N) : Prop :=
  match l with
  | [] => True
  | x :: l' => (∀ y, y ∈ l' → (x < y)%N) ∧ ascending l'
  end.

(** The line of four cells with its cell map filled: the cell with the id
    [k] is behind the pointer [k + 1]. *)
Definition mapped_mesh : Mesh :=
  set_map_cells_
    (list_to_map [(0%N, 1%positive); (1%N, 2%positive); (2%N, 3%positive);
                  (3%N, 4%positive)])
    (decomposed_mesh (λ _, 0%Z)).

(** That mesh with its neighbours computed. *)
Definition ghost_mesh : Mesh := compute_cell_neighbours mapped_mesh.

(** Where the loop of [find_ghost_boundary_cells] stands after the cells
    [pre]. *)
Definition ghost_progress (mpi_rank : N) (m : Mesh) (pre : list ptr)
    (g : Ghosts) : Prop :=
  (∀ d, d ∈ ghost_cells_ g ↔ ∃ c, c ∈ pre ∧ ghost_neighbour mpi_rank m c d)
  ∧ (∀ d, d ∈ ghost_cells_ g → map_cells_ m !! c_id (cell m d) = Some d)
  ∧ NoDup (ghost_cells_ g)
  ∧ (∀ c, c ∈ local_ghost_cells_ g
          ↔ c ∈ pre ∧ ∃ d, ghost_neighbour mpi_rank m c d)
  ∧ NoDup (local_ghost_cells_ g)
  ∧ (∀ c, c ∈ pre → (∃ d, ghost_neighbour mpi_rank m c d) →
          ∃ l, ghost_cells_neighbour_ranks_ g !! wrap32 (c_id (cell m c))
               = Some l
               ∧ ascending l
               ∧ ∀ k, k ∈ l ↔ ∃ d, ghost_neighbour mpi_rank m c d
                                   ∧ c_rank (cell m d) = k)
  ∧ (∀ k, is_Some (ghost_cells_neighbour_ranks_ g !! k) →
          ∃ c d, c ∈ pre ∧ k = wrap32 (c_id (cell m c))
                 ∧ ghost_neighbour mpi_rank m c d).

(** ** Iteration over nodes: [iterate_over_nodes_predicate],
    [find_active_nodes], [iterate_over_active_nodes] *)

(** [pred] reads the node it is given at the time of its turn. *)
Definition iterate_over_nodes_predicate (oper : Toper)
    (pred : ptr → Store → bool) : M unit :=
  modify (λ m, set_objects
    (parallel_for 0 (length (nodes_ m))
       (λ i s, match nodes_ m !! i with
               | Some n => if pred n s then oper n s else s
               | None => s
               end) (objects m)) m).

Section ActiveNodes.
(** [NodeBase::status()] lives in [node_base.h], which is not part of the
    sources: it is a parameter. *)
Context (status : Node → bool).

(** The member [active_nodes_] after [find_active_nodes], which clears it
    first.  [active_nodes_.add(nitr)] is [Container::add] with one
    argument. *)
Definition find_active_nodes (m : Mesh) : list ptr :=
  foldl (λ active_nodes_ n,
           if status (node m n)
           then (Container.add (λ q, n_id (node m q)) active_nodes_ n
                   default_check_duplicates).2
           else active_nodes_)
    [] (nodes_ m).

(** [active_nodes_] is the member. *)
Definition iterate_over_active_nodes (active_nodes_ : list ptr)
    (oper : Toper) : M unit :=
  modify (λ m, set_objects
    (parallel_for 0 (length active_nodes_)
       (λ i s, match active_nodes_ !! i with
               | Some n => oper n s
               | None => s
               end) (objects m)) m).
End ActiveNodes.

(** A node is active when it has mass: a status for the examples. *)
Definition has_mass (x : Node) : bool := bool_decide (n_mass x ≠ 0%Z).

(** The first two nodes and the first cell of the decomposed line, each
    container with its id map. *)
Definition half_mesh : Mesh :=
  set_nodes_ [1; 2]%positive
    (set_map_nodes_ (list_to_map [(0%N, 1%positive); (1%N, 2%positive)])
       (set_cells_ [1%positive]
          (set_map_cells_ {[ 0%N := 1%positive ]}
             (set_objects (decomposed_store (λ _, 0%Z)) empty_mesh)))).

(** * Properties *)

Set Warnings "-clear-no-such-hyp".

(** ** Reasoning about the monad *)

Ltac munfold :=
  unfold bind, ret, throw, undefined, get, modify, try_catch, console_error in *.

Lemma bind_run {A B} (c : M A) (k : A → M B) m a m' :
  c m = (Ok a, m') → bind c k m = k a m'.
Proof. unfold bind. by intros ->. Qed.

Lemma bind_assoc {A B C} (c : M A) (k1 : A → M B) (k2 : B → M C) m :
  bind (bind c k1) k2 m = bind c (λ a, bind (k1 a) k2) m.
Proof. unfold bind. by destruct (c m) as [[a|what|] m1]. Qed.

Lemma bind_get {B} (k : Mesh → M B) m : bind get k m = k m m.
Proof. done. Qed.

Lemma bind_ret {A B} (a : A) (k : A → M B) m : bind (ret a) k m = k a m.
Proof. done. Qed.

Lemma preserves_ret {A B} (f : Mesh → A) (b : B) : preserves f (ret b).
Proof. by intros m. Qed.

Lemma preserves_throw {A B} (f : Mesh → A) what :
  preserves f (throw what : M B).
Proof. by intros m. Qed.

Lemma preserves_get {A} (f : Mesh → A) : preserves f get.
Proof. by intros m. Qed.

Lemma preserves_modify {A} (f : Mesh → A) (g : Mesh → Mesh) :
  (∀ m, f (g m) = f m) → preserves f (modify g).
Proof. intros Hg m. apply Hg. Qed.

Lemma preserves_bind {A B C} (f : Mesh → A) (c : M B) (k : B → M C) :
  preserves f c → (∀ b, preserves f (k b)) → preserves f (bind c k).
Proof.
  intros Hc Hk m. unfold bind. specialize (Hc m).
  destruct (c m) as [[b|what|] m1]; simpl in *; try done.
  by rewrite Hk.
Qed.

Lemma preserves_for_each {A B} (f : Mesh → A) (l : list B) body :
  (∀ x, preserves f (body x)) → preserves f (for_each l body).
Proof.
  intros Hbody. induction l as [|x l IH]; simpl.
  - apply preserves_ret.
  - apply preserves_bind; [apply Hbody | intros _; apply IH].
Qed.

Lemma preserves_if {A B} (f : Mesh → A) (b : bool) (c1 c2 : M B) :
  preserves f c1 → preserves f c2 → preserves f (if b then c1 else c2).
Proof. by destruct b. Qed.

(** The loop of [parallel_for] over the indices of a list visits the
    elements of the list, one after the other. *)
Lemma foldl_seq_lookup {A St} (f : A → St → St) (pre l : list A) (s : St) :
  foldl (λ s i, match (pre ++ l) !! i with Some x => f x s | None => s end)
    s (seq (length pre) (length l))
  = foldl (λ s x, f x s) s l.
Proof.
  revert pre s. induction l as [|x l IH]; intros pre s; simpl; [done|].
  rewrite lookup_app_r by lia. rewrite Nat.sub_diag. simpl.
  specialize (IH (pre ++ [x]) (f x s)).
  rewrite length_app in IH. simpl in IH.
  replace (length pre + 1)%nat with (S (length pre)) in IH by lia.
  rewrite <- (assoc_L (++)) in IH. simpl in IH. exact IH.
Qed.

Lemma parallel_for_elements (oper : Toper) (l : list ptr) (s : Store) :
  parallel_for 0 (length l)
    (λ i s, match l !! i with Some p => oper p s | None => s end) s
  = foldl (λ s p, oper p s) s l.
Proof.
  unfold parallel_for. rewrite Nat.sub_0_r.
  exact (foldl_seq_lookup (λ p s, oper p s) [] l s).
Qed.

(** ** Set resolution *)


(** ** Velocity constraints *)

(** C9. A velocity constraint whose direction is not below [Tdim] is
    refused and the list of constraints stays as it is; one whose
    direction is below [Tdim], for the set id -1 or the id of a particle
    set, is accepted and appended. *)
Theorem create_particle_velocity_constraint_direction
    (Tdim : N) (set_id : Z) (constraint : VelocityConstraint) (m : Mesh) :
  let r := create_particle_velocity_constraint Tdim set_id constraint m in
  ((Tdim ≤ vc_dir constraint)%N →
     r.1 = Ok false
     ∧ particle_velocity_constraints_ r.2 = particle_velocity_constraints_ m)
  ∧ ((vc_dir constraint < Tdim)%N →
     set_id = (-1)%Z ∨ is_Some (particle_sets_ m !! to_unsigned set_id) →
     r.1 = Ok true
     ∧ particle_velocity_constraints_ r.2
       = particle_velocity_constraints_ m ++ [constraint]).
Proof.
  simpl. unfold create_particle_velocity_constraint. munfold. split.
  - intros Hdir.
    assert ((vc_dir constraint <? Tdim)%N = false) as ->
      by (apply N.ltb_ge; lia).
    by destruct (_ || _).
  - intros Hdir Hset.
    assert ((vc_dir constraint <? Tdim)%N = true) as ->
      by (apply N.ltb_lt; lia).
    assert (bool_decide (set_id = (-1)%Z)
            || bool_decide (is_Some (particle_sets_ m !! to_unsigned set_id))
            = true) as ->.
    { destruct Hset as [->|Hin]; [done|].
      rewrite (bool_decide_eq_true_2 _ Hin). apply orb_true_r. }
    done.
Qed.

(** ** Operations on the objects leave the containers alone *)

Lemma stable_refl s : stable s s.
Proof. by repeat split. Qed.

Lemma stable_trans s1 s2 s3 : stable s1 s2 → stable s2 s3 → stable s1 s3.
Proof.
  intros (Hp & Hc & Hn) (Hp' & Hc' & Hn'). split_and!.
  - intros q. destruct (Hp q) as [<- <-]. apply Hp'.
  - intros c. destruct (Hc c) as (<- & <- & <- & <-). apply Hc'.
  - congruence.
Qed.

Lemma set_objects_id m : set_objects (objects m) m = m.
Proof. by destruct m. Qed.

Lemma frame_refl m : frame m m.
Proof.
  exists (objects m). split; [by rewrite set_objects_id|apply stable_refl].
Qed.

Lemma frame_trans m1 m2 m3 : frame m1 m2 → frame m2 m3 → frame m1 m3.
Proof.
  intros (s & -> & Hs) (s' & -> & Hs'). exists s'. split; [done|].
  by eapply stable_trans.
Qed.

Lemma objects_only_object_op c : objects_only c → object_op c.
Proof. intros Hc m. by destruct (Hc m) as (m' & -> & Hf). Qed.

Lemma object_op_ret {A} (a : A) : object_op (ret a).
Proof. intros m. split; [done|apply frame_refl]. Qed.

Lemma object_op_throw {A} what : object_op (throw what : M A).
Proof. intros m. split; [done|apply frame_refl]. Qed.

Lemma object_op_bind {A B} (c : M A) (k : A → M B) :
  object_op c → (∀ a, object_op (k a)) → object_op (bind c k).
Proof.
  intros Hc Hk m. unfold bind. destruct (Hc m) as [Hub Hf].
  destruct (c m) as [[a|what|] m1]; simpl in *; [|done..].
  destruct (Hk a m1) as [Hub' Hf']. split; [done|]. by eapply frame_trans.
Qed.

Lemma object_op_get_bind {B} (k : Mesh → M B) :
  (∀ a, object_op (k a)) → object_op (bind get k).
Proof. intros Hk m. apply (Hk m). Qed.

Lemma object_op_at mp i : object_op (Map.at_ mp i).
Proof.
  unfold Map.at_.
  destruct (mp !! i); [apply object_op_ret|apply object_op_throw].
Qed.

Lemma object_op_if {A} (b : bool) (c1 c2 : M A) :
  object_op c1 → object_op c2 → object_op (if b then c1 else c2).
Proof. by destruct b. Qed.

Lemma object_op_preserves {A B} (f : Mesh → A) (c : M B) :
  (∀ s m, f (set_objects s m) = f m) → object_op c → preserves f c.
Proof. intros Hf Hc m. destruct (Hc m) as (_ & s & -> & _). apply Hf. Qed.

Lemma objects_only_ret : objects_only (ret tt).
Proof. intros m. exists m. split; [done|apply frame_refl]. Qed.

Lemma objects_only_seq (c : M unit) (k : unit → M unit) :
  objects_only c → (∀ a, objects_only (k a)) → objects_only (bind c k).
Proof.
  intros Hc Hk m. unfold bind. destruct (Hc m) as (m1 & -> & Hf).
  destruct (Hk tt m1) as (m2 & -> & Hf').
  exists m2. split; [done|]. by eapply frame_trans.
Qed.

Lemma objects_only_get_bind (k : Mesh → M unit) :
  (∀ a, objects_only (k a)) → objects_only (bind get k).
Proof. intros Hk m. apply (Hk m). Qed.

Lemma update_particle_objects_only p f :
  (∀ x, p_id (f x) = p_id x ∧ p_coordinates (f x) = p_coordinates x) →
  objects_only (update_particle p f).
Proof.
  intros Hf m. eexists. split; [done|]. eexists. split; [done|].
  split_and!; simpl; [|done..].
  intros q. destruct (decide (q = p)) as [->|Hne].
  - rewrite lookup_total_insert_eq. apply Hf.
  - by rewrite lookup_total_insert_ne.
Qed.

Lemma update_cell_objects_only c f :
  (∀ x, c_id (f x) = c_id x ∧ c_nodes (f x) = c_nodes x
        ∧ c_rank (f x) = c_rank x ∧ c_neighbours (f x) = c_neighbours x) →
  objects_only (update_cell c f).
Proof.
  intros Hf m. eexists. split; [done|]. eexists. split; [done|].
  split_and!; simpl; [done| |done].
  intros q. destruct (decide (q = c)) as [->|Hne].
  - rewrite lookup_total_insert_eq. apply Hf.
  - by rewrite lookup_total_insert_ne.
Qed.

Lemma with_particles_objects_only c f :
  objects_only (update_cell c (CellBase.with_particles f)).
Proof. by apply update_cell_objects_only. Qed.

Lemma leave_cell_objects_only p : objects_only (ParticleBase.leave_cell p).
Proof.
  apply objects_only_get_bind. intros m.
  destruct (p_cell (particle m p)).
  - apply with_particles_objects_only.
  - apply objects_only_ret.
Qed.

Lemma remove_cell_objects_only p : objects_only (ParticleBase.remove_cell p).
Proof.
  apply objects_only_seq; [apply leave_cell_objects_only|].
  intros _. by apply update_particle_objects_only.
Qed.

Lemma assign_cell_objects_only p c : objects_only (ParticleBase.assign_cell p c).
Proof.
  apply objects_only_seq; [apply leave_cell_objects_only|]. intros _.
  apply objects_only_get_bind. intros m.
  apply objects_only_seq; [by apply update_particle_objects_only|]. intros _.
  apply with_particles_objects_only.
Qed.

Lemma assign_cell_xi_objects_only p c xi :
  objects_only (ParticleBase.assign_cell_xi p c xi).
Proof.
  apply objects_only_seq; [apply leave_cell_objects_only|]. intros _.
  apply objects_only_get_bind. intros m.
  apply objects_only_seq; [by apply update_particle_objects_only|]. intros _.
  apply with_particles_objects_only.
Qed.

Lemma clear_particle_ids_objects_only c :
  objects_only (CellBase.clear_particle_ids c).
Proof. apply with_particles_objects_only. Qed.

Lemma objects_only_preserves {A} (f : Mesh → A) (c : M unit) :
  (∀ s m, f (set_objects s m) = f m) → objects_only c → preserves f c.
Proof. intros Hf Hc. by apply object_op_preserves, objects_only_object_op. Qed.

Lemma preserves_at {A} (f : Mesh → A) mp i : preserves f (Map.at_ mp i).
Proof. unfold Map.at_. destruct (mp !! i); [apply preserves_ret|apply preserves_throw]. Qed.

(** ** The map of cell ids under removal *)

Lemma drop_particle_id_cell_ids id :
  preserves particles_cell_ids_ (drop_particle_id id).
Proof.
  unfold drop_particle_id.
  apply preserves_bind; [apply preserves_get|]. intros m.
  apply preserves_bind; [apply preserves_at|]. intros q.
  apply preserves_bind.
  - apply objects_only_preserves; [done|apply remove_cell_objects_only].
  - intros _. by apply preserves_modify.
Qed.

Lemma rebuild_particles_cell_ids : preserves particles_cell_ids_ rebuild_particles.
Proof. by apply preserves_modify. Qed.

Lemma remove_particle_cell_ids p : preserves particles_cell_ids_ (remove_particle p).
Proof.
  unfold remove_particle.
  apply preserves_bind; [apply preserves_get|]. intros m.
  apply preserves_bind; [apply preserves_at|]. intros q.
  apply preserves_bind.
  { apply objects_only_preserves; [done|apply remove_cell_objects_only]. }
  intros _. apply preserves_bind; [apply preserves_get|]. intros m1.
  destruct (Container.remove _ _) as [removed c'].
  apply preserves_bind; [by apply preserves_modify|]. intros _.
  destruct removed; [|apply preserves_ret].
  destruct (Map.remove _ _) as [erased mp'].
  apply preserves_bind; [by apply preserves_modify|]. intros _.
  apply preserves_ret.
Qed.

Lemma remove_particle_by_id_cell_ids id :
  preserves particles_cell_ids_ (remove_particle_by_id id).
Proof.
  unfold remove_particle_by_id.
  apply preserves_bind; [apply preserves_get|]. intros m.
  apply preserves_bind; [apply preserves_at|]. intros q.
  apply preserves_bind.
  { apply objects_only_preserves; [done|apply remove_cell_objects_only]. }
  intros _. apply preserves_bind; [apply preserves_get|]. intros m1.
  apply preserves_bind; [apply preserves_at|]. intros q1.
  destruct (Container.remove _ _) as [removed c'].
  apply preserves_bind; [by apply preserves_modify|]. intros _.
  destruct removed; [|apply preserves_ret].
  destruct (Map.remove _ _) as [erased mp'].
  apply preserves_bind; [by apply preserves_modify|]. intros _.
  apply preserves_ret.
Qed.

Lemma remove_particles_cell_ids pids :
  preserves particles_cell_ids_ (remove_particles pids).
Proof.
  unfold remove_particles. destruct pids as [|id pids]; [apply preserves_ret|].
  apply preserves_bind; [|intros _; apply rebuild_particles_cell_ids].
  apply preserves_for_each. apply drop_particle_id_cell_ids.
Qed.

Lemma remove_all_nonrank_particles_cell_ids mpi_rank :
  preserves particles_cell_ids_ (remove_all_nonrank_particles mpi_rank).
Proof.
  unfold remove_all_nonrank_particles.
  apply preserves_bind; [apply preserves_get|]. intros m.
  apply preserves_bind; [|intros _; apply rebuild_particles_cell_ids].
  apply preserves_for_each. intros c.
  apply preserves_bind; [apply preserves_get|]. intros m1.
  apply preserves_if; [|apply preserves_ret].
  apply preserves_bind.
  - apply preserves_for_each. apply drop_particle_id_cell_ids.
  - intros _. apply objects_only_preserves;
      [done|apply clear_particle_ids_objects_only].
Qed.

Lemma not_elem_of_filter_ne (p : positive) (l : list positive) :
  p ∉ filter (λ q, q ≠ p) l.
Proof. rewrite list_elem_of_filter. tauto. Qed.

(** What a successful [remove_particle] leaves. *)
Lemma remove_particle_gone p m :
  (remove_particle p m).1 = Ok true →
  (p ∉ particles_ ((remove_particle p m).2))
  ∧ map_particles_ (remove_particle p m).2 !! p_id (particle m p) = None.
Proof.
  unfold remove_particle. cbn -[ParticleBase.remove_cell].
  unfold Map.at_.
  destruct (map_particles_ m !! p_id (particle m p)) as [q|] eqn:Hq;
    [|by unfold throw].
  cbn -[ParticleBase.remove_cell].
  destruct (remove_cell_objects_only q m) as (m1 & Hs & s & -> & _).
  rewrite !(bind_run _ _ _ _ _ Hs). cbn.
  unfold Container.remove. case_bool_decide as Hin; cbn; [|done].
  unfold Map.remove. rewrite Hq. cbn. intros _. split.
  - apply not_elem_of_filter_ne.
  - apply lookup_delete_eq.
Qed.

(** C10. No removal of particles touches the map of particle ids to cell
    ids: it is the same after [remove_particle], [remove_particle_by_id],
    [remove_particles] and [remove_all_nonrank_particles] as before, so the
    entry of a particle that [remove_particle] took out of the container
    and of the id map is still there. *)
Theorem removals_keep_particles_cell_ids (m : Mesh) :
  (∀ p, particles_cell_ids (remove_particle p m).2 = particles_cell_ids m)
  ∧ (∀ id, particles_cell_ids (remove_particle_by_id id m).2
           = particles_cell_ids m)
  ∧ (∀ pids, particles_cell_ids (remove_particles pids m).2
             = particles_cell_ids m)
  ∧ (∀ mpi_rank, particles_cell_ids (remove_all_nonrank_particles mpi_rank m).2
                 = particles_cell_ids m)
  ∧ (∀ p, (remove_particle p m).1 = Ok true →
          (p ∉ particles_ ((remove_particle p m).2))
          ∧ map_particles_ (remove_particle p m).2 !! p_id (particle m p) = None
          ∧ particles_cell_ids (remove_particle p m).2 !! p_id (particle m p)
            = particles_cell_ids m !! p_id (particle m p)).
Proof.
  unfold particles_cell_ids. split_and!.
  - intros p. apply remove_particle_cell_ids.
  - intros id. apply remove_particle_by_id_cell_ids.
  - intros pids. apply remove_particles_cell_ids.
  - intros r. apply remove_all_nonrank_particles_cell_ids.
  - intros p Hok. destruct (remove_particle_gone p m Hok) as [Hc Hm].
    split_and!; [done..|]. by rewrite remove_particle_cell_ids.
Qed.

(** ** Particle localisation *)

Lemma frame_cells m m' : frame m m' → cells_ m' = cells_ m.
Proof. by intros (s & -> & _). Qed.

Lemma frame_map_cells m m' : frame m m' → map_cells_ m' = map_cells_ m.
Proof. by intros (s & -> & _). Qed.

Lemma frame_coordinates m m' q :
  frame m m' → p_coordinates (particle m' q) = p_coordinates (particle m q).
Proof. intros (s & -> & Hp & _). apply Hp. Qed.

Lemma frame_p_id m m' q : frame m m' → p_id (particle m' q) = p_id (particle m q).
Proof. intros (s & -> & Hp & _). apply Hp. Qed.

Lemma frame_c_id m m' c : frame m m' → c_id (cell m' c) = c_id (cell m c).
Proof. intros (s & -> & _ & Hc & _). apply Hc. Qed.

Lemma frame_neighbours m m' c :
  frame m m' → c_neighbours (cell m' c) = c_neighbours (cell m c).
Proof. intros (s & -> & _ & Hc & _). apply Hc. Qed.

Lemma objects_only_frame c m :
  objects_only c → ∃ m', c m = (Ok tt, m') ∧ frame m m'.
Proof. intros Hc. apply Hc. Qed.

Lemma leave_cell_particles p m :
  ∃ m', ParticleBase.leave_cell p m = (Ok tt, m') ∧ frame m m'
        ∧ ∀ q, particle m' q = particle m q.
Proof.
  destruct (objects_only_frame _ m (leave_cell_objects_only p)) as (m' & Hrun & Hf).
  exists m'. split_and!; [done..|].
  revert Hrun. unfold ParticleBase.leave_cell. cbn.
  destruct (p_cell (particle m p)); cbn; by intros [= <-].
Qed.

Lemma assign_cell_xi_spec p c xi m :
  ∃ m', ParticleBase.assign_cell_xi p c xi m = (Ok tt, m') ∧ frame m m'
        ∧ p_cell (particle m' p) = Some c.
Proof.
  destruct (objects_only_frame _ m (assign_cell_xi_objects_only p c xi))
    as (m' & Hrun & Hf).
  exists m'. split_and!; [done..|].
  revert Hrun. unfold ParticleBase.assign_cell_xi.
  destruct (leave_cell_particles p m) as (m1 & Hl & _ & _).
  rewrite (bind_run _ _ _ _ _ Hl). cbn. intros [= <-].
  unfold particle. cbn. by rewrite lookup_total_insert_eq.
Qed.

Lemma assign_cell_spec p c m :
  ∃ m', ParticleBase.assign_cell p c m = (Ok tt, m') ∧ frame m m'
        ∧ p_cell (particle m' p) = Some c
        ∧ p_cell_id (particle m' p) = c_id (cell m c).
Proof.
  destruct (objects_only_frame _ m (assign_cell_objects_only p c))
    as (m' & Hrun & Hf).
  exists m'. split_and!; [done..| |]; revert Hrun;
    unfold ParticleBase.assign_cell;
    destruct (leave_cell_particles p m) as (m1 & Hl & Hf1 & _);
    rewrite (bind_run _ _ _ _ _ Hl); cbn; intros [= <-];
    unfold particle; cbn; rewrite lookup_total_insert_eq; [done|].
  cbn. apply (frame_c_id _ _ _ Hf1).
Qed.

Section LocalisationProofs.
Context `{Element}.

Lemma compute_reference_location_spec p m :
  ∃ b m', ParticleBase.compute_reference_location p m = (Ok b, m')
          ∧ frame m m'
          ∧ p_cell (particle m' p) = p_cell (particle m p)
          ∧ p_cell_id (particle m' p) = p_cell_id (particle m p)
          ∧ (b = true ↔ ∃ c, p_cell (particle m p) = Some c
                             ∧ contains c (p_coordinates (particle m p))).
Proof.
  unfold ParticleBase.compute_reference_location, contains. cbn.
  destruct (p_cell (particle m p)) as [c|] eqn:Hc; cbn.
  - destruct (is_point_in_cell c _) as [xi|] eqn:Hin; cbn.
    + eexists true, _. split_and!; [done| | | |].
      * destruct (update_particle_objects_only p (ParticleBase.with_xi xi)
                    ltac:(done) m) as (m' & [= <-] & Hf).
        exact Hf.
      * unfold particle. cbn. rewrite lookup_total_insert_eq. cbn. exact Hc.
      * unfold particle. cbn. by rewrite lookup_total_insert_eq.
      * split; [|done]. intros _. exists c. by rewrite Hin.
    + exists false, m. split_and!; [done|apply frame_refl|done..|].
      split; [done|]. intros (c' & [= <-] & Hsome).
      rewrite Hin in Hsome. by destruct Hsome.
  - exists false, m. split_and!; [done|apply frame_refl|done..|].
    split; [done|]. by intros (c' & ? & _).
Qed.

Lemma locate_in_neighbours_spec p x neighbours m :
  (∀ n, n ∈ neighbours → is_Some (map_cells_ m !! n)) →
  ∃ b m', locate_in_neighbours p x neighbours m = (Ok b, m')
          ∧ frame m m'
          ∧ (b = true → ∃ n c, n ∈ neighbours ∧ map_cells_ m !! n = Some c
                               ∧ contains c x
                               ∧ p_cell (particle m' p) = Some c).
Proof.
  induction neighbours as [|n rest IH]; intros Hmap; cbn.
  - exists false, m. split_and!; [done|apply frame_refl|done].
  - destruct (Hmap n) as [c Hc]; [apply elem_of_cons; by left|].
    unfold Map.at_. rewrite Hc. cbn.
    destruct (is_point_in_cell c x) as [xi|] eqn:Hin.
    + destruct (assign_cell_xi_spec p c xi m) as (m' & Hrun & Hf & Hcell).
      rewrite (bind_run _ _ _ _ _ Hrun). cbn.
      exists true, m'. split_and!; [done..|]. intros _.
      exists n, c. split_and!; [apply elem_of_cons; by left|done| |done].
      unfold contains. by rewrite Hin.
    + destruct IH as (b & m' & Hrun & Hf & Hb).
      { intros n' Hn'. apply Hmap, elem_of_cons. by right. }
      exists b, m'. split_and!; [done..|]. intros Hbt.
      destruct (Hb Hbt) as (n' & c' & ? & ? & ? & ?).
      exists n', c'. split_and!; [apply elem_of_cons; by right|done..].
Qed.

Lemma locate_in_cell_spec p status c m :
  ∃ b m', locate_in_cell p status c m = (Ok b, m')
          ∧ frame m m'
          ∧ (b = status → m' = m)
          ∧ (status = true → b = true)
          ∧ (status = false →
             (b = true ↔ contains c (p_coordinates (particle m p)))
             ∧ (b = true → p_cell (particle m' p) = Some c)).
Proof.
  unfold locate_in_cell, contains. cbn. destruct status; cbn.
  - exists true, m. by split_and!; [|apply frame_refl|..].
  - destruct (is_point_in_cell c (p_coordinates (particle m p)))
      as [xi|] eqn:Hin.
    + destruct (assign_cell_xi_spec p c xi m) as (m1 & Hrun & Hf & Hcell).
      rewrite (bind_run _ _ _ _ _ Hrun). cbn.
      exists true, m1. by split_and!.
    + exists false, m. split_and!; [done|apply frame_refl|done..|].
      intros _. split; [|done]. split; [done|]. by intros [? ?].
Qed.

Lemma locate_in_cells_spec p cells status m :
  ∃ b m', locate_in_cells p status cells m = (Ok b, m')
          ∧ frame m m'
          ∧ (status = true → b = true ∧ m' = m)
          ∧ (status = false →
             (b = true ↔ ∃ c, c ∈ cells
                              ∧ contains c (p_coordinates (particle m p)))
             ∧ (b = true → ∃ c, c ∈ cells
                   ∧ contains c (p_coordinates (particle m p))
                   ∧ p_cell (particle m' p) = Some c)).
Proof.
  revert status m. induction cells as [|c rest IH]; intros status m.
  - exists status, m. split_and!; [done|apply frame_refl|by intros ->|].
    intros ->. split; [|done]. split; [done|]. intros (c & Hc & _).
    by apply elem_of_nil in Hc.
  - cbn -[locate_in_cell].
    destruct (locate_in_cell_spec p status c m)
      as (b1 & m1 & Hrun1 & Hf1 & Hsame & Ht1 & Hfalse1).
    rewrite (bind_run _ _ _ _ _ Hrun1).
    destruct (IH b1 m1) as (b & m' & Hrun & Hf & Ht & Hfalse).
    exists b, m'. split_and!; [done|by eapply frame_trans| |].
    + intros ->. rewrite (Ht1 eq_refl) in *.
      destruct (Ht eq_refl) as [-> ->]. split; [done|]. by apply Hsame.
    + intros ->. destruct (Hfalse1 eq_refl) as [Hiff1 Hcell1].
      destruct b1.
      * destruct (Ht eq_refl) as [-> ->].
        assert (contains c (p_coordinates (particle m p))) by by apply Hiff1.
        split; [split; [|done]|]; intros _; exists c;
          split_and!;
          (done || (apply elem_of_cons; by left) || by apply Hcell1).
      * rewrite (Hsame eq_refl) in *.
        destruct (Hfalse eq_refl) as [Hiff Hcell]. split.
        -- rewrite Hiff. split; intros (c' & Hc' & Hin').
           ++ exists c'. split; [apply elem_of_cons; by right|done].
           ++ exists c'. split; [|done].
              apply elem_of_cons in Hc' as [->|?]; [|done].
              by apply Hiff1 in Hin'.
        -- intros Hb. destruct (Hcell Hb) as (c' & ? & ? & ?).
           exists c'. split_and!; [apply elem_of_cons; by right|done..].
Qed.

End LocalisationProofs.

Lemma line_mesh_locatable x : locatable (line_mesh x) 1%positive.
Proof.
  assert (∀ i c, map_cells_ (line_mesh x) !! i = Some c →
                 (i = 0%N ∧ c = 1%positive) ∨ (i = 1%N ∧ c = 2%positive))
    as Hmap.
  { intros i c. cbn. intros Hic.
    apply lookup_insert_Some in Hic as [[<- <-]|[_ Hic]]; [by left|].
    apply lookup_singleton_Some in Hic as [<- <-]. by right. }
  split_and!.
  - intros i c Hic.
    destruct (Hmap i c Hic) as [[-> ->]|[-> ->]]; (split; [|done]); cbn.
    + apply elem_of_cons. by left.
    + apply elem_of_cons. right. apply elem_of_cons. by left.
  - intros _. by exists 1%positive.
  - intros c. vm_compute. intros [= <-]. apply elem_of_cons. by left.
  - intros i c n Hic.
    destruct (Hmap i c Hic) as [[-> ->]|[-> ->]]; vm_compute;
      intros Hn; apply list_elem_of_singleton in Hn as ->; by eexists.
Qed.



(** ** Containers and their id maps *)

Lemma in_sync_ext (f g : positive → N) c mp :
  (∀ q, f q = g q) → in_sync f c mp → in_sync g c mp.
Proof.
  intros Hfg [Hnd Hmap]. split.
  - rewrite <- (list_fmap_ext f g c); [done|]. intros i q _. apply Hfg.
  - intros i p. rewrite Hmap, Hfg. done.
Qed.

Lemma NoDup_fmap_inj_in {A B} (f : A → B) (l : list A) x y :
  NoDup (f <$> l) → x ∈ l → y ∈ l → f x = f y → x = y.
Proof.
  induction l as [|z l IH]; cbn; [by intros _ ?%elem_of_nil|].
  rewrite NoDup_cons, !elem_of_cons. intros [Hz Hnd] [->|Hx] [->|Hy] Hxy.
  - done.
  - destruct Hz. rewrite Hxy. by apply list_elem_of_fmap_2.
  - destruct Hz. rewrite <- Hxy. by apply list_elem_of_fmap_2.
  - by apply IH.
Qed.

Lemma in_sync_list_to_map id_of c mp :
  in_sync id_of c mp → mp = list_to_map ((λ p, (id_of p, p)) <$> c).
Proof.
  intros [Hnd Hmap]. apply map_eq. intros i. apply option_eq. intros p.
  rewrite Hmap. rewrite <- elem_of_list_to_map.
  - rewrite list_elem_of_fmap. split.
    + intros [Hp <-]. by exists p.
    + intros (q & [= -> ->] & Hq). done.
  - by rewrite <- list_fmap_compose.
Qed.

Lemma in_sync_same_size_and_members id_of c mp :
  in_sync id_of c mp → same_size_and_members id_of c mp.
Proof.
  intros Hs. split.
  - rewrite (in_sync_list_to_map _ _ _ Hs) at 1.
    rewrite map_size_list_to_map, length_fmap; [done|].
    rewrite <- list_fmap_compose. apply Hs.
  - intros i. destruct Hs as [_ Hmap]. split.
    + intros [p Hp]. exists p. by apply Hmap.
    + intros (p & Hp & Hi). exists p. by apply Hmap.
Qed.

Lemma synced_consistent m : synced m → consistent m.
Proof.
  intros (Hn & Hc & Hp). split_and!; by apply in_sync_same_size_and_members.
Qed.

Lemma in_sync_add id_of c mp p :
  in_sync id_of c mp →
  let r := Container.add id_of c p true in
  (r.1 = false ↔ id_of p ∈ id_of <$> c)
  ∧ (r.1 = false → r.2 = c)
  ∧ in_sync id_of (r.2)
      (if r.1 then (Map.insert (id_of p) p mp).2 else mp)
  ∧ (Map.insert (id_of p) p mp).2 = (if r.1 then <[id_of p := p]> mp else mp).
Proof.
  intros [Hnd Hmap]. unfold Container.add, Container.has_id. cbn.
  case_bool_decide as Hin; cbn.
  - split_and!; [done|done|by split|].
    unfold Map.insert. apply list_elem_of_fmap in Hin as (q & Hq & Hqc).
    assert (mp !! id_of p = Some q) as -> by (by apply Hmap). done.
  - assert (mp !! id_of p = None) as Hnone.
    { apply eq_None_not_Some. intros [q Hq]. apply Hmap in Hq as [Hq Hid].
      apply Hin. rewrite <- Hid. by apply list_elem_of_fmap_2. }
    unfold Map.insert. rewrite Hnone. cbn. split_and!; [done|done| |done].
    split.
    + rewrite fmap_app. apply NoDup_app. split_and!; [done| |apply NoDup_singleton].
      intros i Hi Hip. apply list_elem_of_singleton in Hip as ->. done.
    + intros i q. rewrite lookup_insert_Some, elem_of_app, list_elem_of_singleton.
      rewrite Hmap. split.
      * intros [[<- <-]|[Hne [Hq Hid]]]; [by split; [right|]|by split; [left|]].
      * intros [[Hq| ->] Hid]; [|by left]. right. split_and!; [|done..].
        intros <-. apply Hin. rewrite <- Hid. by apply list_elem_of_fmap_2.
Qed.

Lemma in_sync_remove id_of c mp p :
  in_sync id_of c mp →
  let r := Container.remove c p in
  (r.1 = false ↔ p ∉ c)
  ∧ (r.1 = false → r.2 = c)
  ∧ (r.1 = true → Map.remove (id_of p) mp = (true, delete (id_of p) mp))
  ∧ in_sync id_of (r.2) (if r.1 then delete (id_of p) mp else mp).
Proof.
  intros [Hnd Hmap]. unfold Container.remove. cbn.
  case_bool_decide as Hin; cbn.
  - split_and!; [done|done| |].
    + intros _. unfold Map.remove.
      assert (mp !! id_of p = Some p) as -> by (by apply Hmap). done.
    + split.
      * apply (sublist_NoDup _ (id_of <$> c)); [exact Hnd|].
        apply fmap_sublist, sublist_filter.
      * intros i q. rewrite lookup_delete_Some, list_elem_of_filter, Hmap.
        split.
        -- intros (Hne & Hq & Hid). split_and!; [|done..]. by intros ->.
        -- intros ((Hne & Hq) & Hid). split_and!; [|done..].
           intros Hi. apply Hne.
           apply (NoDup_fmap_inj_in id_of c _ _ Hnd); [done..|congruence].
  - split_and!; [done|done|done|by split].
Qed.

Lemma synced_frame m m' : frame m m' → synced m → synced m'.
Proof.
  intros (s & -> & Hp & Hc & Hn) (Hsn & Hsc & Hsp). unfold synced. cbn.
  split_and!.
  - eapply in_sync_ext; [|exact Hsn]. intros q. unfold node. cbn.
    by rewrite Hn.
  - eapply in_sync_ext; [|exact Hsc]. intros q. unfold cell. cbn.
    symmetry. apply Hc.
  - eapply in_sync_ext; [|exact Hsp]. intros q. unfold particle. cbn.
    symmetry. apply Hp.
Qed.

Lemma synced_set_console v m : synced m → synced (set_console_ v m).
Proof. done. Qed.

Lemma synced_empty s : synced (set_objects s empty_mesh).
Proof.
  unfold synced, in_sync. cbn. split_and!; try apply NoDup_nil_2;
    intros i p; rewrite lookup_empty, elem_of_nil;
    (split; [done|by intros [[] _]]).
Qed.

Lemma add_node_spec n m :
  synced m →
  ∃ b, (add_node n true m).1 = Ok b
    ∧ synced ((add_node n true m).2)
    ∧ (n_id (node m n) ∈ (λ q, n_id (node m q)) <$> nodes_ m →
       b = false ∧ nodes_ ((add_node n true m).2) = nodes_ m
       ∧ map_nodes_ ((add_node n true m).2) = map_nodes_ m).
Proof.
  intros (Hn & Hc & Hp).
  destruct (in_sync_add _ _ _ n Hn) as (Hb & Hsame & Hs & Hins).
  unfold add_node. cbn.
  destruct (Container.add _ _ _ _) as [b c'] eqn:Hadd. cbn in *.
  exists b. destruct b; cbn.
  - split_and!; [done| |].
    + by split_and!.
    + intros Hin. by apply Hb in Hin.
  - split_and!; [done| |].
    + by split_and!.
    + intros _. by rewrite Hsame.
Qed.

Lemma remove_node_spec n m :
  synced m →
  ∃ b, (remove_node n m).1 = Ok b
    ∧ synced ((remove_node n m).2)
    ∧ (n ∉ nodes_ m → remove_node n m = (Ok false, m)).
Proof.
  intros (Hn & Hc & Hp).
  destruct (in_sync_remove _ _ _ n Hn) as (Hb & Hsame & Herase & Hs).
  unfold remove_node. cbn.
  destruct (Container.remove _ _) as [b c'] eqn:Hrem. cbn in *.
  destruct b; cbn.
  - rewrite (Herase eq_refl). cbn. exists true. split_and!; [done| |].
    + by split_and!.
    + intros Hin. by apply Hb in Hin.
  - exists false. rewrite (Hsame eq_refl). split_and!; [done| |].
    + by split_and!.
    + intros _. by destruct m.
Qed.

Lemma add_cell_spec c m :
  synced m →
  ∃ b, (add_cell c true m).1 = Ok b
    ∧ synced ((add_cell c true m).2)
    ∧ (c_id (cell m c) ∈ (λ q, c_id (cell m q)) <$> cells_ m →
       b = false ∧ cells_ ((add_cell c true m).2) = cells_ m
       ∧ map_cells_ ((add_cell c true m).2) = map_cells_ m).
Proof.
  intros (Hn & Hc & Hp).
  destruct (in_sync_add _ _ _ c Hc) as (Hb & Hsame & Hs & Hins).
  unfold add_cell. cbn.
  destruct (Container.add _ _ _ _) as [b c'] eqn:Hadd. cbn in *.
  exists b. destruct b; cbn.
  - split_and!; [done| |].
    + by split_and!.
    + intros Hin. by apply Hb in Hin.
  - split_and!; [done| |].
    + by split_and!.
    + intros _. by rewrite Hsame.
Qed.

Lemma remove_cell_spec c m :
  synced m →
  ∃ b, (remove_cell c m).1 = Ok b
    ∧ synced ((remove_cell c m).2)
    ∧ (c ∉ cells_ m → remove_cell c m = (Ok false, m)).
Proof.
  intros (Hn & Hc & Hp).
  destruct (in_sync_remove _ _ _ c Hc) as (Hb & Hsame & Herase & Hs).
  unfold remove_cell. cbn.
  destruct (Container.remove _ _) as [b c'] eqn:Hrem. cbn in *.
  destruct b; cbn.
  - rewrite (Herase eq_refl). cbn. exists true. split_and!; [done| |].
    + by split_and!.
    + intros Hin. by apply Hb in Hin.
  - exists false. rewrite (Hsame eq_refl). split_and!; [done| |].
    + by split_and!.
    + intros _. by destruct m.
Qed.

Section ParticleOps.
Context `{Element}.

Lemma compute_reference_location_object_op p :
  object_op (ParticleBase.compute_reference_location p).
Proof.
  intros m.
  destruct (compute_reference_location_spec p m) as (b & m' & -> & Hf & _).
  by split.
Qed.

Lemma locate_in_neighbours_object_op p x neighbours :
  object_op (locate_in_neighbours p x neighbours).
Proof.
  induction neighbours as [|n rest IH]; cbn -[object_op].
  - apply object_op_ret.
  - apply object_op_get_bind. intros m.
    apply object_op_bind; [apply object_op_at|]. intros c.
    destruct (is_point_in_cell c x); [|done].
    apply object_op_bind; [|intros _; apply object_op_ret].
    apply objects_only_object_op, assign_cell_xi_objects_only.
Qed.

Lemma locate_in_cells_object_op p status cells :
  object_op (locate_in_cells p status cells).
Proof.
  intros m.
  destruct (locate_in_cells_spec p cells status m) as (b & m' & -> & Hf & _).
  by split.
Qed.

Lemma locate_particle_cells_object_op p : object_op (locate_particle_cells p).
Proof.
  unfold locate_particle_cells.
  apply object_op_get_bind. intros m.
  apply object_op_bind.
  - apply object_op_if; [|apply object_op_ret].
    apply object_op_bind.
    + destruct (p_cell (particle m p)); [apply object_op_ret|].
      apply object_op_bind; [apply object_op_at|]. intros c.
      apply objects_only_object_op, assign_cell_objects_only.
    + intros _. apply object_op_bind;
        [apply compute_reference_location_object_op|].
      intros located. apply object_op_if; [apply object_op_ret|].
      apply object_op_get_bind. intros m1.
      apply object_op_bind; [apply object_op_at|]. intros c.
      apply locate_in_neighbours_object_op.
  - intros found. apply object_op_if; [apply object_op_ret|].
    apply object_op_get_bind. intros m2. apply locate_in_cells_object_op.
Qed.

Lemma insert_particle_spec p m :
  synced m →
  ∃ b m', insert_particle p true m = (Ok b, m')
    ∧ synced m' ∧ console_ m' = console_ m
    ∧ (p_id (particle m p) ∈ (λ q, p_id (particle m q)) <$> particles_ m →
       b = false ∧ particles_ m' = particles_ m
       ∧ map_particles_ m' = map_particles_ m).
Proof.
  intros (Hn & Hc & Hp).
  destruct (in_sync_add _ _ _ p Hp) as (Hb & Hsame & Hs & Hins).
  unfold insert_particle. cbn.
  destruct (Container.add _ _ _ _) as [b c'] eqn:Hadd.
  eexists b, _. split; [done|].
  unfold synced, node, cell, particle in *. cbn in *.
  rewrite Hins. destruct b; cbn.
  - rewrite Hins in Hs. split_and!; [done..|].
    intros Hin. by apply Hb in Hin.
  - rewrite (Hsame eq_refl) in *. by split_and!.
Qed.

Lemma add_particle_spec p m :
  synced m →
  ∃ b m', add_particle p true m = (Ok b, m')
    ∧ synced m'
    ∧ (b = false → ∃ what, console_ m' = console_ m ++ [what])
    ∧ (p_id (particle m p) ∈ (λ q, p_id (particle m q)) <$> particles_ m →
       b = false ∧ particles_ m' = particles_ m
       ∧ map_particles_ m' = map_particles_ m).
Proof.
  intros Hs. unfold add_particle, try_catch. rewrite bind_assoc.
  destruct (locate_particle_cells_object_op p m) as [Hub Hf].
  unfold bind at 1.
  destruct (locate_particle_cells p m) as [[located|what|] m1]; cbn in Hub, Hf;
    [| |done].
  - assert (console_ m1 = console_ m) as Hcon1
      by by destruct Hf as (s & -> & _).
    assert (particles_ m1 = particles_ m) as Hp1
      by by destruct Hf as (s & -> & _).
    assert (map_particles_ m1 = map_particles_ m) as Hmp1
      by by destruct Hf as (s & -> & _).
    destruct located.
    + destruct (insert_particle_spec p m1 (synced_frame _ _ Hf Hs))
        as (b & m2 & Hrun & Hs2 & Hcon & Hdup).
      rewrite (bind_run _ _ _ _ _ Hrun).
      assert (p_id (particle m1 p)
              ∈ (λ q, p_id (particle m1 q)) <$> particles_ m1
              ↔ p_id (particle m p)
                ∈ (λ q, p_id (particle m q)) <$> particles_ m) as Hiff.
      { rewrite Hp1, (frame_p_id _ _ p Hf).
        rewrite (list_fmap_ext _ (λ q, p_id (particle m q)) (particles_ m));
          [done|]. intros i q _. by apply frame_p_id. }
      rewrite Hiff in Hdup.
      destruct b; cbn.
      * eexists true, _. split_and!; [done..|].
        intros Hin. by destruct Hdup as [? _].
      * eexists false, _. split; [done|]. cbn. split_and!; [done| |].
        -- eexists. by rewrite Hcon, Hcon1.
        -- intros Hin. destruct Hdup as (_ & -> & ->); done.
    + cbn. eexists false, _. split; [done|]. cbn.
      split_and!; [by apply synced_set_console, (synced_frame m)| |].
      * eexists. by rewrite Hcon1.
      * done.
  - assert (console_ m1 = console_ m) as Hcon1
      by by destruct Hf as (s & -> & _).
    assert (particles_ m1 = particles_ m) as Hp1
      by by destruct Hf as (s & -> & _).
    assert (map_particles_ m1 = map_particles_ m) as Hmp1
      by by destruct Hf as (s & -> & _).
    eexists false, _. split; [done|]. cbn.
    split_and!; [by apply synced_set_console, (synced_frame m)| |].
    + eexists. by rewrite Hcon1.
    + done.
Qed.

End ParticleOps.

Lemma remove_particle_synced p m : synced m → synced ((remove_particle p m).2).
Proof.
  intros Hs. unfold remove_particle. cbn -[ParticleBase.remove_cell].
  unfold Map.at_.
  destruct (map_particles_ m !! p_id (particle m p)) as [q|] eqn:Hq; [|done].
  cbn -[ParticleBase.remove_cell].
  destruct (remove_cell_objects_only q m) as (m1 & Hrun & Hf).
  rewrite (bind_run _ _ _ _ _ Hrun). cbn.
  pose proof (synced_frame _ _ Hf Hs) as (Hn & Hc & Hp).
  destruct (in_sync_remove _ _ _ p Hp) as (Hb & Hsame & Herase & Hs1).
  rewrite (frame_p_id _ _ p Hf) in Herase, Hs1.
  destruct (Container.remove _ _) as [b c'] eqn:Hrem. cbn in *.
  destruct b; cbn.
  - rewrite (Herase eq_refl). cbn. by split_and!.
  - by split_and!.
Qed.

Section Sequences.
Context `{Element}.

Lemma run_op_synced o m :
  checks_duplicates o → synced m → synced ((run_op o m).2).
Proof.
  intros Hchk Hs.
  destruct o as [n b|n|c b|c|p b|p]; cbn [run_op checks_duplicates] in *;
    subst.
  - by destruct (add_node_spec n m Hs) as (b & _ & ? & _).
  - by destruct (remove_node_spec n m Hs) as (b & _ & ? & _).
  - by destruct (add_cell_spec c m Hs) as (b & _ & ? & _).
  - by destruct (remove_cell_spec c m Hs) as (b & _ & ? & _).
  - by destruct (add_particle_spec p m Hs) as (b & m' & -> & ? & _).
  - by apply remove_particle_synced.
Qed.

Lemma run_ops_synced ops m :
  Forall checks_duplicates ops → synced m → synced (run_ops ops m).
Proof.
  unfold run_ops. intros Hall. revert m.
  induction Hall as [|o ops Ho _ IH]; intros m Hs; cbn; [done|].
  by apply IH, run_op_synced.
Qed.

(** C2 (amended). From a mesh whose containers and id maps are in step,
    the empty mesh among them, every sequence of removals and of additions
    that check duplicates leaves each container and its id map with the
    same size and the same ids.  In the mesh that is reached, the addition
    of a duplicate under duplicate checking returns false and changes
    neither the container nor the map, and the removal of a node or cell
    that is absent returns false and changes nothing. *)
Theorem containers_and_maps_stay_in_step (m0 : Mesh) (ops : list MeshOp) :
  synced m0 → Forall checks_duplicates ops →
  let m := run_ops ops m0 in
  consistent m
  ∧ (∀ n, n_id (node m n) ∈ (λ q, n_id (node m q)) <$> nodes_ m →
       ∃ m', add_node n true m = (Ok false, m')
             ∧ nodes_ m' = nodes_ m ∧ map_nodes_ m' = map_nodes_ m)
  ∧ (∀ c, c_id (cell m c) ∈ (λ q, c_id (cell m q)) <$> cells_ m →
       ∃ m', add_cell c true m = (Ok false, m')
             ∧ cells_ m' = cells_ m ∧ map_cells_ m' = map_cells_ m)
  ∧ (∀ p, p_id (particle m p) ∈ (λ q, p_id (particle m q)) <$> particles_ m →
       ∃ m', add_particle p true m = (Ok false, m')
             ∧ particles_ m' = particles_ m
             ∧ map_particles_ m' = map_particles_ m)
  ∧ (∀ n, n ∉ nodes_ m → remove_node n m = (Ok false, m))
  ∧ (∀ c, c ∉ cells_ m → remove_cell c m = (Ok false, m)).
Proof.
  intros Hs0 Hall m.
  assert (synced m) as Hs by by apply run_ops_synced.
  split_and!.
  - by apply synced_consistent.
  - intros n Hin. destruct (add_node_spec n m Hs) as (b & Hb & _ & Hdup).
    destruct (Hdup Hin) as (-> & ? & ?).
    destruct (add_node n true m) as [r m'] eqn:Hrun. cbn in *. subst r.
    by exists m'.
  - intros c Hin. destruct (add_cell_spec c m Hs) as (b & Hb & _ & Hdup).
    destruct (Hdup Hin) as (-> & ? & ?).
    destruct (add_cell c true m) as [r m'] eqn:Hrun. cbn in *. subst r.
    by exists m'.
  - intros p Hin.
    destruct (add_particle_spec p m Hs) as (b & m' & Hrun & _ & _ & Hdup).
    destruct (Hdup Hin) as (-> & ? & ?). by exists m'.
  - intros n Hin. by destruct (remove_node_spec n m Hs) as (b & _ & _ & ->).
  - intros c Hin. by destruct (remove_cell_spec c m Hs) as (b & _ & _ & ->).
Qed.

(** Operations whose body is a [try] block with a handler return a status,
    and a false status comes with a message on the console. *)
Lemma insert_particle_runs p checks m :
  ∃ b m', insert_particle p checks m = (Ok b, m') ∧ console_ m' = console_ m.
Proof.
  unfold insert_particle. cbn.
  destruct (Container.add _ _ _ _) as [b c']. by eexists b, _.
Qed.

Lemma add_particle_returns p checks m :
  ∃ b m', add_particle p checks m = (Ok b, m')
    ∧ (b = false → ∃ what, console_ m' = console_ m ++ [what]).
Proof.
  unfold add_particle, try_catch. destruct checks.
  - rewrite bind_assoc.
    destruct (locate_particle_cells_object_op p m) as [Hub Hf].
    unfold bind at 1.
    destruct (locate_particle_cells p m) as [[located|what|] m1];
      cbn in Hub, Hf; [| |done].
    + assert (console_ m1 = console_ m) as Hcon1
        by by destruct Hf as (s & -> & _).
      destruct located.
      * destruct (insert_particle_runs p true m1) as (b & m2 & Hrun & Hcon).
        rewrite (bind_run _ _ _ _ _ Hrun). destruct b; cbn.
        -- by eexists true, _.
        -- eexists false, _. split; [done|]. intros _. cbn. eexists.
           by rewrite Hcon, Hcon1.
      * cbn. eexists false, _. split; [done|]. intros _. cbn. eexists.
        by rewrite Hcon1.
    + assert (console_ m1 = console_ m) as Hcon1
        by by destruct Hf as (s & -> & _).
      eexists false, _. split; [done|]. intros _. cbn. eexists.
      by rewrite Hcon1.
  - destruct (insert_particle_runs p false m) as (b & m2 & Hrun & Hcon).
    rewrite (bind_run _ _ _ _ _ Hrun). destruct b; cbn.
    + by eexists true, _.
    + eexists false, _. split; [done|]. intros _. cbn. eexists.
      by rewrite Hcon.
Qed.

End Sequences.

Lemma create_particle_velocity_constraint_returns Tdim set_id constraint m :
  ∃ b m', create_particle_velocity_constraint Tdim set_id constraint m
          = (Ok b, m')
    ∧ (b = false → ∃ what, console_ m' = console_ m ++ [what]).
Proof.
  unfold create_particle_velocity_constraint. munfold.
  destruct (_ || _); [destruct (_ <? _)%N|]; cbn.
  - by eexists true, _.
  - eexists false, _. split; [done|]. intros _. by eexists.
  - eexists false, _. split; [done|]. intros _. by eexists.
Qed.

(** The sequence of the witness: two cells, the particle, a second attempt
    on a cell, and two removals. *)
Lemma containers_and_maps_stay_in_step_witness :
  let m := @run_ops interval_element
             [AddCell 1 true; AddCell 2 true; AddParticle 1 true;
              AddCell 1 true; RemoveParticle 1; RemoveCell 2]
             (set_objects (line_store 15) empty_mesh) in
  consistent m ∧ ∀ n, n ∉ nodes_ m → remove_node n m = (Ok false, m).
Proof.
  intros m.
  destruct (@containers_and_maps_stay_in_step interval_element
              (set_objects (line_store 15) empty_mesh)
              [AddCell 1 true; AddCell 2 true; AddParticle 1 true;
               AddCell 1 true; RemoveParticle 1; RemoveCell 2])
    as (Hc & _ & _ & _ & Hn & _).
  - apply synced_empty.
  - repeat constructor.
  - split; [exact Hc|exact Hn].
Defined.

(** C2, as stated, fails: without duplicate checking the same cell enters
    the container a second time and the id map keeps one entry. *)
Lemma unchecked_add_breaks_sync :
  let m := @run_ops interval_element [AddCell 1 true; AddCell 1 false]
             (set_objects (line_store 15) empty_mesh) in
  length (cells_ m) = 2%nat ∧ size (map_cells_ m) = 1%nat ∧ ¬ consistent m.
Proof.
  assert (length (cells_ (@run_ops interval_element
            [AddCell 1 true; AddCell 1 false]
            (set_objects (line_store 15) empty_mesh))) = 2%nat) as Hl
    by by vm_compute.
  assert (size (map_cells_ (@run_ops interval_element
            [AddCell 1 true; AddCell 1 false]
            (set_objects (line_store 15) empty_mesh))) = 1%nat) as Hz
    by by vm_compute.
  cbv zeta. split_and!; [done..|].
  intros (_ & [Hsize _] & _). rewrite Hl, Hz in Hsize. done.
Qed.

(** ** Domain-shared nodes *)

Lemma node_heap_update_node n f s q :
  node_heap (update_node n f s) !!! q
  = if decide (q = n) then f (node_heap s !!! n) else node_heap s !!! q.
Proof.
  unfold update_node. cbn. case_decide as Hq.
  - subst. apply lookup_total_insert_eq.
  - by apply lookup_total_insert_ne.
Qed.

Lemma same_but_ranks_refl s : same_but_ranks s s.
Proof. by split_and!. Qed.

Lemma same_but_ranks_trans s1 s2 s3 :
  same_but_ranks s1 s2 → same_but_ranks s2 s3 → same_but_ranks s1 s3.
Proof.
  intros (Hc & Hp & Hn) (Hc' & Hp' & Hn'). split_and!; [congruence..|].
  intros q. destruct (Hn q) as (<- & <- & <-). apply Hn'.
Qed.

Lemma clear_mpi_ranks_same n s : same_but_ranks s (NodeBase.clear_mpi_ranks n s).
Proof.
  split_and!; [done..|]. intros q. unfold NodeBase.clear_mpi_ranks.
  rewrite node_heap_update_node. by case_decide; subst.
Qed.

Lemma mpi_rank_same r n s : same_but_ranks s (NodeBase.mpi_rank r n s).
Proof.
  split_and!; [done..|]. intros q. unfold NodeBase.mpi_rank.
  rewrite node_heap_update_node. by case_decide; subst.
Qed.

Lemma clear_fold l s :
  let s' := foldl (λ s n, NodeBase.clear_mpi_ranks n s) s l in
  same_but_ranks s s'
  ∧ ∀ q, n_mpi_ranks (node_heap s' !!! q)
         = if decide (q ∈ l) then ∅ else n_mpi_ranks (node_heap s !!! q).
Proof.
  revert s. induction l as [|n l IH]; intros s; cbn.
  - split; [apply same_but_ranks_refl|]. intros q. by rewrite decide_False by apply not_elem_of_nil.
  - destruct (IH (NodeBase.clear_mpi_ranks n s)) as [Hsame Hr]. split.
    + eapply same_but_ranks_trans; [apply clear_mpi_ranks_same|done].
    + intros q. rewrite Hr. unfold NodeBase.clear_mpi_ranks.
      rewrite node_heap_update_node.
      destruct (decide (q ∈ l)) as [Hl|Hl].
      * rewrite decide_True; [done|]. apply elem_of_cons. by right.
      * destruct (decide (q = n)) as [->|Hne].
        -- rewrite decide_True; [done|]. apply elem_of_cons. by left.
        -- rewrite decide_False; [done|].
           intros [?|?]%elem_of_cons; done.
Qed.

Lemma mpi_rank_fold r l s :
  let s' := foldl (λ s n, NodeBase.mpi_rank r n s) s l in
  same_but_ranks s s'
  ∧ ∀ q, n_mpi_ranks (node_heap s' !!! q)
         = n_mpi_ranks (node_heap s !!! q)
           ∪ (if decide (q ∈ l) then {[r]} else ∅).
Proof.
  revert s. induction l as [|n l IH]; intros s; cbn.
  - split; [apply same_but_ranks_refl|]. intros q.
    rewrite decide_False by apply not_elem_of_nil. set_solver.
  - destruct (IH (NodeBase.mpi_rank r n s)) as [Hsame Hr]. split.
    + eapply same_but_ranks_trans; [apply mpi_rank_same|done].
    + intros q. rewrite Hr. unfold NodeBase.mpi_rank.
      rewrite node_heap_update_node.
      destruct (decide (q = n)) as [->|Hne]; cbn.
      * rewrite (decide_True (P := n ∈ n :: l)) by (apply elem_of_cons; by left).
        case_decide; set_solver.
      * destruct (decide (q ∈ l)) as [Hl|Hl].
        -- rewrite decide_True; [done|]. apply elem_of_cons. by right.
        -- rewrite decide_False; [done|].
           intros [?|?]%elem_of_cons; done.
Qed.

Lemma ranks_from_ext s s' cells q :
  cell_heap s' = cell_heap s → ranks_from s' cells q = ranks_from s cells q.
Proof. unfold ranks_from. by intros ->. Qed.

Lemma assign_fold cells s :
  let s' := foldl (λ s c, assign_mpi_rank_to_nodes c s) s cells in
  same_but_ranks s s'
  ∧ ∀ q, n_mpi_ranks (node_heap s' !!! q)
         = n_mpi_ranks (node_heap s !!! q) ∪ ranks_from s cells q.
Proof.
  revert s. induction cells as [|c cells IH]; intros s; cbn.
  - split; [apply same_but_ranks_refl|]. intros q. unfold ranks_from. cbn.
    set_solver.
  - destruct (IH (assign_mpi_rank_to_nodes c s)) as [Hsame Hr].
    destruct (mpi_rank_fold (c_rank (cell_heap s !!! c))
                (c_nodes (cell_heap s !!! c)) s) as [Hsame1 Hr1].
    fold (assign_mpi_rank_to_nodes c s) in Hsame1, Hr1. split.
    + by eapply same_but_ranks_trans.
    + intros q. rewrite Hr, Hr1.
      rewrite (ranks_from_ext s (assign_mpi_rank_to_nodes c s))
        by apply Hsame1.
      unfold ranks_from.
      destruct (decide (q ∈ c_nodes (cell_heap s !!! c))); cbn; set_solver.
Qed.

Lemma rank_phase_spec m :
  same_but_ranks (objects m) (rank_phase m)
  ∧ ∀ q, n_mpi_ranks (node_heap (rank_phase m) !!! q)
         = (if decide (q ∈ nodes_ m) then ∅ else n_mpi_ranks (node m q))
           ∪ touching_ranks m q.
Proof.
  unfold rank_phase.
  destruct (clear_fold (nodes_ m) (objects m)) as [Hs1 Hr1].
  destruct (assign_fold (cells_ m)
              (foldl (λ s n, NodeBase.clear_mpi_ranks n s) (objects m) (nodes_ m)))
    as [Hs2 Hr2].
  split; [by eapply same_but_ranks_trans|].
  intros q. rewrite Hr2, Hr1. f_equal.
  rewrite (ranks_from_ext (objects m)) by apply Hs1. done.
Qed.

Lemma touching_ranks_same m m' :
  cells_ m' = cells_ m → cell_heap (objects m') = cell_heap (objects m) →
  ∀ q, touching_ranks m' q = touching_ranks m q.
Proof. intros Hc Hh q. unfold touching_ranks, cell. by rewrite Hc, Hh. Qed.

Lemma container_add_ext (f g : positive → N) c p b :
  (∀ q, f q = g q) → Container.add f c p b = Container.add g c p b.
Proof.
  intros Hfg. unfold Container.add, Container.has_id.
  rewrite Hfg. rewrite (list_fmap_ext f g c); [done|]. intros i q _. apply Hfg.
Qed.

Lemma node_ghost_id_written g n a q :
  node (set_objects (NodeBase.ghost_id g n (objects a)) a) q
  = if decide (q = n) then NodeBase.with_ghost_id g (node a n) else node a q.
Proof. unfold node, NodeBase.ghost_id. cbn. apply node_heap_update_node. Qed.

Ltac node_written :=
  unfold node, add_domain_shared_node, NodeBase.ghost_id;
  cbn -[update_node]; rewrite node_heap_update_node;
  by case_decide; subst.

(** What one round of either loop over the nodes does. *)
Lemma shared_node_step_spec r a n :
  let a' := shared_node_step r a n in
  nodes_ a' = nodes_ a ∧ cells_ a' = cells_ a
  ∧ cell_heap (objects a') = cell_heap (objects a)
  ∧ ncomms_ a' = ncomms_ a
  ∧ (∀ q, n_id (node a' q) = n_id (node a q)
          ∧ n_mpi_ranks (node a' q) = n_mpi_ranks (node a q))
  ∧ if bool_decide (1 < size (n_mpi_ranks (node a n)))%nat then
      nhalo_nodes_ a' = wrap32 (nhalo_nodes_ a + 1)
      ∧ (∀ q, n_ghost_id (node a' q)
              = if decide (q = n) then nhalo_nodes_ a
                else n_ghost_id (node a q))
      ∧ domain_shared_nodes_ a'
        = (if bool_decide (r ∈ n_mpi_ranks (node a n))
           then (Container.add (λ q, n_id (node a q))
                   (domain_shared_nodes_ a) n true).2
           else domain_shared_nodes_ a)
    else a' = a.
Proof.
  unfold shared_node_step. cbn.
  destruct (bool_decide (1 < size (n_mpi_ranks (node a n)))%nat); [|done].
  assert (∀ q, n_id (node (set_objects (NodeBase.ghost_id (nhalo_nodes_ a) n
                             (objects a)) a) q) = n_id (node a q)) as Hid.
  { intros q. node_written. }
  destruct (bool_decide (r ∈ n_mpi_ranks (node a n))); cbn;
    (split_and!; [done..| |done| |]).
  - intros q. node_written.
  - intros q. node_written.
  - unfold default_check_duplicates. f_equal. apply container_add_ext.
    intros q. apply Hid.
  - intros q. node_written.
  - intros q. node_written.
  - done.
Qed.

Lemma shared_node_step_halo_spec r a n :
  let a' := shared_node_step_halo r a n in
  let ranks := n_mpi_ranks (node a n) in
  nodes_ a' = nodes_ a ∧ cells_ a' = cells_ a
  ∧ cell_heap (objects a') = cell_heap (objects a)
  ∧ nhalo_nodes_ a' = nhalo_nodes_ a
  ∧ (∀ q, n_id (node a' q) = n_id (node a q)
          ∧ n_mpi_ranks (node a' q) = n_mpi_ranks (node a q))
  ∧ if (1 <? wrap32 (N.of_nat (size ranks)))%N && bool_decide (r ∈ ranks) then
      ncomms_ a' = wrap32 (ncomms_ a + wrap32 (N.of_nat (size ranks)) - 1)
      ∧ (∀ q, n_ghost_id (node a' q)
              = if decide (q = n) then ncomms_ a else n_ghost_id (node a q))
      ∧ domain_shared_nodes_ a'
        = (Container.add (λ q, n_id (node a q))
             (domain_shared_nodes_ a) n true).2
    else a' = a.
Proof.
  unfold shared_node_step_halo. cbn.
  destruct (1 <? wrap32 (N.of_nat (size (n_mpi_ranks (node a n)))))%N; [|done].
  destruct (bool_decide (r ∈ n_mpi_ranks (node a n))); [|done]. cbn.
  assert (∀ q, n_id (node (set_objects (NodeBase.ghost_id (ncomms_ a) n
                             (objects a)) a) q) = n_id (node a q)) as Hid.
  { intros q. node_written. }
  split_and!; [done..| |done| |].
  - intros q. node_written.
  - intros q. node_written.
  - unfold default_check_duplicates. f_equal. apply container_add_ext.
    intros q. apply Hid.
Qed.

Lemma find_domain_shared_nodes_unfold halo r m :
  find_domain_shared_nodes halo r m
  = foldl (shared_step halo r) (shared_start halo m) (nodes_ m).
Proof. by destruct halo. Qed.

(** What the loop leaves alone. *)
Lemma shared_step_frame halo r a n :
  let a' := shared_step halo r a n in
  nodes_ a' = nodes_ a ∧ cells_ a' = cells_ a
  ∧ cell_heap (objects a') = cell_heap (objects a)
  ∧ (if halo then nhalo_nodes_ a' = nhalo_nodes_ a
     else ncomms_ a' = ncomms_ a)
  ∧ (∀ q, n_id (node a' q) = n_id (node a q)
          ∧ n_mpi_ranks (node a' q) = n_mpi_ranks (node a q)).
Proof.
  destruct halo; cbn.
  - by destruct (shared_node_step_halo_spec r a n) as (? & ? & ? & ? & ? & _).
  - by destruct (shared_node_step_spec r a n) as (? & ? & ? & ? & ? & _).
Qed.

Lemma shared_loop_frame halo r l a :
  let a' := foldl (shared_step halo r) a l in
  nodes_ a' = nodes_ a ∧ cells_ a' = cells_ a
  ∧ cell_heap (objects a') = cell_heap (objects a)
  ∧ (if halo then nhalo_nodes_ a' = nhalo_nodes_ a
     else ncomms_ a' = ncomms_ a)
  ∧ (∀ q, n_id (node a' q) = n_id (node a q)
          ∧ n_mpi_ranks (node a' q) = n_mpi_ranks (node a q)).
Proof.
  revert a. induction l as [|n l IH]; intros a; cbn.
  - split_and!; [done..|by destruct halo|done].
  - destruct (IH (shared_step halo r a n)) as (-> & -> & -> & Hc & Hq).
    destruct (shared_step_frame halo r a n) as (-> & -> & -> & Hc' & Hq').
    split_and!; [done..| |].
    + destruct halo; congruence.
    + intros q. destruct (Hq q) as [-> ->]. apply Hq'.
Qed.

(** Two runs of the loop body from meshes that share ids, ranks and
    bookkeeping stay that way, and write the same ghost ids. *)
Lemma shared_step_rel halo r a0 b0 a b n :
  same_sharing a b → (∀ q, ghost_id_rel a0 b0 a b q) →
  same_sharing (shared_step halo r a n) (shared_step halo r b n)
  ∧ ∀ q, ghost_id_rel a0 b0 (shared_step halo r a n) (shared_step halo r b n) q.
Proof.
  intros (Hdsn & Hnh & Hnc & Hq) Hrel.
  assert (n_mpi_ranks (node a n) = n_mpi_ranks (node b n)) as Hranks
    by apply Hq.
  assert (∀ c p, Container.add (λ q, n_id (node a q)) c p true
                 = Container.add (λ q, n_id (node b q)) c p true) as Hadd.
  { intros c p. apply container_add_ext. intros q. apply Hq. }
  destruct halo; cbn.
  - destruct (shared_node_step_halo_spec r a n)
      as (_ & _ & _ & Hnha & Hqa & Ha).
    destruct (shared_node_step_halo_spec r b n)
      as (_ & _ & _ & Hnhb & Hqb & Hb).
    cbn in Ha, Hb. rewrite <- Hranks in Hb.
    destruct (_ && _).
    + destruct Ha as (Hca & Hga & Hda). destruct Hb as (Hcb & Hgb & Hdb).
      split.
      * split_and!; [|congruence..|].
        -- rewrite Hda, Hdb, Hdsn. by rewrite Hadd.
        -- intros q. destruct (Hqa q) as [-> ->].
           destruct (Hqb q) as [-> ->]. apply Hq.
      * intros q. unfold ghost_id_rel. rewrite Hga, Hgb.
        destruct (decide (q = n)); [right; congruence|apply Hrel].
    + rewrite Ha, Hb. split; [by split_and!|done].
  - destruct (shared_node_step_spec r a n)
      as (_ & _ & _ & Hnca & Hqa & Ha).
    destruct (shared_node_step_spec r b n)
      as (_ & _ & _ & Hncb & Hqb & Hb).
    rewrite <- Hranks in Hb.
    destruct (bool_decide (1 < size (n_mpi_ranks (node a n)))%nat).
    + destruct Ha as (Hca & Hga & Hda). destruct Hb as (Hcb & Hgb & Hdb).
      split.
      * split_and!; [|congruence..|].
        -- rewrite Hda, Hdb, Hdsn. destruct (bool_decide _); [|done].
           by rewrite Hadd.
        -- intros q. destruct (Hqa q) as [-> ->].
           destruct (Hqb q) as [-> ->]. apply Hq.
      * intros q. unfold ghost_id_rel. rewrite Hga, Hgb.
        destruct (decide (q = n)); [right; congruence|apply Hrel].
    + rewrite Ha, Hb. split; [by split_and!|done].
Qed.

Lemma shared_loop_rel halo r a0 b0 l a b :
  same_sharing a b → (∀ q, ghost_id_rel a0 b0 a b q) →
  same_sharing (foldl (shared_step halo r) a l) (foldl (shared_step halo r) b l)
  ∧ ∀ q, ghost_id_rel a0 b0 (foldl (shared_step halo r) a l)
           (foldl (shared_step halo r) b l) q.
Proof.
  revert a b. induction l as [|n l IH]; intros a b Hs Hrel; cbn; [done|].
  destruct (shared_step_rel halo r a0 b0 a b n Hs Hrel) as [Hs' Hrel'].
  by apply IH.
Qed.

Lemma shared_start_spec halo m :
  let a := shared_start halo m in
  nodes_ a = nodes_ m ∧ cells_ a = cells_ m
  ∧ cell_heap (objects a) = cell_heap (objects m)
  ∧ domain_shared_nodes_ a = []
  ∧ (if halo then ncomms_ a = 0%N ∧ nhalo_nodes_ a = nhalo_nodes_ m
     else nhalo_nodes_ a = 0%N ∧ ncomms_ a = ncomms_ m)
  ∧ (∀ q, n_id (node a q) = n_id (node m q)
          ∧ n_ghost_id (node a q) = n_ghost_id (node m q)
          ∧ n_mpi_ranks (node a q)
            = (if decide (q ∈ nodes_ m) then ∅ else n_mpi_ranks (node m q))
              ∪ touching_ranks m q).
Proof.
  destruct (rank_phase_spec m) as [(Hc & Hp & Hn) Hr].
  unfold shared_start. destruct halo; cbn; (split_and!; [done..|]);
    intros q; unfold node; cbn;
    destruct (Hn q) as (-> & -> & _); by rewrite Hr.
Qed.

(** C5. A second call of [find_domain_shared_nodes], with the cells, the
    nodes and the ranks of the cells as the first call left them, leaves
    the container of the domain-shared nodes, the ghost id and the ranks
    of every node, and both counters as they are after the first call. *)
Theorem find_domain_shared_nodes_idempotent
    (USE_HALO_EXCHANGE : bool) (mpi_rank : N) (m : Mesh) :
  let m1 := find_domain_shared_nodes USE_HALO_EXCHANGE mpi_rank m in
  let m2 := find_domain_shared_nodes USE_HALO_EXCHANGE mpi_rank m1 in
  domain_shared_nodes_ m2 = domain_shared_nodes_ m1
  ∧ (∀ n, n_ghost_id (node m2 n) = n_ghost_id (node m1 n))
  ∧ (∀ n, n_mpi_ranks (node m2 n) = n_mpi_ranks (node m1 n))
  ∧ nhalo_nodes_ m2 = nhalo_nodes_ m1
  ∧ ncomms_ m2 = ncomms_ m1.
Proof.
  intros m1 m2. subst m2.
  rewrite (find_domain_shared_nodes_unfold _ _ m1). subst m1.
  rewrite !(find_domain_shared_nodes_unfold _ _ m).
  set (halo := USE_HALO_EXCHANGE). set (a0 := shared_start halo m).
  set (m1 := foldl (shared_step halo mpi_rank) a0 (nodes_ m)).
  set (b0 := shared_start halo m1).
  destruct (shared_start_spec halo m) as (Hn0 & Hc0 & Hh0 & Hd0 & Hk0 & Hq0).
  fold a0 in Hn0, Hc0, Hh0, Hd0, Hk0, Hq0.
  destruct (shared_loop_frame halo mpi_rank (nodes_ m) a0)
    as (Hn1 & Hc1 & Hh1 & Hk1 & Hq1).
  fold m1 in Hn1, Hc1, Hh1, Hk1, Hq1.
  destruct (shared_start_spec halo m1) as (Hnb & Hcb & Hhb & Hdb & Hkb & Hqb).
  fold b0 in Hnb, Hcb, Hhb, Hdb, Hkb, Hqb.
  assert (nodes_ m1 = nodes_ m) as Hnodes by congruence.
  rewrite Hnodes in *.
  assert (same_sharing a0 b0) as Hsame.
  { split_and!.
    - congruence.
    - destruct halo; [|by destruct Hk0 as [-> _], Hkb as [-> _]].
      destruct Hk0 as [_ ->], Hkb as [_ ->]. done.
    - destruct halo; [by destruct Hk0 as [-> _], Hkb as [-> _]|].
      destruct Hk0 as [_ ->], Hkb as [_ ->]. done.
    - intros q. destruct (Hq0 q) as (-> & _ & Hr0).
      destruct (Hqb q) as (-> & _ & ->).
      destruct (Hq1 q) as [-> Hr1]. destruct (Hq0 q) as (-> & _ & _).
      split; [done|]. rewrite Hr1, Hr0.
      rewrite (touching_ranks_same m m1) by congruence.
      case_decide; set_solver. }
  destruct (shared_loop_rel halo mpi_rank a0 b0 (nodes_ m) a0 b0 Hsame)
    as [(Hd & Hnh & Hnc & Hq) Hrel]; [by left|].
  fold m1 in Hd, Hnh, Hnc, Hq, Hrel.
  split_and!; [done| |by intros n; destruct (Hq n) as [_ ->]|done..].
  intros n. destruct (Hrel n) as [[_ ->]|<-]; [|done].
  by destruct (Hqb n) as (_ & -> & _).
Qed.

Lemma wrap32_succ x : wrap32 (wrap32 x + 1) = wrap32 (x + 1).
Proof. unfold wrap32. by rewrite N.Div0.add_mod_idemp_l. Qed.

Lemma wrap32_small x : (x < 4294967296)%N → wrap32 x = x.
Proof. intros Hx. unfold wrap32. by apply N.mod_small. Qed.

(** Under duplicate checking a container takes an entity whose id none of
    its entities has. *)
Lemma container_add_fresh id_of c p :
  id_of p ∉ id_of <$> c → Container.add id_of c p true = (true, c ++ [p]).
Proof.
  intros Hfresh. unfold Container.add, Container.has_id.
  by rewrite bool_decide_eq_false_2.
Qed.

Section SharedLoop.
Context (r : N) (rk : positive → gset N) (idf : positive → N).

Let shared (n : positive) : Prop := (1 < size (rk n))%nat.
Let shared_here (n : positive) : Prop := shared n ∧ r ∈ rk n.

Lemma shared_loop_allreduce rest : ∀ pre a,
  (∀ q, q ∈ pre ++ rest →
        n_mpi_ranks (node a q) = rk q ∧ n_id (node a q) = idf q) →
  NoDup (idf <$> pre ++ rest) →
  nhalo_nodes_ a = wrap32 (N.of_nat (length (filter shared pre))) →
  domain_shared_nodes_ a = filter shared_here pre →
  (∀ k n, filter shared pre !! k = Some n →
          n_ghost_id (node a n) = wrap32 (N.of_nat k)) →
  let a' := foldl (shared_node_step r) a rest in
  nhalo_nodes_ a' = wrap32 (N.of_nat (length (filter shared (pre ++ rest))))
  ∧ domain_shared_nodes_ a' = filter shared_here (pre ++ rest)
  ∧ (∀ k n, filter shared (pre ++ rest) !! k = Some n →
            n_ghost_id (node a' n) = wrap32 (N.of_nat k)).
Proof.
  induction rest as [|n rest IH]; intros pre a Hq Hnd Hnh Hdsn Hgh; cbn.
  - by rewrite app_nil_r.
  - replace (pre ++ n :: rest) with ((pre ++ [n]) ++ rest) in *
      by by rewrite <- (assoc_L (++)).
    assert (n ∈ (pre ++ [n]) ++ rest) as Hn.
    { apply elem_of_app. left. apply elem_of_app. right.
      by apply list_elem_of_singleton. }
    assert (∀ q, q ∈ pre → q ≠ n) as Hfresh.
    { intros q Hq' ->. rewrite !fmap_app in Hnd.
      apply NoDup_app in Hnd as [Hnd _]. apply NoDup_app in Hnd as (_ & Hnd & _).
      apply (Hnd (idf n)); [by apply list_elem_of_fmap_2|].
      cbn. apply list_elem_of_singleton. done. }
    destruct (shared_node_step_spec r a n) as (_ & _ & _ & _ & Hqa & Ha).
    destruct (Hq n Hn) as [Hrn Hin]. rewrite Hrn in Ha.
    apply IH; clear IH.
    + intros q Hq'. destruct (Hqa q) as [-> ->]. by apply Hq.
    + done.
    + rewrite filter_app, length_app.
      destruct (decide (shared n)) as [Hs|Hs].
      * rewrite (bool_decide_eq_true_2 _ Hs) in Ha.
        destruct Ha as (-> & _). rewrite Hnh, wrap32_succ.
        rewrite (filter_cons_True _ _ _ Hs), filter_nil. cbn. f_equal. lia.
      * rewrite (bool_decide_eq_false_2 _ Hs) in Ha. rewrite Ha, Hnh.
        rewrite (filter_cons_False _ _ _ Hs), filter_nil. cbn.
        by rewrite Nat.add_0_r.
    + rewrite filter_app.
      destruct (decide (shared n)) as [Hs|Hs].
      * rewrite (bool_decide_eq_true_2 _ Hs) in Ha.
        destruct Ha as (_ & _ & ->). case_bool_decide as Hr.
        -- rewrite container_add_fresh.
           ++ cbn [snd]. rewrite Hdsn. rewrite filter_cons_True by done.
              by rewrite filter_nil.
           ++ rewrite Hdsn. intros (q & Hid & Hq')%list_elem_of_fmap.
              apply list_elem_of_filter in Hq' as [_ Hq'].
              destruct (Hq q) as [_ Hiq].
              { apply elem_of_app. left. apply elem_of_app. by left. }
              rewrite Hin, Hiq in Hid.
              rewrite !fmap_app in Hnd.
              apply NoDup_app in Hnd as [Hnd _].
              apply NoDup_app in Hnd as (_ & Hnd & _).
              apply (Hnd (idf q)); [by apply list_elem_of_fmap_2|].
              rewrite <- Hid. cbn. by apply list_elem_of_singleton.
        -- rewrite Hdsn, filter_cons_False, filter_nil, app_nil_r; [done|].
           by intros [_ ?].
      * rewrite (bool_decide_eq_false_2 _ Hs) in Ha. rewrite Ha, Hdsn.
        rewrite filter_cons_False, filter_nil, app_nil_r; [done|].
        by intros [? _].
    + intros k n'. rewrite filter_app.
      destruct (decide (shared n)) as [Hs|Hs].
      * rewrite (bool_decide_eq_true_2 _ Hs) in Ha.
        destruct Ha as (_ & Hga & _). rewrite Hga.
        rewrite (filter_cons_True _ _ _ Hs), filter_nil.
        intros [Hk|[Hk Hlast]]%lookup_app_Some.
        -- rewrite decide_False; [by apply Hgh|].
           apply Hfresh. apply list_elem_of_lookup_2 in Hk.
           by apply list_elem_of_filter in Hk as [_ ?].
        -- apply list_lookup_singleton_Some in Hlast as [Hk0 <-].
           rewrite decide_True by done. rewrite Hnh. f_equal. f_equal. lia.
      * rewrite (bool_decide_eq_false_2 _ Hs) in Ha. rewrite Ha.
        rewrite (filter_cons_False _ _ _ Hs), filter_nil, app_nil_r.
        apply Hgh.
Qed.

Let shared_halo (n : positive) : Prop :=
  (1 < wrap32 (N.of_nat (size (rk n))))%N ∧ r ∈ rk n.

Lemma shared_loop_halo rest : ∀ pre a,
  (∀ q, q ∈ pre ++ rest →
        n_mpi_ranks (node a q) = rk q ∧ n_id (node a q) = idf q) →
  NoDup (idf <$> pre ++ rest) →
  domain_shared_nodes_ a = filter shared_halo pre →
  domain_shared_nodes_ (foldl (shared_node_step_halo r) a rest)
  = filter shared_halo (pre ++ rest).
Proof.
  induction rest as [|n rest IH]; intros pre a Hq Hnd Hdsn; cbn.
  - by rewrite app_nil_r.
  - replace (pre ++ n :: rest) with ((pre ++ [n]) ++ rest) in *
      by by rewrite <- (assoc_L (++)).
    assert (n ∈ (pre ++ [n]) ++ rest) as Hn.
    { apply elem_of_app. left. apply elem_of_app. right.
      by apply list_elem_of_singleton. }
    destruct (shared_node_step_halo_spec r a n) as (_ & _ & _ & _ & Hqa & Ha).
    cbn in Ha. destruct (Hq n Hn) as [Hrn Hin]. rewrite Hrn in Ha.
    apply IH; clear IH.
    + intros q Hq'. destruct (Hqa q) as [-> ->]. by apply Hq.
    + done.
    + rewrite filter_app.
      destruct (decide (shared_halo n)) as [Hs|Hs].
      * destruct Hs as [Hs1 Hs2].
        rewrite (proj2 (N.ltb_lt _ _) Hs1), (bool_decide_eq_true_2 _ Hs2) in Ha.
        destruct Ha as (_ & _ & ->).
        rewrite container_add_fresh.
        -- cbn [snd]. rewrite Hdsn. rewrite filter_cons_True by done.
           by rewrite filter_nil.
        -- rewrite Hdsn. intros (q & Hid & Hq')%list_elem_of_fmap.
           apply list_elem_of_filter in Hq' as [_ Hq'].
           destruct (Hq q) as [_ Hiq].
           { apply elem_of_app. left. apply elem_of_app. by left. }
           rewrite Hin, Hiq in Hid.
           rewrite !fmap_app in Hnd.
           apply NoDup_app in Hnd as [Hnd _].
           apply NoDup_app in Hnd as (_ & Hnd & _).
           apply (Hnd (idf q)); [by apply list_elem_of_fmap_2|].
           rewrite <- Hid. cbn. by apply list_elem_of_singleton.
      * assert ((1 <? wrap32 (N.of_nat (size (rk n))))%N
                && bool_decide (r ∈ rk n) = false) as Hfalse.
        { apply not_true_is_false. intros [H1 H2]%andb_true_iff.
          apply bool_decide_eq_true in H2.
          apply Hs. split; [by apply N.ltb_lt|done]. }
        rewrite Hfalse in Ha. rewrite Ha, Hdsn.
        by rewrite filter_cons_False, filter_nil, app_nil_r.
Qed.
End SharedLoop.

Lemma size_list_to_set_le (l : list N) :
  (size (list_to_set l : gset N) ≤ length l)%nat.
Proof.
  induction l as [|x l IH]; cbn.
  - by rewrite size_empty.
  - rewrite size_union_alt, size_singleton.
    assert (size (list_to_set l ∖ {[x]} : gset N) ≤ size (list_to_set l : gset N))%nat
      by (apply subseteq_size; set_solver).
    lia.
Qed.

Lemma touching_ranks_size m n :
  (size (touching_ranks m n) ≤ length (cells_ m))%nat.
Proof.
  unfold touching_ranks.
  etransitivity; [apply size_list_to_set_le|].
  rewrite length_fmap. apply length_filter.
Qed.

(** C4 (amended). After [find_domain_shared_nodes], in either build, the
    ranks of a node of the mesh are the ranks of the cells that touch it,
    and the node is among the domain-shared nodes exactly when these are
    more than one rank and the local rank is one of them.  In the build
    without [USE_HALO_EXCHANGE] the nodes that more than one rank touches
    carry the ghost ids 0, 1, 2, ... in the order of the container, and
    [nhalo_nodes_] is their number. *)
Theorem find_domain_shared_nodes_correct
    (USE_HALO_EXCHANGE : bool) (mpi_rank : N) (m : Mesh) :
  NoDup ((λ q, n_id (node m q)) <$> nodes_ m) →
  (N.of_nat (length (nodes_ m)) < 4294967296)%N →
  (N.of_nat (length (cells_ m)) < 4294967296)%N →
  let m' := find_domain_shared_nodes USE_HALO_EXCHANGE mpi_rank m in
  (∀ n, n ∈ nodes_ m →
     n_mpi_ranks (node m' n) = touching_ranks m n
     ∧ (n ∈ domain_shared_nodes_ m'
        ↔ (1 < size (touching_ranks m n))%nat
          ∧ mpi_rank ∈ touching_ranks m n))
  ∧ (USE_HALO_EXCHANGE = false →
     nhalo_nodes_ m' = N.of_nat (length (shared_nodes m))
     ∧ ∀ k n, shared_nodes m !! k = Some n →
              n_ghost_id (node m' n) = N.of_nat k).
Proof.
  intros Hnd Hnodes Hcells m'. subst m'.
  rewrite find_domain_shared_nodes_unfold.
  set (a0 := shared_start USE_HALO_EXCHANGE m).
  destruct (shared_start_spec USE_HALO_EXCHANGE m)
    as (Hn0 & Hc0 & Hh0 & Hd0 & Hk0 & Hq0).
  fold a0 in Hn0, Hc0, Hh0, Hd0, Hk0, Hq0.
  destruct (shared_loop_frame USE_HALO_EXCHANGE mpi_rank (nodes_ m) a0)
    as (_ & _ & _ & _ & Hq1).
  assert (∀ q, q ∈ [] ++ nodes_ m →
               n_mpi_ranks (node a0 q) = touching_ranks m q
               ∧ n_id (node a0 q) = n_id (node m q)) as Hpre.
  { intros q Hq. destruct (Hq0 q) as (-> & _ & ->).
    rewrite decide_True by done. by rewrite (left_id_L ∅ (∪)). }
  split.
  - intros n Hn. destruct (Hq1 n) as [_ ->]. destruct (Hpre n Hn) as [-> _].
    split; [done|]. destruct USE_HALO_EXCHANGE; unfold shared_step.
    + rewrite (shared_loop_halo mpi_rank (touching_ranks m)
                 (λ q, n_id (node m q)) (nodes_ m) [] a0 Hpre Hnd Hd0).
      cbn. rewrite list_elem_of_filter.
      rewrite wrap32_small by (pose proof (touching_ranks_size m n); lia).
      split; [intros [[? ?] _]|intros [? ?]]; (split_and!; [lia|done..]).
    + destruct (shared_loop_allreduce mpi_rank (touching_ranks m)
                  (λ q, n_id (node m q)) (nodes_ m) [] a0 Hpre Hnd)
        as (_ & -> & _); [by destruct Hk0 as [-> _]|done|done|].
      cbn. rewrite list_elem_of_filter. tauto.
  - intros ->. unfold shared_step.
    destruct (shared_loop_allreduce mpi_rank (touching_ranks m)
                (λ q, n_id (node m q)) (nodes_ m) [] a0 Hpre Hnd)
      as (Hnh & _ & Hgh); [by destruct Hk0 as [-> _]|done|done|].
    change (filter _ ([] ++ nodes_ m)) with (shared_nodes m) in Hnh, Hgh.
    pose proof (length_filter (λ n, (1 < size (touching_ranks m n))%nat)
                  (nodes_ m)) as Hlen.
    fold (shared_nodes m) in Hlen.
    split.
    + rewrite Hnh. apply wrap32_small. lia.
    + intros k n Hk. rewrite (Hgh k n Hk). apply wrap32_small.
      apply lookup_lt_Some in Hk. lia.
Qed.

(** On the decomposed line, for rank 0 and without [USE_HALO_EXCHANGE]. *)
Lemma find_domain_shared_nodes_correct_witness :
  let m := decomposed_mesh (λ _, 0%Z) in
  let m' := find_domain_shared_nodes false 0 m in
  (∀ n, n ∈ nodes_ m →
     n_mpi_ranks (node m' n) = touching_ranks m n
     ∧ (n ∈ domain_shared_nodes_ m'
        ↔ (1 < size (touching_ranks m n))%nat ∧ 0%N ∈ touching_ranks m n))
  ∧ (false = false →
     nhalo_nodes_ m' = N.of_nat (length (shared_nodes m))
     ∧ ∀ k n, shared_nodes m !! k = Some n →
              n_ghost_id (node m' n) = N.of_nat k).
Proof.
  apply (find_domain_shared_nodes_correct false 0 (decomposed_mesh (λ _, 0%Z))).
  - apply (bool_decide_unpack _). by vm_compute.
  - by vm_compute.
  - by vm_compute.
Defined.

(** There the node with the id 2 is the one domain-shared node, with the
    ghost id 0. *)
Lemma decomposed_mesh_shared_node :
  let m' := find_domain_shared_nodes false 0 (decomposed_mesh (λ _, 0%Z)) in
  domain_shared_nodes_ m' = [3%positive]
  ∧ n_ghost_id (node m' 3%positive) = 0%N ∧ nhalo_nodes_ m' = 1%N.
Proof. by vm_compute. Qed.

(** C4, as stated, fails in the build with [USE_HALO_EXCHANGE]: both nodes
    of the three-rank mesh are touched by more than one rank; on rank 0
    they get the ghost ids 0 and 2, which skip 1, and on rank 3, which
    touches neither, they get none and keep the ghost id 9 they had. *)
Lemma halo_build_ghost_ids_not_dense :
  shared_nodes three_rank_mesh = [1; 2]%positive
  ∧ (let m' := find_domain_shared_nodes true 0 three_rank_mesh in
     n_ghost_id (node m' 1%positive) = 0%N
     ∧ n_ghost_id (node m' 2%positive) = 2%N)
  ∧ (let m' := find_domain_shared_nodes true 3 three_rank_mesh in
     n_ghost_id (node m' 1%positive) = 9%N
     ∧ n_ghost_id (node m' 2%positive) = 9%N).
Proof. by vm_compute. Qed.

(** ** Export and import of particle records *)

Section RoundTrip.
Context `{ParticleCodec}.

Lemma import_loop (m : Mesh) (l : list positive) :
  (∀ x material y, restores (initialise_particle (hdf5 x) material y) x) →
  ∀ cur,
  (∀ p, p ∈ l →
        is_Some (materials_ cur !! h_material_id (hdf5 (particle m p)))) →
  ∃ cur',
    for_each (zip l ((λ p, hdf5 (particle m p)) <$> l)) (λ '(p, record),
      let* m1 := get in
      match materials_ m1 !! h_material_id record with
      | None => throw "map::at"
      | Some material =>
          update_particle p (initialise_particle record material)
      end) cur = (Ok tt, cur')
    ∧ (∀ p, p ∈ l → restores (particle cur' p) (particle m p))
    ∧ (∀ p, p ∉ l → particle cur' p = particle cur p).
Proof.
  intros Hcodec. induction l as [|x l IH]; intros cur Hmat.
  - exists cur. split_and!; [done| |done]. by intros p ?%elem_of_nil.
  - cbn -[update_particle].
    destruct (Hmat x) as [material Hx]; [apply elem_of_cons; by left|].
    rewrite bind_assoc, bind_get. cbv beta. rewrite Hx.
    destruct (IH (update_particle x
                    (initialise_particle (hdf5 (particle m x)) material) cur).2)
      as (cur' & Hrun & Hin & Hout).
    { intros p Hp. cbn. apply Hmat, elem_of_cons. by right. }
    rewrite (bind_run _ _ cur tt
               (update_particle x
                  (initialise_particle (hdf5 (particle m x)) material) cur).2)
      by done.
    rewrite Hrun. exists cur'. split_and!; [done| |].
    + intros p [->|Hp]%elem_of_cons; [|by apply Hin].
      destruct (decide (x ∈ l)) as [Hxl|Hxl]; [by apply Hin|].
      rewrite (Hout x Hxl). unfold particle at 1. cbn.
      rewrite lookup_total_insert_eq. apply Hcodec.
    + intros p [Hne Hp]%not_elem_of_cons. rewrite (Hout p Hp).
      unfold particle at 1. cbn. by rewrite lookup_total_insert_ne.
Qed.

End RoundTrip.

Lemma plain_codec_restores x material y :
  restores (@initialise_particle plain_codec (@hdf5 plain_codec x) material y) x.
Proof. done. Qed.



(** ** Failures at the boundary of the mesh *)




(** ** The halo exchange *)

Lemma res_all_ok {A B} (f : A → Res B) (P : A → B → Prop) (l : list A) :
  (∀ x, x ∈ l → ∃ y, f x = Ok y ∧ P x y) →
  ∃ ys, res_all (f <$> l) = Ok ys ∧ Forall2 P l ys.
Proof.
  induction l as [|x l IH]; intros Hf; cbn.
  - exists []. by split.
  - destruct (Hf x) as (y & -> & Hy); [apply elem_of_cons; by left|].
    destruct IH as (ys & -> & Hys).
    { intros x' Hx'. apply Hf, elem_of_cons. by right. }
    exists (y :: ys). split; [done|]. by constructor.
Qed.

Section Sums.
Context {T : Type} (zero : T) (plus : T → T → T).
Context (Hmon : commutative_monoid zero plus).

Lemma plus_zero_r x : plus x zero = x.
Proof. destruct Hmon as (_ & Hcomm & Hid). by rewrite Hcomm, Hid. Qed.

Lemma foldl_plus v vs : foldl plus v vs = plus v (foldr plus zero vs).
Proof.
  destruct Hmon as (Hassoc & _ & _).
  revert v. induction vs as [|x vs IH]; intros v; cbn.
  - by rewrite plus_zero_r.
  - by rewrite IH, Hassoc.
Qed.

Lemma sum_one (vs : list T) k v :
  vs !! k = Some v →
  (∀ r x, vs !! r = Some x → r ≠ k → x = zero) →
  foldr plus zero vs = v.
Proof.
  destruct Hmon as (_ & _ & Hid).
  revert k. induction vs as [|x vs IH]; intros k Hk Hz; [done|]. cbn.
  destruct k as [|k]; cbn in Hk.
  - injection Hk as ->.
    assert (foldr plus zero vs = zero) as ->; [|apply plus_zero_r].
    clear IH. induction vs as [|y vs IH]; [done|]. cbn.
    rewrite (Hz 1%nat y), Hid by done. apply IH.
    intros r z Hr Hne. destruct r as [|r]; [done|].
    by apply (Hz (S (S r)) z).
  - rewrite (Hz 0%nat x), Hid by done. apply (IH k); [done|].
    intros r z Hr Hne. apply (Hz (S r) z); [done|lia].
Qed.

Lemma sum_two (vs : list T) r1 r2 v1 v2 :
  r1 ≠ r2 → vs !! r1 = Some v1 → vs !! r2 = Some v2 →
  (∀ r x, vs !! r = Some x → r ≠ r1 → r ≠ r2 → x = zero) →
  foldr plus zero vs = plus v1 v2.
Proof.
  destruct Hmon as (_ & Hcomm & Hid).
  revert r1 r2. induction vs as [|x vs IH]; intros r1 r2 Hne H1 H2 Hz; [done|].
  cbn. destruct r1 as [|r1], r2 as [|r2]; cbn in H1, H2; [done| | |].
  - injection H1 as ->. f_equal. apply (sum_one vs r2); [done|].
    intros r z Hr Hne'. apply (Hz (S r) z); [done|lia..].
  - injection H2 as ->. rewrite Hcomm. f_equal.
    apply (sum_one vs r1); [done|].
    intros r z Hr Hne'. apply (Hz (S r) z); [done|lia..].
  - rewrite (Hz 0%nat x), Hid by done. apply (IH r1 r2); [lia|done..|].
    intros r z Hr Hn1 Hn2. apply (Hz (S r) z); [done|lia..].
Qed.

(** The slot [g] of the sum of the buffers is the sum of the slots [g]. *)
Lemma reduce_column (rest : list (list T)) : ∀ (b : list T) g v,
  Forall (λ b', length b' = length b) rest →
  b !! g = Some v →
  length (foldl (zip_with plus) b rest) = length b
  ∧ foldl (zip_with plus) b rest !! g
    = Some (foldl plus v ((λ b', default zero (b' !! g)) <$> rest)).
Proof.
  induction rest as [|b' rest IH]; intros b g v Hlen Hg; cbn; [done|].
  apply Forall_cons in Hlen as [Hb' Hlen].
  assert (g < length b)%nat as Hlt by by eapply lookup_lt_Some.
  destruct (lookup_lt_is_Some_2 b' g) as [v' Hv']; [lia|].
  assert (length (zip_with plus b b') = length b) as Hzl
    by (rewrite length_zip_with; lia).
  destruct (IH (zip_with plus b b') g (plus v v')) as [Hl Hc].
  - eapply Forall_impl; [exact Hlen|]. cbn. intros; congruence.
  - rewrite lookup_zip_with, Hg. cbn. by rewrite Hv'.
  - rewrite Hv'. cbn. split; [congruence|done].
Qed.
End Sums.

Lemma omap_single {A B} (f : A → option B) (l : list A) x y :
  NoDup l → x ∈ l → f x = Some y → (∀ z, z ∈ l → z ≠ x → f z = None) →
  omap f l = [y].
Proof.
  induction l as [|a l IH]; intros Hnd Hx Hfx Hother; [by apply elem_of_nil in Hx|].
  apply NoDup_cons in Hnd as [Ha Hnd]. cbn.
  apply elem_of_cons in Hx as [<-|Hx].
  - rewrite Hfx. f_equal. clear IH.
    induction l as [|b l IH]; [done|]. cbn.
    apply not_elem_of_cons in Ha as [Hab Ha].
    apply NoDup_cons in Hnd as [_ Hnd].
    rewrite (Hother b); [|apply elem_of_cons; right; apply elem_of_cons; by left|done].
    apply IH; [done..|].
    intros z [->|Hz]%elem_of_cons Hzx; [done|].
    apply Hother; [|done]. apply elem_of_cons. right. apply elem_of_cons. by right.
  - rewrite (Hother a); [|apply elem_of_cons; by left|by intros ->].
    apply IH; [done..|]. intros z Hz Hzx. apply Hother; [|done].
    apply elem_of_cons. by right.
Qed.

Lemma singleton_list {A} (l : list A) a :
  NoDup l → (∀ x, x ∈ l ↔ x = a) → l = [a].
Proof.
  intros Hnd Hl. destruct l as [|x l].
  - pose proof (proj2 (Hl a) eq_refl) as Ha. by apply elem_of_nil in Ha.
  - assert (x = a) as -> by (apply Hl, elem_of_cons; by left).
    destruct l as [|y l]; [done|].
    apply NoDup_cons in Hnd as [Ha _].
    assert (y = a) as ->.
    { apply Hl. apply elem_of_cons. right. apply elem_of_cons. by left. }
    destruct Ha. apply elem_of_cons. by left.
Qed.

Lemma res_all_imap_ok {A B} (l : list A) :
  ∀ (P : nat → A → B → Prop) (f : nat → A → Res B),
  (∀ i x, l !! i = Some x → ∃ y, f i x = Ok y ∧ P i x y) →
  ∃ ys, res_all (imap f l) = Ok ys
        ∧ ∀ i x, l !! i = Some x → ∃ y, ys !! i = Some y ∧ P i x y.
Proof.
  induction l as [|a l IH]; intros P f Hf; cbn.
  - exists []. split; [done|]. by intros i x.
  - destruct (Hf 0%nat a eq_refl) as (y & -> & Hy).
    destruct (IH (λ i, P (S i)) (f ∘ S)) as (ys & -> & Hys).
    { intros i x Hi. apply (Hf (S i) x Hi). }
    exists (y :: ys). split; [done|].
    intros [|i] x Hi; cbn in *.
    + injection Hi as <-. by exists y.
    + destruct (Hys i x Hi) as (y' & ? & ?). by exists y'.
Qed.


Section ExchangeProofs.
Context {T : Type} (zero : T) (plus : T → T → T).
Context (getter : Node → T) (setter : Node → T → Node).
Context (Hmon : commutative_monoid zero plus).
Context (Hlens : property_lens getter setter).

Lemma gather_fold (m : Mesh) (l : list positive) : ∀ buf0,
  (∀ n, n ∈ l → (slot m n < length buf0)%nat) →
  NoDup ((λ n, n_ghost_id (node m n)) <$> l) →
  ∃ buf,
    foldl (λ acc n,
             res_bind acc (λ prop_get,
               let i := N.to_nat (n_ghost_id (node m n)) in
               if bool_decide (i < length prop_get)%nat
               then Ok (<[i := getter (node m n)]> prop_get)
               else Throw "vector::at"))
      (Ok buf0) l = Ok buf
    ∧ length buf = length buf0
    ∧ (∀ n, n ∈ l → buf !! slot m n = Some (getter (node m n)))
    ∧ (∀ g, (∀ n, n ∈ l → slot m n ≠ g) → buf !! g = buf0 !! g).
Proof.
  induction l as [|x l IH]; intros buf0 Hlt Hnd; cbn.
  - exists buf0. split_and!; [done..| |done]. by intros n ?%elem_of_nil.
  - rewrite bool_decide_eq_true_2 by (apply Hlt, elem_of_cons; by left).
    apply NoDup_cons in Hnd as [Hx Hnd].
    destruct (IH (<[slot m x := getter (node m x)]> buf0))
      as (buf & Hrun & Hlen & Hin & Hout).
    { intros n Hn. rewrite length_insert. apply Hlt, elem_of_cons. by right. }
    { done. }
    exists buf. rewrite length_insert in Hlen. split_and!; [done..| |].
    + intros n [->|Hn]%elem_of_cons; [|by apply Hin].
      rewrite Hout.
      * apply list_lookup_insert_eq, Hlt, elem_of_cons. by left.
      * intros n Hn Heq. apply Hx. apply list_elem_of_fmap.
        exists n. split; [|done]. unfold slot in Heq. lia.
    + intros g Hg. rewrite Hout.
      * apply list_lookup_insert_ne. apply Hg, elem_of_cons. by left.
      * intros n Hn. apply Hg, elem_of_cons. by right.
Qed.

Lemma gather_spec (m : Mesh) (nhalo : N) :
  nhalo_nodes_ m = nhalo →
  NoDup ((λ n, n_ghost_id (node m n)) <$> domain_shared_nodes_ m) →
  (∀ n, n ∈ domain_shared_nodes_ m → (n_ghost_id (node m n) < nhalo)%N) →
  ∃ buf, gather zero getter m = Ok buf
    ∧ length buf = N.to_nat nhalo
    ∧ (∀ n, n ∈ domain_shared_nodes_ m →
            buf !! slot m n = Some (getter (node m n)))
    ∧ (∀ g, (g < N.to_nat nhalo)%nat →
            (∀ n, n ∈ domain_shared_nodes_ m → slot m n ≠ g) →
            buf !! g = Some zero).
Proof.
  intros Hnh Hnd Hlt. unfold gather.
  destruct (gather_fold m (domain_shared_nodes_ m)
              (replicate (N.to_nat (nhalo_nodes_ m)) zero))
    as (buf & Hrun & Hlen & Hin & Hout).
  { intros n Hn. rewrite length_replicate, Hnh. unfold slot.
    specialize (Hlt n Hn). lia. }
  { done. }
  exists buf. rewrite length_replicate, Hnh in Hlen.
  split_and!; [done..|].
  intros g Hg Hfree. rewrite (Hout g Hfree).
  apply lookup_replicate_2. by rewrite Hnh.
Qed.

Lemma node_property_written (m : Mesh) n v q :
  node (set_objects (update_node n (λ x, setter x v) (objects m)) m) q
  = if decide (q = n) then setter (node m n) v else node m q.
Proof.
  unfold node. cbn -[update_node].
  apply (node_heap_update_node n (λ x, setter x v)).
Qed.

Lemma scatter_fold (prop_set : list T) (m : Mesh) (l : list positive) : ∀ m0,
  NoDup l →
  (∀ q, n_ghost_id (node m0 q) = n_ghost_id (node m q)) →
  (∀ n, n ∈ l → (slot m n < length prop_set)%nat) →
  ∃ m',
    foldl (λ acc n,
             res_bind acc (λ m',
               match prop_set !! N.to_nat (n_ghost_id (node m' n)) with
               | Some v =>
                   Ok (set_objects
                         (update_node n (λ x, setter x v) (objects m')) m')
               | None => Throw "vector::at"
               end))
      (Ok m0) l = Ok m'
    ∧ (∀ n v, n ∈ l → prop_set !! slot m n = Some v →
              getter (node m' n) = v)
    ∧ (∀ q, q ∉ l → node m' q = node m0 q).
Proof.
  induction l as [|x l IH]; intros m0 Hnd Hgh Hlt; cbn.
  - exists m0. split_and!; [done| |done]. by intros n v ?%elem_of_nil.
  - apply NoDup_cons in Hnd as [Hx Hnd]. rewrite Hgh. fold (slot m x).
    destruct (lookup_lt_is_Some_2 prop_set (slot m x)) as [v Hv].
    { apply Hlt, elem_of_cons. by left. }
    rewrite Hv.
    destruct (IH (set_objects
                    (update_node x (λ y, setter y v) (objects m0)) m0))
      as (m' & Hrun & Hin & Hout).
    { done. }
    { intros q. rewrite node_property_written.
      case_decide; [subst; rewrite <- Hgh; apply Hlens|apply Hgh]. }
    { intros n Hn. apply Hlt, elem_of_cons. by right. }
    exists m'. split_and!; [done| |].
    + intros n w [->|Hn]%elem_of_cons Hw; [|by apply Hin].
      rewrite (Hout x Hx), node_property_written, decide_True by done.
      assert (w = v) as -> by congruence. apply Hlens.
    + intros q [Hne Hq]%not_elem_of_cons.
      rewrite (Hout q Hq), node_property_written. by rewrite decide_False.
Qed.

Lemma scatter_spec (prop_set : list T) (m : Mesh) :
  NoDup (domain_shared_nodes_ m) →
  (∀ n, n ∈ domain_shared_nodes_ m → (slot m n < length prop_set)%nat) →
  ∃ m', scatter setter prop_set m = Ok m'
    ∧ ∀ n v, n ∈ domain_shared_nodes_ m → prop_set !! slot m n = Some v →
             getter (node m' n) = v.
Proof.
  intros Hnd Hlt. unfold scatter.
  destruct (scatter_fold prop_set m (domain_shared_nodes_ m) m Hnd)
    as (m' & Hrun & Hin & _); [done..|].
  by exists m'.
Qed.

Lemma allreduce_exchange_sums world nhalo r1 r2 m1 m2 n1 n2 :
  allreduce_ready world nhalo →
  shared_by_two false world r1 r2 m1 m2 n1 n2 →
  ∃ world',
    nodal_halo_exchange_allreduce zero plus getter setter world = Ok world'
    ∧ ∃ m1' m2', world' !! r1 = Some m1' ∧ world' !! r2 = Some m2'
        ∧ getter (node m1' n1)
          = plus (getter (node m1 n1)) (getter (node m2 n2))
        ∧ getter (node m2' n2)
          = plus (getter (node m1 n1)) (getter (node m2 n2)).
Proof.
  intros Hready (Hne & Hw1 & Hw2 & Hn1 & Hn2 & Hgh & Honly).
  set (g := slot m1 n1).
  assert (slot m2 n2 = g) as Hg2 by (unfold g, slot; by rewrite Hgh).
  assert (g < N.to_nat nhalo)%nat as Hg.
  { destruct (Hready m1) as (_ & _ & Hlt); [by eapply list_elem_of_lookup_2|].
    specialize (Hlt n1 Hn1). unfold g, slot. lia. }
  (* the first loop, on every process *)
  destruct (res_all_ok (gather zero getter)
              (λ m buf, length buf = N.to_nat nhalo
                 ∧ (∀ n, n ∈ domain_shared_nodes_ m →
                         buf !! slot m n = Some (getter (node m n)))
                 ∧ (∀ g, (g < N.to_nat nhalo)%nat →
                         (∀ n, n ∈ domain_shared_nodes_ m → slot m n ≠ g) →
                         buf !! g = Some zero)) world)
    as (bufs & Hgather & Hbufs).
  { intros m Hm. destruct (Hready m Hm) as (Hnh & Hnd & Hlt).
    by apply gather_spec. }
  unfold nodal_halo_exchange_allreduce. rewrite Hgather. cbn [res_bind].
  (* the reduction *)
  assert (Forall (λ b, length b = N.to_nat nhalo) bufs) as Hlengths.
  { apply Forall_forall. intros b Hb.
    apply list_elem_of_lookup in Hb as [r Hb].
    destruct (Forall2_lookup_r _ _ _ _ _ Hbufs Hb) as (m & _ & Hlen & _).
    exact Hlen. }
  destruct bufs as [|b rest].
  { apply Forall2_nil_inv_r in Hbufs. by rewrite Hbufs in Hw1. }
  apply Forall_cons in Hlengths as [Hb Hrest].
  assert (Forall (λ b', length b' = length b) rest) as Hrest'.
  { eapply Forall_impl; [exact Hrest|]. cbn. intros; congruence. }
  assert (all_reduce plus (b :: rest) = Some (foldl (zip_with plus) b rest))
    as Hreduce.
  { unfold all_reduce.
    assert (forallb (λ b', bool_decide (length b' = length b)) rest = true)
      as ->; [|done].
    apply forallb_forall. intros b' Hb'%list_elem_of_In.
    apply bool_decide_eq_true_2.
    by apply (proj1 (Forall_forall _ _) Hrest'). }
  rewrite Hreduce.
  set (prop_set := foldl (zip_with plus) b rest).
  destruct (lookup_lt_is_Some_2 b g) as [v0 Hv0]; [lia|].
  destruct (reduce_column zero plus rest b g v0 Hrest' Hv0) as [Hlen Hcol].
  fold prop_set in Hlen, Hcol.
  rewrite (foldl_plus zero plus Hmon) in Hcol.
  assert (prop_set !! g
          = Some (plus (getter (node m1 n1)) (getter (node m2 n2)))) as Hsum.
  { rewrite Hcol. f_equal.
    transitivity (foldr plus zero
                    ((λ b', default zero (b' !! g)) <$> (b :: rest))).
    { rewrite fmap_cons. cbn [foldr]. by rewrite Hv0. }
    apply (sum_two zero plus Hmon _ r1 r2); [done| | |].
    - rewrite list_lookup_fmap.
      destruct (Forall2_lookup_l _ _ _ _ _ Hbufs Hw1)
        as (b1 & -> & _ & Hin & _).
      cbn. unfold g. by rewrite (Hin n1 Hn1).
    - rewrite list_lookup_fmap.
      destruct (Forall2_lookup_l _ _ _ _ _ Hbufs Hw2)
        as (b2 & -> & _ & Hin & _).
      cbn. rewrite <- Hg2. by rewrite (Hin n2 Hn2).
    - intros r x. rewrite list_lookup_fmap. intros Hx Hr1 Hr2.
      destruct ((b :: rest) !! r) as [br|] eqn:Hbr; [|done].
      cbn in Hx. injection Hx as <-.
      destruct (Forall2_lookup_r _ _ _ _ _ Hbufs Hbr)
        as (m & Hm & _ & _ & Hout).
      rewrite (Hout g Hg); [done|].
      intros n Hn Hslot.
      destruct (Honly r m n Hm Hn); [|done..].
      unfold g, slot in Hslot. lia. }
  (* the second loop, on every process *)
  destruct (res_all_ok (scatter setter prop_set)
              (λ m m', ∀ n v, n ∈ domain_shared_nodes_ m →
                              prop_set !! slot m n = Some v →
                              getter (node m' n) = v) world)
    as (world' & Hscatter & Hworld').
  { intros m Hm. destruct (Hready m Hm) as (Hnh & Hnd & Hlt).
    apply scatter_spec.
    - by apply NoDup_fmap_1 in Hnd.
    - intros n Hn. specialize (Hlt n Hn). unfold slot. lia. }
  exists world'. split; [done|].
  destruct (Forall2_lookup_l _ _ _ _ _ Hworld' Hw1) as (m1' & Hm1' & Hp1).
  destruct (Forall2_lookup_l _ _ _ _ _ Hworld' Hw2) as (m2' & Hm2' & Hp2).
  exists m1', m2'. split_and!; [done..| |].
  - by apply Hp1.
  - apply Hp2; [done|]. by rewrite Hg2.
Qed.
(** A process sends one value per node id and neighbour. *)
Lemma sent_unique (ms : Mesh) (src dest : N) (ns : positive) :
  NoDup ((λ n, n_id (node ms n)) <$> domain_shared_nodes_ ms) →
  ns ∈ domain_shared_nodes_ ms →
  dest ∈ n_mpi_ranks (node ms ns) → dest ≠ src →
  sent getter ms src dest (n_id (node ms ns)) = [getter (node ms ns)].
Proof.
  intros Hnd Hns Hdest Hne. unfold sent.
  apply (omap_single _ _ ns).
  - by apply NoDup_fmap_1 in Hnd.
  - done.
  - by rewrite bool_decide_eq_true_2.
  - intros z Hz Hzn. rewrite bool_decide_eq_false_2; [done|].
    intros (Hid & _). apply Hzn.
    by apply (NoDup_fmap_inj_in _ _ _ _ Hnd).
Qed.

Lemma receive_from_ranks_spec world me tag (l : list N) :
  ∀ property taken,
  NoDup l →
  (∀ src, src ∈ l → src ≠ me →
     ∃ ms v, world !! N.to_nat src = Some ms
             ∧ sent getter ms src me tag = [v]) →
  (∀ src, src ∈ l → taken !! (src, tag) = None) →
  ∃ taken',
    receive_from_ranks plus getter world me tag l property taken
    = Ok (foldl plus property
            (peer_value zero getter world me tag
               <$> filter (λ src, src ≠ me) l), taken')
    ∧ ∀ key, key.2 ≠ tag → taken' !! key = taken !! key.
Proof.
  unfold receive_from_ranks.
  induction l as [|src l IH]; intros property taken Hnd Hpeer Htaken.
  - by exists taken.
  - apply NoDup_cons in Hnd as [Hsrc Hnd]. cbn [foldl res_bind].
    rewrite filter_cons. destruct (decide (src ≠ me)) as [Hne|Heq].
    + rewrite bool_decide_eq_true_2 by done.
      destruct (Hpeer src) as (ms & v & Hms & Hsent);
        [apply elem_of_cons; by left|done|].
      unfold receive at 2. rewrite Hms, (Htaken src), Hsent
        by (apply elem_of_cons; by left).
      cbn [default lookup list_lookup res_bind].
      destruct (IH (plus property v) (<[(src, tag) := 1%nat]> taken))
        as (taken' & Hrun & Hkeep); [done| | |].
      * intros s Hs. apply Hpeer, elem_of_cons. by right.
      * intros s Hs. rewrite lookup_insert_ne; [|by intros [= ->]].
        apply Htaken, elem_of_cons. by right.
      * exists taken'. split.
        -- rewrite Hrun. cbn [fmap list_fmap foldl]. do 3 f_equal.
           unfold peer_value. by rewrite Hms, Hsent.
        -- intros key Hkey. rewrite (Hkeep key Hkey).
           apply lookup_insert_ne. intros <-. done.
    + rewrite bool_decide_eq_false_2 by done.
      apply IH; [done| |].
      * intros s Hs. apply Hpeer, elem_of_cons. by right.
      * intros s Hs. apply Htaken, elem_of_cons. by right.
Qed.

Lemma receive_all_fold world me (m : Mesh) (l : list positive) :
  ∀ m0 taken,
  NoDup ((λ n, n_id (node m n)) <$> l) →
  (∀ n, n ∈ l → node m0 n = node m n) →
  (∀ n src, n ∈ l → src ∈ n_mpi_ranks (node m n) → src ≠ me →
     ∃ ms v, world !! N.to_nat src = Some ms
             ∧ sent getter ms src me (n_id (node m n)) = [v]) →
  (∀ n src, n ∈ l → taken !! (src, n_id (node m n)) = None) →
  ∃ m' taken',
    foldl (λ acc n,
             res_bind acc (λ '(m', taken),
               res_bind
                 (receive_from_ranks plus getter world me (n_id (node m' n))
                    (elements (n_mpi_ranks (node m' n)))
                    (getter (node m' n)) taken)
                 (λ '(property, taken'),
                   Ok (set_objects
                         (update_node n (λ x, setter x property)
                            (objects m')) m', taken'))))
      (Ok (m0, taken)) l = Ok (m', taken')
    ∧ (∀ n, n ∈ l →
         getter (node m' n)
         = foldl plus (getter (node m n))
             (peer_value zero getter world me (n_id (node m n))
                <$> filter (λ src, src ≠ me)
                      (elements (n_mpi_ranks (node m n)))))
    ∧ (∀ q, q ∉ l → node m' q = node m0 q).
Proof.
  induction l as [|x l IH]; intros m0 taken Hnd Hsame Hpeer Htaken.
  - exists m0, taken. split_and!; [done| |done]. by intros n ?%elem_of_nil.
  - rewrite fmap_cons in Hnd. apply NoDup_cons in Hnd as [Hx Hnd].
    assert (x ∉ l) as Hxl.
    { intros Hin. apply Hx. by apply (list_elem_of_fmap_2 (λ n, n_id (node m n))). }
    cbn [foldl res_bind].
    rewrite (Hsame x) by (apply elem_of_cons; by left).
    destruct (receive_from_ranks_spec world me (n_id (node m x))
                (elements (n_mpi_ranks (node m x)))
                (getter (node m x)) taken)
      as (taken1 & -> & Hkeep).
    { apply NoDup_elements. }
    { intros src Hsrc%elem_of_elements Hne.
      apply Hpeer; [apply elem_of_cons; by left|done..]. }
    { intros src _. apply Htaken, elem_of_cons. by left. }
    cbn [res_bind].
    match goal with |- context [Ok (?m1, taken1)] => set (m1' := m1) end.
    destruct (IH m1' taken1) as (m' & taken' & Hrun & Hin & Hout).
    { done. }
    { intros n Hn. unfold m1'. rewrite node_property_written, decide_False.
      - apply Hsame, elem_of_cons. by right.
      - by intros ->. }
    { intros n src Hn. apply Hpeer, elem_of_cons. by right. }
    { intros n src Hn. rewrite Hkeep.
      - apply Htaken, elem_of_cons. by right.
      - cbn. intros Heq. apply Hx. rewrite <- Heq.
        by apply (list_elem_of_fmap_2 (λ n, n_id (node m n))). }
    exists m', taken'. split_and!; [done| |].
    + intros n [->|Hn]%elem_of_cons; [|by apply Hin].
      rewrite (Hout x Hxl). unfold m1'.
      rewrite node_property_written, decide_True by done. apply Hlens.
    + intros q [Hne Hq]%not_elem_of_cons.
      rewrite (Hout q Hq). unfold m1'.
      by rewrite node_property_written, decide_False.
Qed.

Lemma receive_all_spec world me (m : Mesh) :
  NoDup ((λ n, n_id (node m n)) <$> domain_shared_nodes_ m) →
  (∀ n src, n ∈ domain_shared_nodes_ m →
     src ∈ n_mpi_ranks (node m n) → src ≠ me →
     ∃ ms v, world !! N.to_nat src = Some ms
             ∧ sent getter ms src me (n_id (node m n)) = [v]) →
  ∃ m', receive_all plus getter setter world me m = Ok m'
    ∧ ∀ n, n ∈ domain_shared_nodes_ m →
        getter (node m' n)
        = foldl plus (getter (node m n))
            (peer_value zero getter world me (n_id (node m n))
               <$> filter (λ src, src ≠ me)
                     (elements (n_mpi_ranks (node m n)))).
Proof.
  intros Hnd Hpeer. unfold receive_all.
  destruct (receive_all_fold world me m (domain_shared_nodes_ m) m ∅)
    as (m' & taken' & -> & Hin & _); [done..|].
  by exists m'.
Qed.

Lemma direct_exchange_sums world r1 r2 m1 m2 n1 n2 :
  direct_ready world →
  shared_by_two true world r1 r2 m1 m2 n1 n2 →
  ∃ world',
    nodal_halo_exchange_direct plus getter setter world = Ok world'
    ∧ ∃ m1' m2', world' !! r1 = Some m1' ∧ world' !! r2 = Some m2'
        ∧ getter (node m1' n1)
          = plus (getter (node m1 n1)) (getter (node m2 n2))
        ∧ getter (node m2' n2)
          = plus (getter (node m1 n1)) (getter (node m2 n2)).
Proof.
  intros [Hids Hpeers] (Hr & Hw1 & Hw2 & Hn1 & Hn2 & Hid & Hranks1 & Hranks2).
  assert (Hsent : ∀ me m n src,
            world !! me = Some m → n ∈ domain_shared_nodes_ m →
            src ∈ n_mpi_ranks (node m n) → src ≠ N.of_nat me →
            ∃ ms v, world !! N.to_nat src = Some ms
                    ∧ sent getter ms src (N.of_nat me) (n_id (node m n)) = [v]).
  { intros me m n src Hm Hn Hsrc Hne.
    destruct (Hpeers me m n src Hm Hn Hsrc Hne) as (ms & ns & Hms & Hns & Hidn & Hme).
    exists ms, (getter (node ms ns)). split; [done|].
    rewrite <- Hidn. apply sent_unique; [|done..].
    apply Hids. by apply list_elem_of_lookup_2 in Hms. }
  unfold nodal_halo_exchange_direct.
  rewrite bool_decide_eq_true_2.
  2:{ apply lookup_lt_Some in Hw1, Hw2. lia. }
  destruct (res_all_imap_ok world
    (λ me m m', ∀ n, n ∈ domain_shared_nodes_ m →
        getter (node m' n)
        = foldl plus (getter (node m n))
            (peer_value zero getter world (N.of_nat me) (n_id (node m n))
               <$> filter (λ src, src ≠ N.of_nat me)
                     (elements (n_mpi_ranks (node m n)))))
    (λ me m, receive_all plus getter setter world (N.of_nat me) m))
    as (world' & -> & Hworld').
  { intros me m Hm. apply receive_all_spec.
    - apply Hids. by apply list_elem_of_lookup_2 in Hm.
    - intros n src Hn Hsrc Hne. by apply (Hsent me m n src). }
  exists world'. split; [done|].
  destruct (Hworld' r1 m1 Hw1) as (m1' & Hm1' & Hp1).
  destruct (Hworld' r2 m2 Hw2) as (m2' & Hm2' & Hp2).
  exists m1', m2'. split_and!; [done..| |].
  - rewrite (Hp1 n1 Hn1), Hranks1.
    rewrite (singleton_list
               (filter (λ src, src ≠ N.of_nat r1)
                  (elements ({[N.of_nat r1; N.of_nat r2]} : gset N)))
               (N.of_nat r2)).
    + cbn. f_equal. unfold peer_value.
      rewrite Nat2N.id, Hw2, Hid.
      rewrite sent_unique; [done|..].
      * apply Hids. by apply list_elem_of_lookup_2 in Hw2.
      * done.
      * rewrite Hranks2. apply elem_of_union. left. by apply elem_of_singleton.
      * lia.
    + apply NoDup_filter, NoDup_elements.
    + intros x. rewrite list_elem_of_filter, elem_of_elements.
      rewrite elem_of_union, !elem_of_singleton. split.
      * intros [? [?|?]]; done.
      * intros ->. split; [lia|by right].
  - rewrite (Hp2 n2 Hn2), Hranks2.
    rewrite (singleton_list
               (filter (λ src, src ≠ N.of_nat r2)
                  (elements ({[N.of_nat r1; N.of_nat r2]} : gset N)))
               (N.of_nat r1)).
    + cbn. destruct Hmon as (_ & Hcomm & _). rewrite Hcomm. f_equal.
      unfold peer_value.
      rewrite Nat2N.id, Hw1, <- Hid.
      rewrite sent_unique; [done|..].
      * apply Hids. by apply list_elem_of_lookup_2 in Hw1.
      * done.
      * rewrite Hranks1. apply elem_of_union. right. by apply elem_of_singleton.
      * lia.
    + apply NoDup_filter, NoDup_elements.
    + intros x. rewrite list_elem_of_filter, elem_of_elements.
      rewrite elem_of_union, !elem_of_singleton. split.
      * intros [? [?|?]]; done.
      * intros ->. split; [lia|by left].
Qed.
End ExchangeProofs.


Lemma two_rank_world_shared_nodes (USE_HALO_EXCHANGE : bool) m :
  m ∈ two_rank_world USE_HALO_EXCHANGE →
  domain_shared_nodes_ m = [3%positive]
  ∧ n_id (node m 3%positive) = 2%N
  ∧ n_mpi_ranks (node m 3%positive) = {[0%N; 1%N]}
  ∧ (USE_HALO_EXCHANGE = false →
     n_ghost_id (node m 3%positive) = 0%N ∧ nhalo_nodes_ m = 1%N).
Proof.
  intros Hm. unfold two_rank_world in Hm.
  apply elem_of_cons in Hm as [->|Hm];
    [|apply elem_of_cons in Hm as [->|Hm]; [|by apply elem_of_nil in Hm]];
    destruct USE_HALO_EXCHANGE; split_and!; try done; by vm_compute.
Qed.

Lemma two_rank_world_allreduce_ready :
  allreduce_ready (two_rank_world false) 1.
Proof.
  intros m Hm.
  destruct (two_rank_world_shared_nodes false m Hm) as (Hd & _ & _ & Hg).
  destruct (Hg eq_refl) as [Hg3 Hnh]. rewrite Hd. split_and!.
  - done.
  - apply NoDup_singleton.
  - intros n ->%list_elem_of_singleton. rewrite Hg3. lia.
Qed.

Lemma two_rank_world_direct_ready : direct_ready (two_rank_world true).
Proof.
  split.
  - intros m Hm.
    destruct (two_rank_world_shared_nodes true m Hm) as (-> & _).
    apply NoDup_singleton.
  - intros me m n src Hme Hn Hsrc Hne.
    pose proof (list_elem_of_lookup_2 _ _ _ Hme) as Hm.
    destruct (two_rank_world_shared_nodes true m Hm) as (Hd & Hid & Hr & _).
    rewrite Hd in Hn. apply list_elem_of_singleton in Hn as ->.
    rewrite Hr in Hsrc. rewrite Hid.
    assert (∃ ms, two_rank_world true !! N.to_nat src = Some ms
                  ∧ N.of_nat me ∈ ({[0%N; 1%N]} : gset N)) as (ms & Hms & Hin).
    { apply elem_of_union in Hsrc as [Hsrc|Hsrc];
        apply elem_of_singleton in Hsrc as ->;
        destruct me as [|[|me]]; try done; eexists; (split; [done|]).
      - apply elem_of_union. right. by apply elem_of_singleton.
      - apply elem_of_union. left. by apply elem_of_singleton. }
    pose proof (list_elem_of_lookup_2 _ _ _ Hms) as Hms'.
    destruct (two_rank_world_shared_nodes true ms Hms') as (Hd' & Hid' & Hr' & _).
    exists ms, 3%positive. rewrite Hd', Hr'. split_and!; try done.
    by apply list_elem_of_singleton.
Qed.

Lemma two_rank_world_shared_by_two (USE_HALO_EXCHANGE : bool) :
  shared_by_two USE_HALO_EXCHANGE (two_rank_world USE_HALO_EXCHANGE) 0 1
    (find_domain_shared_nodes USE_HALO_EXCHANGE 0 (decomposed_mesh rank0_mass))
    (find_domain_shared_nodes USE_HALO_EXCHANGE 1 (decomposed_mesh rank1_mass))
    3%positive 3%positive.
Proof.
  assert (∀ m, m ∈ two_rank_world USE_HALO_EXCHANGE →
               3%positive ∈ domain_shared_nodes_ m) as Hin.
  { intros m Hm.
    destruct (two_rank_world_shared_nodes _ m Hm) as (-> & _).
    by apply list_elem_of_singleton. }
  split_and!; try done.
  - apply Hin, elem_of_cons. by left.
  - apply Hin, elem_of_cons. right. apply elem_of_cons. by left.
  - destruct USE_HALO_EXCHANGE.
    + split_and!; by vm_compute.
    + split; [by vm_compute|].
      intros [|[|r]] m n Hr _ _; [by left|by right|done].
Qed.


(** There the contributions 5 of rank 0 and 3 of rank 1 give 8 on both
    ranks, in both builds. *)
Lemma two_rank_world_five_and_three (USE_HALO_EXCHANGE : bool) :
  match nodal_halo_exchange 0%Z Z.add n_mass mass_setter USE_HALO_EXCHANGE
          (two_rank_world USE_HALO_EXCHANGE) with
  | Ok world' => (λ m, n_mass (node m 3%positive)) <$> world' = [8%Z; 8%Z]
  | _ => False
  end.
Proof. destruct USE_HALO_EXCHANGE; by vm_compute. Qed.

(** ** Instances on the line mesh *)

(** In two dimensions the direction 2 is refused and the direction 1 is
    accepted. *)
Lemma create_particle_velocity_constraint_direction_witness :
  let refused := {| vc_setid := -1; vc_dir := 2; vc_velocity := 7 |} in
  let accepted := {| vc_setid := -1; vc_dir := 1; vc_velocity := 7 |} in
  (let r := create_particle_velocity_constraint 2 (-1) refused empty_mesh in
   r.1 = Ok false
   ∧ particle_velocity_constraints_ r.2
     = particle_velocity_constraints_ empty_mesh)
  ∧ (let r := create_particle_velocity_constraint 2 (-1) accepted empty_mesh in
     r.1 = Ok true
     ∧ particle_velocity_constraints_ r.2
       = particle_velocity_constraints_ empty_mesh ++ [accepted]).
Proof.
  split.
  - apply (proj1 (create_particle_velocity_constraint_direction 2 (-1)
                    {| vc_setid := -1; vc_dir := 2; vc_velocity := 7 |}
                    empty_mesh)).
    simpl. lia.
  - apply (proj2 (create_particle_velocity_constraint_direction 2 (-1)
                    {| vc_setid := -1; vc_dir := 1; vc_velocity := 7 |}
                    empty_mesh)).
    + simpl. lia.
    + by left.
Defined.

(** The particle of the line mesh is removed, and its entry in the map of
    cell ids stays. *)
Lemma removals_keep_particles_cell_ids_witness :
  let m := located_mesh in
  let m' := (remove_particle 1%positive m).2 in
  (1%positive ∉ particles_ m')
  ∧ map_particles_ m' !! p_id (particle m 1%positive) = None
  ∧ particles_cell_ids m' !! p_id (particle m 1%positive)
    = particles_cell_ids m !! p_id (particle m 1%positive).
Proof.
  apply (proj2 (proj2 (proj2 (proj2
           (removals_keep_particles_cell_ids located_mesh)))) 1%positive).
  by vm_compute.
Defined.

(** The entry that stays is the cell id 1 under the particle id 0. *)
Lemma located_mesh_stale_entry :
  particles_ (remove_particle 1%positive located_mesh).2 = []
  ∧ particles_cell_ids (remove_particle 1%positive located_mesh).2 !! 0%N
    = Some 1%N.
Proof. by vm_compute. Qed.

(** * The rest of the mesh: properties *)

(** ** Operations that keep a property of the mesh *)

Lemma keeps_ret {A} (P : Mesh → Prop) (a : A) : keeps P (ret a).
Proof. by intros m. Qed.

Lemma keeps_throw {A} (P : Mesh → Prop) what : keeps P (throw what : M A).
Proof. by intros m. Qed.

Lemma keeps_get (P : Mesh → Prop) : keeps P get.
Proof. by intros m. Qed.

Lemma keeps_modify (P : Mesh → Prop) (g : Mesh → Mesh) :
  (∀ m, P m → P (g m)) → keeps P (modify g).
Proof. intros Hg m. apply Hg. Qed.

Lemma keeps_bind {A B} (P : Mesh → Prop) (c : M A) (k : A → M B) :
  keeps P c → (∀ a, keeps P (k a)) → keeps P (bind c k).
Proof.
  intros Hc Hk m Hm. unfold bind. specialize (Hc m Hm).
  destruct (c m) as [[a|what|] m1]; cbn in *; [by apply Hk|done..].
Qed.

Lemma keeps_get_bind {B} (P : Mesh → Prop) (k : Mesh → M B) :
  (∀ m, P m → keeps P (k m)) → keeps P (bind get k).
Proof. intros Hk m Hm. rewrite bind_get. by apply Hk. Qed.

Lemma keeps_if {A} (P : Mesh → Prop) (b : bool) (c1 c2 : M A) :
  keeps P c1 → keeps P c2 → keeps P (if b then c1 else c2).
Proof. by destruct b. Qed.

Lemma keeps_try_catch {A} (P : Mesh → Prop) (c : M A) handler :
  keeps P c → (∀ what, keeps P (handler what)) → keeps P (try_catch c handler).
Proof.
  intros Hc Hh m Hm. unfold try_catch. specialize (Hc m Hm).
  destruct (c m) as [[a|what|] m1]; cbn in *; [done|by apply Hh|done].
Qed.

Lemma keeps_for_each {A} (P : Mesh → Prop) (l : list A) body :
  (∀ x, keeps P (body x)) → keeps P (for_each l body).
Proof.
  intros Hbody. induction l as [|x l IH]; cbn.
  - apply keeps_ret.
  - apply keeps_bind; [apply Hbody|intros _; apply IH].
Qed.

Lemma keeps_console_error (P : Mesh → Prop) what :
  (∀ m v, P m → P (set_console_ v m)) → keeps P (console_error what).
Proof. intros HP. apply keeps_modify. intros m. apply HP. Qed.

Lemma preserves_keeps {A B} (f : Mesh → A) (Q : A → Prop) (c : M B) :
  preserves f c → keeps (λ m, Q (f m)) c.
Proof. intros Hc m Hm. by rewrite Hc. Qed.

(** ** The map of cell ids is written once *)

Section WriteOnce.
Context `{Element}.

Lemma insert_particle_keeps_cell_id p checks id c :
  keeps (λ m, particles_cell_ids_ m !! id = Some c) (insert_particle p checks).
Proof.
  intros m Hid. unfold insert_particle. cbn.
  destruct (Container.add _ _ _ _) as [b c']. cbn.
  change (particle (set_particles_ c' m) p) with (particle m p).
  destruct (particles_cell_ids_ m !! p_id (particle m p)) as [c0|] eqn:Hp;
    [done|].
  rewrite lookup_insert_ne; [done|]. intros Heq. by rewrite Heq, Hid in Hp.
Qed.

Lemma add_particle_keeps_cell_id p checks id c :
  keeps (λ m, particles_cell_ids_ m !! id = Some c) (add_particle p checks).
Proof.
  unfold add_particle. apply keeps_try_catch.
  - apply keeps_bind.
    + apply keeps_if; [|apply insert_particle_keeps_cell_id].
      apply keeps_bind.
      * apply (preserves_keeps particles_cell_ids_ (λ x, x !! id = Some c)).
        by apply object_op_preserves, locate_particle_cells_object_op.
      * intros located. apply keeps_if; [|apply keeps_throw].
        apply insert_particle_keeps_cell_id.
    + intros status. apply keeps_if; [apply keeps_ret|apply keeps_throw].
  - intros what. apply keeps_bind; [|intros _; apply keeps_ret].
    by apply keeps_console_error.
Qed.

(** X1. An entry of the map of particle ids to cell ids, once written,
    stays as it is through every sequence of additions and removals of
    nodes, cells and particles: [add_particle] inserts without overwriting
    and no removal erases. *)
Theorem particles_cell_ids_written_once (ops : list MeshOp) (m : Mesh)
    (id cid : Index) :
  particles_cell_ids m !! id = Some cid →
  particles_cell_ids (run_ops ops m) !! id = Some cid.
Proof.
  unfold particles_cell_ids, run_ops. revert m.
  induction ops as [|o ops IH]; intros m Hid; cbn [foldl]; [done|].
  apply IH. destruct o as [n b|n|c b|c|p b|p]; cbn [run_op].
  - unfold add_node. cbn. by destruct (Container.add _ _ _ _) as [[] ?].
  - unfold remove_node. cbn. destruct (Container.remove _ _) as [[] ?]; cbn;
      [by destruct (Map.remove _ _)|done].
  - unfold add_cell. cbn. by destruct (Container.add _ _ _ _) as [[] ?].
  - unfold remove_cell. cbn. destruct (Container.remove _ _) as [[] ?]; cbn;
      [by destruct (Map.remove _ _)|done].
  - by apply add_particle_keeps_cell_id.
  - by rewrite remove_particle_cell_ids.
Qed.
End WriteOnce.

(** The particle of the line mesh is removed and added again. *)
Lemma particles_cell_ids_written_once_witness :
  particles_cell_ids
    (@run_ops interval_element
       [RemoveParticle 1%positive; AddParticle 1%positive true] located_mesh)
    !! 0%N = Some 1%N.
Proof.
  apply (@particles_cell_ids_written_once interval_element
           [RemoveParticle 1%positive; AddParticle 1%positive true]
           located_mesh 0%N 1%N).
  by vm_compute.
Defined.

(** ** Particle sets *)

Lemma parallel_for_omap {A} (oper : Toper) (f : A → option ptr) (l : list A)
    (s : Store) :
  parallel_for 0 (length l)
    (λ i s, match l !! i with
            | Some x => match f x with Some p => oper p s | None => s end
            | None => s
            end) s
  = foldl (λ s p, oper p s) s (omap f l).
Proof.
  unfold parallel_for. rewrite Nat.sub_0_r.
  etransitivity;
    [exact (foldl_seq_lookup
              (λ x s, match f x with Some p => oper p s | None => s end)
              [] l s)|].
  revert s. induction l as [|x l IH]; intros s; cbn; [done|].
  destruct (f x) as [p|]; cbn; apply IH.
Qed.


Lemma foldl_insert_particle_set_keeps sets : ∀ acc k s,
  acc.2 !! k = Some s →
  (foldl insert_particle_set acc sets).2 !! k = Some s.
Proof.
  induction sets as [|e sets IH]; intros acc k s Hk; cbn; [done|].
  apply IH. unfold insert_particle_set.
  destruct (acc.2 !! wrap32 e.1) eqn:He; cbn; [done|].
  rewrite lookup_insert_ne; [done|]. intros Heq. by rewrite Heq, Hk in He.
Qed.

Lemma foldl_insert_particle_set_keys sets : ∀ acc k,
  is_Some ((foldl insert_particle_set acc sets).2 !! k)
  ↔ is_Some (acc.2 !! k) ∨ k ∈ (λ e, wrap32 e.1) <$> sets.
Proof.
  induction sets as [|e sets IH]; intros acc k; cbn.
  - split; [by left|]. intros [?|Hin]; [done|]. by apply elem_of_nil in Hin.
  - rewrite IH, elem_of_cons. unfold insert_particle_set.
    destruct (acc.2 !! wrap32 e.1) eqn:He; cbn.
    + split; [tauto|].
      intros [?|[->|?]]; [tauto| |tauto]. left. by rewrite He.
    + destruct (decide (k = wrap32 e.1)) as [->|Hne].
      * rewrite lookup_insert_eq. split; [tauto|]. intros _. by left.
      * rewrite lookup_insert_ne by done. tauto.
Qed.

Lemma foldl_insert_particle_set_fresh sets : ∀ acc id pids,
  NoDup ((λ e, wrap32 e.1) <$> sets) →
  (id, pids) ∈ sets →
  acc.2 !! wrap32 id = None →
  (foldl insert_particle_set acc sets).2 !! wrap32 id = Some pids.
Proof.
  induction sets as [|e sets IH]; intros acc id pids Hnd Hin Hnone;
    [by apply elem_of_nil in Hin|].
  cbn in Hnd. apply NoDup_cons in Hnd as [He Hnd]. cbn.
  apply elem_of_cons in Hin as [<-|Hin].
  - apply foldl_insert_particle_set_keeps. unfold insert_particle_set.
    cbn. rewrite Hnone. cbn. by rewrite lookup_insert_eq.
  - apply IH; [done..|]. unfold insert_particle_set.
    assert (wrap32 id ≠ wrap32 e.1) as Hne.
    { intros Heq. apply He. rewrite <- Heq.
      by apply (list_elem_of_fmap_2 (λ e, wrap32 e.1) _ (id, pids)). }
    destruct (acc.2 !! wrap32 e.1); cbn; [done|].
    by rewrite lookup_insert_ne.
Qed.

Lemma foldl_insert_particle_set_status sets : ∀ acc e,
  (foldl insert_particle_set acc (sets ++ [e])).1
  = bool_decide ((foldl insert_particle_set acc sets).2 !! wrap32 e.1 = None).
Proof.
  intros acc e. rewrite foldl_app. cbn. unfold insert_particle_set.
  by destruct (_ !! wrap32 e.1).
Qed.

(** X3. [create_particle_sets] returns normally and writes nothing but
    the map of the particle sets.  The sets that the mesh has stay as they
    are, a set of the argument whose id, as [unsigned], is new becomes the
    set under that id, and afterwards the map has the old ids and the ids
    of the argument.  The ids of the particles are not looked up. *)
Theorem create_particle_sets_extends
    (particle_sets : list (Index * list Index)) (check_duplicates : bool)
    (m : Mesh) :
  ∃ status sets,
    create_particle_sets particle_sets check_duplicates m
    = (Ok status, set_particle_sets_ sets m)
    ∧ (∀ k s, particle_sets_ m !! k = Some s → sets !! k = Some s)
    ∧ (∀ k, is_Some (sets !! k)
            ↔ is_Some (particle_sets_ m !! k)
              ∨ k ∈ (λ e, wrap32 e.1) <$> particle_sets)
    ∧ (NoDup ((λ e, wrap32 e.1) <$> particle_sets) →
       ∀ id pids, (id, pids) ∈ particle_sets →
                  particle_sets_ m !! wrap32 id = None →
                  sets !! wrap32 id = Some pids).
Proof.
  unfold create_particle_sets. rewrite bind_get. cbn.
  eexists _, _. split; [done|]. split_and!.
  - intros k s.
    apply (foldl_insert_particle_set_keeps _ (false, particle_sets_ m)).
  - intros k.
    apply (foldl_insert_particle_set_keys _ (false, particle_sets_ m)).
  - intros Hnd id pids Hin Hnone.
    by apply (foldl_insert_particle_set_fresh _ (false, particle_sets_ m)).
Qed.

(** X4. The status of [create_particle_sets] is that of the last set it
    visits: false when no set is given, and else true exactly when the id
    of the last set, as [unsigned], was the id of no set of the mesh and of
    no set visited before it. *)
Theorem create_particle_sets_status
    (particle_sets : list (Index * list Index)) (last : Index * list Index)
    (check_duplicates : bool) (m : Mesh) :
  (create_particle_sets [] check_duplicates m).1 = Ok false
  ∧ (create_particle_sets (particle_sets ++ [last]) check_duplicates m).1
    = Ok (bool_decide
            (particle_sets_ m !! wrap32 last.1 = None
             ∧ wrap32 last.1 ∉ (λ e, wrap32 e.1) <$> particle_sets)).
Proof.
  split; [done|].
  unfold create_particle_sets. rewrite bind_get. cbn.
  rewrite foldl_insert_particle_set_status. f_equal.
  apply bool_decide_ext.
  pose proof (foldl_insert_particle_set_keys particle_sets
                (false, particle_sets_ m) (wrap32 last.1)) as Hkeys.
  cbn in Hkeys. rewrite <- !not_eq_None_Some in Hkeys.
  destruct Hkeys as [H1 H2].
  destruct ((foldl insert_particle_set (false, particle_sets_ m)
               particle_sets).2 !! wrap32 last.1) as [s|] eqn:HF.
  - split; [done|]. intros [Hnone Hnin].
    destruct H1 as [?|?]; done.
  - split; [|done]. intros _. split.
    + destruct (particle_sets_ m !! wrap32 last.1) eqn:Hm; [|done].
      exfalso. apply H2; [by left|done].
    + intros Hin. apply H2; [by right|done].
Qed.


(** Two sets for the empty mesh. *)
Lemma create_particle_sets_extends_witness :
  ∃ status sets,
    create_particle_sets [(1%N, [0%N]); (2%N, [])] true empty_mesh
    = (Ok status, set_particle_sets_ sets empty_mesh)
    ∧ (∀ k s, particle_sets_ empty_mesh !! k = Some s → sets !! k = Some s)
    ∧ (∀ k, is_Some (sets !! k)
            ↔ is_Some (particle_sets_ empty_mesh !! k)
              ∨ k ∈ (λ e, wrap32 e.1) <$> [(1%N, [0%N]); (2%N, [])])
    ∧ (NoDup ((λ e, wrap32 e.1) <$> [(1%N, [0%N]); (2%N, [])]) →
       ∀ id pids, (id, pids) ∈ [(1%N, [0%N]); (2%N, [])] →
                  particle_sets_ empty_mesh !! wrap32 id = None →
                  sets !! wrap32 id = Some pids).
Proof.
  apply (create_particle_sets_extends [(1%N, [0%N]); (2%N, [])] true empty_mesh).
Defined.

(** ** Velocity constraints of particles *)

Lemma iterate_over_particle_set_resolves set_id oper m :
  set_id = (-1)%Z ∨ is_Some (particle_sets_ m !! to_unsigned set_id) →
  ∃ l, iterate_over_particle_set set_id oper m
       = (Ok tt, set_objects (foldl (λ s p, oper p s) (objects m) l) m).
Proof.
  intros Hset. unfold iterate_over_particle_set. case_bool_decide as Hid.
  - exists (particles_ m). unfold modify. by rewrite parallel_for_elements.
  - destruct Hset as [?|[set Hset]]; [done|]. rewrite bind_get, Hset.
    exists (omap (λ id, map_particles_ m !! wrap32 id) set).
    unfold modify. by rewrite <- parallel_for_omap.
Qed.

Section ApplyConstraintsProofs.
Context (apply_constraint : N → double → Particle → Particle).

Lemma constrain_fold c (l : list ptr) : ∀ s,
  node_heap (foldl (λ s p, constrain apply_constraint c p s) s l) = node_heap s
  ∧ cell_heap (foldl (λ s p, constrain apply_constraint c p s) s l)
    = cell_heap s.
Proof.
  induction l as [|p l IH]; intros s; cbn [foldl]; [done|].
  destruct (IH (constrain apply_constraint c p s)) as [-> ->]. done.
Qed.

Lemma constrain_loop (cs : list VelocityConstraint) : ∀ m,
  (∀ c, c ∈ cs → vc_setid c = (-1)%Z
                 ∨ is_Some (particle_sets_ m !! to_unsigned (vc_setid c))) →
  ∃ s, for_each cs (λ pvelocity,
         iterate_over_particle_set (vc_setid pvelocity)
           (constrain apply_constraint pvelocity)) m
       = (Ok tt, set_objects s m)
       ∧ node_heap s = node_heap (objects m)
       ∧ cell_heap s = cell_heap (objects m).
Proof.
  induction cs as [|c cs IH]; intros m Hres; cbn [for_each].
  - exists (objects m). by rewrite set_objects_id.
  - destruct (iterate_over_particle_set_resolves (vc_setid c)
                (constrain apply_constraint c) m) as (l & Hrun).
    { apply Hres, elem_of_cons. by left. }
    rewrite (bind_run _ _ _ _ _ Hrun).
    destruct (constrain_fold c l (objects m)) as [Hn Hc].
    destruct (IH (set_objects
                    (foldl (λ s p, constrain apply_constraint c p s)
                       (objects m) l) m)) as (s & -> & Hn' & Hc').
    { intros c' Hc'. apply Hres, elem_of_cons. by right. }
    exists s. cbn in *. split_and!; [done|congruence..].
Qed.

(** X5. When every stored velocity constraint has the set id -1 or the
    id of a particle set of the mesh, [apply_particle_velocity_constraints]
    returns, and all that it changes in the mesh is the particles behind
    the pointers: the containers, the maps, the sets, the constraints, the
    nodes and the cells stay as they are. *)
Theorem apply_particle_velocity_constraints_returns (m : Mesh) :
  constraints_resolve m →
  ∃ s, apply_particle_velocity_constraints apply_constraint m
       = (Ok tt, set_objects s m)
       ∧ node_heap s = node_heap (objects m)
       ∧ cell_heap s = cell_heap (objects m).
Proof.
  intros Hres. unfold apply_particle_velocity_constraints.
  rewrite bind_get. by apply constrain_loop.
Qed.
End ApplyConstraintsProofs.

(** X6. A velocity constraint that is created under its own set id, and
    the creation of particle sets, keep every stored velocity constraint
    resolvable: its set id is -1 or the id of a particle set of the
    mesh. *)
Theorem constraints_resolve_kept (Tdim : N) (c : VelocityConstraint)
    (particle_sets : list (Index * list Index)) (check_duplicates : bool)
    (m : Mesh) :
  constraints_resolve m →
  constraints_resolve
    (create_particle_velocity_constraint Tdim (vc_setid c) c m).2
  ∧ constraints_resolve
      (create_particle_sets particle_sets check_duplicates m).2.
Proof.
  intros Hres. split.
  - unfold create_particle_velocity_constraint, try_catch.
    rewrite bind_get.
    destruct (bool_decide (vc_setid c = (-1)%Z)
              || bool_decide (is_Some (particle_sets_ m
                                         !! to_unsigned (vc_setid c))))
      eqn:Hset; [|done].
    destruct (vc_dir c <? Tdim)%N; [|done]. cbn.
    intros c' Hc'. cbn in Hc'.
    apply elem_of_app in Hc' as [Hc'|Hc']; [by apply Hres|].
    apply list_elem_of_singleton in Hc' as ->. cbn.
    apply orb_true_iff in Hset as [Hset|Hset];
      apply bool_decide_eq_true in Hset; auto.
  - unfold create_particle_sets. rewrite bind_get. cbn.
    intros c' Hc'. cbn in *.
    destruct (Hres c' Hc') as [?|[s Hs]]; [by left|right].
    exists s.
    by apply (foldl_insert_particle_set_keeps _ (false, particle_sets_ m)).
Qed.

(** A constraint on the set 7, created after the set. *)
Lemma constraints_resolve_kept_witness :
  let c := {| vc_setid := 7; vc_dir := 0; vc_velocity := 1 |} in
  let m := set_particle_sets_ {[ 7%N := [0%N] ]} empty_mesh in
  constraints_resolve (create_particle_velocity_constraint 2 (vc_setid c) c m).2
  ∧ constraints_resolve (create_particle_sets [(8%N, [])] true m).2.
Proof.
  apply (constraints_resolve_kept 2
           {| vc_setid := 7; vc_dir := 0; vc_velocity := 1 |} [(8%N, [])] true
           (set_particle_sets_ {[ 7%N := [0%N] ]} empty_mesh)).
  intros c Hc. vm_compute in Hc. by apply elem_of_nil in Hc.
Defined.

(** The constraint on the set 7 is applied to the particle mesh. *)
Lemma apply_particle_velocity_constraints_returns_witness :
  let m := set_particle_velocity_constraints_
             [{| vc_setid := 7; vc_dir := 0; vc_velocity := 1 |}]
             (set_particle_sets_ {[ 7%N := [0%N] ]} (particle_mesh 15 ∅)) in
  ∃ s, apply_particle_velocity_constraints (λ _ _ x, x) m
       = (Ok tt, set_objects s m)
       ∧ node_heap s = node_heap (objects m)
       ∧ cell_heap s = cell_heap (objects m).
Proof.
  apply (apply_particle_velocity_constraints_returns (λ _ _ x, x)
           (set_particle_velocity_constraints_
              [{| vc_setid := 7; vc_dir := 0; vc_velocity := 1 |}]
              (set_particle_sets_ {[ 7%N := [0%N] ]} (particle_mesh 15 ∅)))).
  intros c Hc. apply list_elem_of_singleton in Hc as ->. right.
  by exists [0%N].
Defined.

(** ** Bulk removal of particles *)

Lemma drop_particle_id_spec id q m :
  map_particles_ m !! id = Some q →
  ∃ m', drop_particle_id id m = (Ok tt, m')
        ∧ dropped (base.delete id (map_particles_ m)) m m'.
Proof.
  intros Hq. unfold drop_particle_id. rewrite bind_get.
  unfold Map.at_. rewrite Hq. rewrite bind_ret.
  destruct (remove_cell_objects_only q m) as (m1 & Hrun & s & -> & Hst).
  rewrite (bind_run _ _ _ _ _ Hrun). unfold modify, Map.remove. cbn.
  rewrite Hq. cbn. eexists. split; [done|]. by exists s.
Qed.

Lemma dropped_trans mp1 mp2 m1 m2 m3 :
  dropped mp1 m1 m2 → dropped mp2 m2 m3 → dropped mp2 m1 m3.
Proof.
  intros (s1 & -> & H1) (s2 & -> & H2). exists s2. split; [done|].
  by apply (stable_trans _ s1).
Qed.

Lemma drop_particle_ids_spec (pids : list Index) : ∀ m,
  NoDup pids →
  (∀ id, id ∈ pids → is_Some (map_particles_ m !! id)) →
  ∃ m' mp, for_each pids drop_particle_id m = (Ok tt, m')
    ∧ dropped mp m m'
    ∧ ∀ i, mp !! i = if decide (i ∈ pids) then None else map_particles_ m !! i.
Proof.
  induction pids as [|id pids IH]; intros m Hnd Hin; cbn [for_each].
  - exists m, (map_particles_ m). split_and!; [done| |].
    + exists (objects m). split; [by destruct m|apply stable_refl].
    + intros i. rewrite decide_False; [done|]. by intros ?%elem_of_nil.
  - apply NoDup_cons in Hnd as [Hid Hnd].
    destruct (Hin id) as [q Hq]; [apply elem_of_cons; by left|].
    destruct (drop_particle_id_spec id q m Hq) as (m1 & Hrun & Hd1).
    rewrite (bind_run _ _ _ _ _ Hrun).
    assert (map_particles_ m1 = base.delete id (map_particles_ m)) as Hmp1
      by by destruct Hd1 as (s & -> & _).
    destruct (IH m1 Hnd) as (m' & mp & -> & Hd & Hlook).
    { intros i Hi. rewrite Hmp1, lookup_delete_ne.
      - apply Hin, elem_of_cons. by right.
      - by intros ->. }
    exists m', mp. split_and!; [done|by eapply dropped_trans|].
    intros i. rewrite Hlook, Hmp1.
    destruct (decide (i ∈ pids)) as [Hi|Hi].
    + rewrite decide_True; [done|]. apply elem_of_cons. by right.
    + destruct (decide (i = id)) as [->|Hne].
      * rewrite lookup_delete_eq, decide_True; [done|].
        apply elem_of_cons. by left.
      * rewrite lookup_delete_ne by done. rewrite decide_False; [done|].
        by intros [?|?]%elem_of_cons.
Qed.

Lemma container_add_unchecked (id_of : ptr → Index) (l : list ptr) : ∀ acc,
  foldl (λ c q, (Container.add id_of c q false).2) acc l = acc ++ l.
Proof.
  induction l as [|q l IH]; intros acc; cbn [foldl].
  - by rewrite app_nil_r.
  - rewrite IH. unfold Container.add. cbn. by rewrite <- (assoc_L (++)).
Qed.

Lemma rebuild_particles_spec m :
  rebuild_particles m
  = (Ok tt, set_particles_ ((map_to_list (map_particles_ m)).*2) m).
Proof.
  unfold rebuild_particles, modify. by rewrite container_add_unchecked.
Qed.

(** The values of an id map whose entries sit under their own ids are a
    container in step with the map. *)
Lemma in_sync_map_values (id_of : ptr → Index) (mp : gmap N positive) :
  (∀ i p, mp !! i = Some p → id_of p = i) →
  in_sync id_of ((map_to_list mp).*2) mp.
Proof.
  intros Hkey. split.
  - rewrite <- list_fmap_compose.
    rewrite (list_fmap_ext (id_of ∘ snd) fst (map_to_list mp)).
    + apply NoDup_fst_map_to_list.
    + intros k [i p] Hk. cbn. apply Hkey.
      apply elem_of_map_to_list. by eapply list_elem_of_lookup_2.
  - intros i p. split.
    + intros Hp. split; [|by apply Hkey].
      apply list_elem_of_fmap. exists (i, p). split; [done|].
      by apply elem_of_map_to_list.
    + intros [Hp <-]. apply list_elem_of_fmap in Hp as ([j q] & -> & Hq).
      apply elem_of_map_to_list in Hq. cbn. by rewrite (Hkey j q Hq).
Qed.



(** ** Particles that left the mesh *)

Lemma update_particle_others p f q :
  q ≠ p → preserves (λ m, particle m q) (update_particle p f).
Proof.
  intros Hne. apply preserves_modify. intros m. unfold particle. cbn.
  by rewrite lookup_total_insert_ne.
Qed.

Lemma update_cell_particles c f q :
  preserves (λ m, particle m q) (update_cell c f).
Proof. by apply preserves_modify. Qed.

Lemma leave_cell_others p q :
  preserves (λ m, particle m q) (ParticleBase.leave_cell p).
Proof.
  intros m. destruct (leave_cell_particles p m) as (m' & -> & _ & Hq).
  apply Hq.
Qed.

Lemma assign_cell_others p c q :
  q ≠ p → preserves (λ m, particle m q) (ParticleBase.assign_cell p c).
Proof.
  intros Hne. unfold ParticleBase.assign_cell.
  apply preserves_bind; [apply leave_cell_others|]. intros _.
  apply preserves_bind; [apply preserves_get|]. intros m.
  apply preserves_bind; [by apply update_particle_others|]. intros _.
  apply update_cell_particles.
Qed.

Lemma assign_cell_xi_others p c xi q :
  q ≠ p → preserves (λ m, particle m q) (ParticleBase.assign_cell_xi p c xi).
Proof.
  intros Hne. unfold ParticleBase.assign_cell_xi.
  apply preserves_bind; [apply leave_cell_others|]. intros _.
  apply preserves_bind; [apply preserves_get|]. intros m.
  apply preserves_bind; [by apply update_particle_others|]. intros _.
  apply update_cell_particles.
Qed.

Section LocateAllProofs.
Context `{Element}.

Lemma compute_reference_location_others p q :
  q ≠ p →
  preserves (λ m, particle m q) (ParticleBase.compute_reference_location p).
Proof.
  intros Hne. unfold ParticleBase.compute_reference_location.
  apply preserves_bind; [apply preserves_get|]. intros m.
  destruct (p_cell (particle m p)) as [c|]; [|apply preserves_ret].
  destruct (is_point_in_cell c _); [|apply preserves_ret].
  apply preserves_bind; [by apply update_particle_others|]. intros _.
  apply preserves_ret.
Qed.

Lemma locate_in_neighbours_others p x neighbours q :
  q ≠ p → preserves (λ m, particle m q) (locate_in_neighbours p x neighbours).
Proof.
  intros Hne. induction neighbours as [|n rest IH]; cbn [locate_in_neighbours].
  - apply preserves_ret.
  - apply preserves_bind; [apply preserves_get|]. intros m.
    apply preserves_bind; [apply preserves_at|]. intros c.
    destruct (is_point_in_cell c x); [|apply IH].
    apply preserves_bind; [by apply assign_cell_xi_others|]. intros _.
    apply preserves_ret.
Qed.

Lemma locate_in_cells_others p status cells q :
  q ≠ p → preserves (λ m, particle m q) (locate_in_cells p status cells).
Proof.
  intros Hne. revert status.
  induction cells as [|c rest IH]; intros status; cbn [locate_in_cells].
  - apply preserves_ret.
  - apply preserves_bind; [|intros b; apply IH].
    unfold locate_in_cell.
    apply preserves_bind; [apply preserves_get|]. intros m.
    destruct (negb status); [|apply preserves_ret].
    destruct (is_point_in_cell c _); [|apply preserves_ret].
    apply preserves_bind; [by apply assign_cell_xi_others|]. intros _.
    apply preserves_ret.
Qed.

Lemma locate_particle_cells_others p q :
  q ≠ p → preserves (λ m, particle m q) (locate_particle_cells p).
Proof.
  intros Hne. unfold locate_particle_cells.
  apply preserves_bind; [apply preserves_get|]. intros m.
  apply preserves_bind.
  - apply preserves_if; [|apply preserves_ret].
    apply preserves_bind.
    + destruct (p_cell (particle m p)); [apply preserves_ret|].
      apply preserves_bind; [apply preserves_at|]. intros c.
      by apply assign_cell_others.
    + intros _. apply preserves_bind;
        [by apply compute_reference_location_others|].
      intros located. apply preserves_if; [apply preserves_ret|].
      apply preserves_bind; [apply preserves_get|]. intros m1.
      apply preserves_bind; [apply preserves_at|]. intros c.
      by apply locate_in_neighbours_others.
  - intros found. apply preserves_if; [apply preserves_ret|].
    apply preserves_bind; [apply preserves_get|]. intros m2.
    by apply locate_in_cells_others.
Qed.

(** What [locate_particle_cells] returns and where it leaves the
    particle. *)
Lemma locate_particle_cells_spec (p : ptr) (m : Mesh) :
  locatable m p →
  ∃ b m', locate_particle_cells p m = (Ok b, m')
    ∧ (b = true ↔ ∃ c, c ∈ cells_ m
                       ∧ contains c (p_coordinates (particle m p)))
    ∧ (b = true → ∃ c, p_cell (particle m' p) = Some c ∧ c ∈ cells_ m'
                       ∧ contains c (p_coordinates (particle m' p))).
Proof.
  intros (Hsync & Hcur & Hptr & Hnb).
  (* the scan over all the cells, from any mesh reached so far *)
  assert (∀ m2, frame m m2 →
    ∃ b m', locate_in_cells p false (cells_ m2) m2 = (Ok b, m')
      ∧ (b = true ↔ ∃ c, c ∈ cells_ m
                         ∧ contains c (p_coordinates (particle m p)))
      ∧ (b = true → ∃ c, p_cell (particle m' p) = Some c ∧ c ∈ cells_ m'
                         ∧ contains c (p_coordinates (particle m' p))))
    as Hscan.
  { intros m2 Hf2.
    destruct (locate_in_cells_spec p (cells_ m2) false m2)
      as (b & m' & Hrun & Hf & _ & Hfalse).
    destruct (Hfalse eq_refl) as [Hiff Hcell].
    rewrite (frame_cells _ _ Hf2), (frame_coordinates _ _ p Hf2) in *.
    exists b, m'. split_and!; [done..|]. intros Hb.
    destruct (Hcell Hb) as (c & ? & ? & ?). exists c.
    assert (frame m m') as Hf' by by eapply frame_trans.
    by rewrite (frame_cells _ _ Hf'), (frame_coordinates _ _ p Hf'). }
  (* an early return with the particle in a cell [c] of the mesh *)
  assert (∀ m' c, frame m m' → p_cell (particle m' p) = Some c →
    c ∈ cells_ m → contains c (p_coordinates (particle m p)) →
    (true = true ↔ ∃ c, c ∈ cells_ m
                        ∧ contains c (p_coordinates (particle m p)))
    ∧ (true = true → ∃ c, p_cell (particle m' p) = Some c ∧ c ∈ cells_ m'
                          ∧ contains c (p_coordinates (particle m' p))))
    as Hearly.
  { intros m' c Hf Hcell Hin Hc. split.
    - split; [|done]. intros _. by exists c.
    - intros _. exists c.
      by rewrite (frame_cells _ _ Hf), (frame_coordinates _ _ p Hf). }
  unfold locate_particle_cells. cbn -[locate_in_cells locate_in_neighbours
    ParticleBase.assign_cell ParticleBase.compute_reference_location].
  case_bool_decide as Hid; cbn -[locate_in_cells locate_in_neighbours
    ParticleBase.assign_cell ParticleBase.compute_reference_location];
    [|apply Hscan, frame_refl].
  destruct (Hcur Hid) as [c0 Hc0].
  (* the particle has its cell once the pointer is set *)
  assert (∃ m1 c1, (match p_cell (particle m p) with
                    | Some _ => ret tt
                    | None =>
                        let* c := Map.at_ (map_cells_ m)
                                    (p_cell_id (particle m p)) in
                        ParticleBase.assign_cell p c
                    end) m = (Ok tt, m1)
            ∧ frame m m1 ∧ p_cell (particle m1 p) = Some c1
            ∧ c1 ∈ cells_ m
            ∧ p_cell_id (particle m1 p) = p_cell_id (particle m p))
    as (m1 & c1 & Hrun1 & Hf1 & Hcell1 & Hin1 & Hid1).
  { destruct (p_cell (particle m p)) as [c1|] eqn:Hc1.
    - exists m, c1. split_and!; [done|apply frame_refl|done|by apply Hptr|done].
    - unfold Map.at_. rewrite Hc0. cbn -[ParticleBase.assign_cell].
      destruct (assign_cell_spec p c0 m) as (m1 & Hrun & Hf & Hcell & Hcid).
      exists m1, c0. split_and!; [done..|by apply (Hsync _ _ Hc0)|].
      rewrite Hcid. by apply (Hsync _ _ Hc0). }
  rewrite !bind_assoc.
  rewrite (bind_run _ _ _ _ _ Hrun1). cbv beta. rewrite ?bind_assoc.
  destruct (compute_reference_location_spec p m1)
    as (b2 & m2 & Hrun2 & Hf2 & Hcell2 & Hid2 & Hb2).
  rewrite (bind_run _ _ _ _ _ Hrun2). cbv beta.
  assert (frame m m2) as Hfm2 by by eapply frame_trans.
  destruct b2.
  - (* found in the current cell *)
    cbn. exists true, m2.
    destruct (proj1 Hb2 eq_refl) as (c & Hc & Hcont).
    rewrite Hcell1 in Hc. injection Hc as <-.
    rewrite (frame_coordinates _ _ p Hf1) in Hcont.
    split; [done|]. apply (Hearly m2 c1); [done|congruence|done..].
  - rewrite !bind_assoc. cbn -[locate_in_cells locate_in_neighbours].
    rewrite (frame_map_cells _ _ Hfm2), Hid2, Hid1.
    unfold Map.at_. rewrite Hc0. cbn -[locate_in_cells locate_in_neighbours].
    rewrite bind_assoc, bind_ret.
    destruct (locate_in_neighbours_spec p (p_coordinates (particle m2 p))
                (c_neighbours (cell m2 c0)) m2)
      as (b3 & m3 & Hrun3 & Hf3 & Hb3).
    { intros n Hn. rewrite (frame_map_cells _ _ Hfm2).
      apply (Hnb _ _ _ Hc0). by rewrite <- (frame_neighbours _ _ c0 Hfm2). }
    rewrite (bind_run _ _ _ _ _ Hrun3). cbv beta.
    assert (frame m m3) as Hfm3 by by eapply frame_trans.
    destruct b3.
    + (* found in a neighbour *)
      cbn. exists true, m3. split; [done|].
      destruct (Hb3 eq_refl) as (n & c & Hn & Hc & Hcont & Hcell).
      rewrite (frame_map_cells _ _ Hfm2) in Hc.
      rewrite (frame_coordinates _ _ p Hfm2) in Hcont.
      apply (Hearly m3 c); [done..|by apply (Hsync _ _ Hc)|done].
    + cbn -[locate_in_cells]. by apply Hscan.
Qed.

Lemma locatable_frame m m' q :
  frame m m' → particle m' q = particle m q → locatable m q → locatable m' q.
Proof.
  intros Hf Hq (Hsync & Hcur & Hptr & Hnb). unfold locatable.
  rewrite (frame_map_cells _ _ Hf), (frame_cells _ _ Hf), Hq.
  split_and!; [|done..|].
  - intros i c Hc. rewrite (frame_c_id _ _ c Hf). by apply Hsync.
  - intros i c n Hc. rewrite (frame_neighbours _ _ c Hf). by apply (Hnb i).
Qed.

Lemma in_mesh_frame m m' q : frame m m' → in_mesh m' q ↔ in_mesh m q.
Proof.
  intros Hf. unfold in_mesh.
  by rewrite (frame_cells _ _ Hf), (frame_coordinates _ _ q Hf).
Qed.

Lemma locate_particles_loop_spec (m : Mesh) (ps : list ptr) :
  ∀ acc m2,
  frame m m2 → NoDup ps → (∀ p, p ∈ ps → locatable m2 p) →
  ∃ m', locate_particles_loop ps acc m2
        = (Ok (acc ++ filter (λ p, ¬ in_mesh m p) ps), m')
    ∧ frame m2 m'
    ∧ (∀ q, q ∉ ps → particle m' q = particle m2 q)
    ∧ (∀ p, p ∈ ps → in_mesh m p →
         ∃ c, p_cell (particle m' p) = Some c ∧ c ∈ cells_ m
              ∧ contains c (p_coordinates (particle m' p))).
Proof.
  induction ps as [|p ps IH]; intros acc m2 Hf Hnd Hloc;
    cbn [locate_particles_loop].
  - exists m2. rewrite app_nil_r.
    split_and!; [done|apply frame_refl|done|]. by intros p ?%elem_of_nil.
  - apply NoDup_cons in Hnd as [Hp Hnd].
    destruct (locate_particle_cells_spec p m2) as (b & m3 & Hrun & Hb & Hcell).
    { apply Hloc, elem_of_cons. by left. }
    rewrite (bind_run _ _ _ _ _ Hrun).
    assert (frame m2 m3) as Hf23.
    { pose proof (locate_particle_cells_object_op p m2) as [_ Hfr].
      by rewrite Hrun in Hfr. }
    assert (∀ q, q ≠ p → particle m3 q = particle m2 q) as Hothers.
    { intros q Hq. pose proof (locate_particle_cells_others p q Hq m2) as Ho.
      by rewrite Hrun in Ho. }
    assert (frame m m3) as Hf3 by by eapply frame_trans.
    destruct (IH (if b then acc else acc ++ [p]) m3 Hf3 Hnd)
      as (m' & Hloop & Hf' & Hout & Hin).
    { intros q Hq. apply (locatable_frame m2); [done| |].
      - apply Hothers. by intros ->.
      - apply Hloc, elem_of_cons. by right. }
    assert (b = true ↔ in_mesh m p) as Hbm.
    { rewrite Hb, <- (in_mesh_frame m m2 p Hf). unfold in_mesh.
      rewrite Exists_exists. done. }
    exists m'. split_and!.
    + rewrite Hloop. f_equal. rewrite filter_cons.
      destruct b.
      * rewrite decide_False; [done|]. intros Hn. by apply Hn, Hbm.
      * rewrite decide_True; [by rewrite <- (assoc_L (++))|].
        intros Hm. by apply Hbm in Hm.
    + by eapply frame_trans.
    + intros q [Hqp Hq]%not_elem_of_cons.
      rewrite (Hout q Hq). by apply Hothers.
    + intros q [->|Hq]%elem_of_cons Hm; [|by apply Hin].
      destruct (Hcell (proj2 Hbm Hm)) as (c & Hc & Hcin & Hcont).
      exists c. rewrite (Hout p Hp).
      split_and!; [done| |done].
      by rewrite <- (frame_cells _ _ Hf3).
Qed.

(** X8. On a mesh that is well formed around each of its particles, no
    pointer twice in the container, [locate_particles_mesh] returns the
    particles whose coordinates no cell of the mesh contains, in the order
    of the container; every other particle of the container is left in a
    cell of the mesh that contains its coordinates.  Containers, maps,
    nodes and the ids and coordinates of the particles stay as they are. *)
Theorem locate_particles_mesh_lists_unlocated (m : Mesh) :
  NoDup (particles_ m) →
  (∀ p, p ∈ particles_ m → locatable m p) →
  ∃ m', locate_particles_mesh m
        = (Ok (filter (λ p, ¬ in_mesh m p) (particles_ m)), m')
    ∧ frame m m'
    ∧ (∀ p, p ∈ particles_ m → in_mesh m p →
         ∃ c, p_cell (particle m' p) = Some c ∧ c ∈ cells_ m
              ∧ contains c (p_coordinates (particle m' p))).
Proof.
  intros Hnd Hloc. unfold locate_particles_mesh. rewrite bind_get.
  destruct (locate_particles_loop_spec m (particles_ m) [] m
              (frame_refl m) Hnd Hloc) as (m' & Hrun & Hf & _ & Hin).
  by exists m'.
Qed.
End LocateAllProofs.

(** The particle at 25 is in no cell of the line mesh. *)
Lemma locate_particles_mesh_lists_unlocated_witness :
  let m := set_particles_ [1%positive] (line_mesh 25) in
  ∃ m', @locate_particles_mesh interval_element m
        = (Ok (filter (λ p, ¬ @in_mesh interval_element m p) (particles_ m)),
           m')
    ∧ frame m m'
    ∧ (∀ p, p ∈ particles_ m → @in_mesh interval_element m p →
         ∃ c, p_cell (particle m' p) = Some c ∧ c ∈ cells_ m
              ∧ @contains interval_element c
                  (p_coordinates (particle m' p))).
Proof.
  apply (@locate_particles_mesh_lists_unlocated interval_element
           (set_particles_ [1%positive] (line_mesh 25))).
  - apply NoDup_singleton.
  - intros p Hp. apply list_elem_of_singleton in Hp as ->.
    exact (line_mesh_locatable 25).
Defined.

(** There the list that is returned is the particle itself. *)
Lemma line_mesh_unlocated :
  (@locate_particles_mesh interval_element
     (set_particles_ [1%positive] (line_mesh 25))).1 = Ok [1%positive]
  ∧ (@locate_particles_mesh interval_element
       (set_particles_ [1%positive] (line_mesh 15))).1 = Ok [].
Proof. by vm_compute. Qed.

(** ** Domain-shared nodes *)

Lemma same_but_sharing_refl m : same_but_sharing m m.
Proof. by repeat split. Qed.

Lemma same_but_sharing_trans m1 m2 m3 :
  same_but_sharing m1 m2 → same_but_sharing m2 m3 → same_but_sharing m1 m3.
Proof.
  unfold same_but_sharing. intros H1 H2.
  destruct H1 as (?&?&?&?&?&?&?&?&?&?&?&?&?&Hq1).
  destruct H2 as (?&?&?&?&?&?&?&?&?&?&?&?&?&Hq2).
  split_and!; try congruence.
  intros q. destruct (Hq1 q), (Hq2 q). split; congruence.
Qed.

Lemma shared_start_same halo m : same_but_sharing m (shared_start halo m).
Proof.
  destruct (rank_phase_spec m) as [(Hc & Hp & Hn) _].
  unfold shared_start, same_but_sharing.
  destruct halo; cbn; (split_and!; [done..|]);
    intros q; unfold node; cbn; by destruct (Hn q) as (-> & _ & ->).
Qed.

Lemma shared_step_same halo r a n : same_but_sharing a (shared_step halo r a n).
Proof.
  unfold shared_step, shared_node_step, shared_node_step_halo.
  destruct halo.
  - destruct (1 <? _)%N; [|apply same_but_sharing_refl].
    destruct (bool_decide _); [|apply same_but_sharing_refl].
    unfold same_but_sharing. cbn. split_and!; [done..|].
    intros q. split; node_written.
  - destruct (bool_decide (1 < _)%nat); [|apply same_but_sharing_refl].
    destruct (bool_decide _); unfold same_but_sharing; cbn;
      (split_and!; [done..|]); intros q; split; node_written.
Qed.

Lemma shared_loop_same halo r l : ∀ a,
  same_but_sharing a (foldl (shared_step halo r) a l).
Proof.
  induction l as [|n l IH]; intros a; cbn [foldl].
  - apply same_but_sharing_refl.
  - eapply same_but_sharing_trans; [apply shared_step_same|apply IH].
Qed.

(** X9. [find_domain_shared_nodes] writes the ranks and the ghost ids of
    nodes, the container of the domain-shared nodes and the counter of its
    build, and nothing else: the containers and id maps of nodes, cells and
    particles, the particles, the cells and the ids and masses of the nodes
    are as before, and so is the counter of the other build. *)
Theorem find_domain_shared_nodes_frame (USE_HALO_EXCHANGE : bool)
    (mpi_rank : N) (m : Mesh) :
  let m' := find_domain_shared_nodes USE_HALO_EXCHANGE mpi_rank m in
  same_but_sharing m m'
  ∧ if USE_HALO_EXCHANGE then nhalo_nodes_ m' = nhalo_nodes_ m
    else ncomms_ m' = ncomms_ m.
Proof.
  cbn zeta. rewrite find_domain_shared_nodes_unfold. split.
  - eapply same_but_sharing_trans;
      [apply shared_start_same|apply shared_loop_same].
  - destruct (shared_loop_frame USE_HALO_EXCHANGE mpi_rank (nodes_ m)
                (shared_start USE_HALO_EXCHANGE m)) as (_ & _ & _ & Hc & _).
    destruct (shared_start_spec USE_HALO_EXCHANGE m)
      as (_ & _ & _ & _ & Hc0 & _).
    destruct USE_HALO_EXCHANGE; destruct Hc0; congruence.
Qed.

Lemma shared_step_idle halo r a n :
  (size (n_mpi_ranks (node a n)) ≤ 1)%nat → shared_step halo r a n = a.
Proof.
  intros Hsize. unfold shared_step, shared_node_step, shared_node_step_halo.
  destruct halo; cbn zeta.
  - assert ((1 <? wrap32 (N.of_nat (size (n_mpi_ranks (node a n)))))%N = false)
      as ->; [|done].
    apply N.ltb_ge. unfold wrap32.
    etransitivity; [apply N.Div0.mod_le|]. lia.
  - by rewrite bool_decide_eq_false_2 by lia.
Qed.

Lemma shared_loop_idle halo r l a :
  (∀ n, n ∈ l → (size (n_mpi_ranks (node a n)) ≤ 1)%nat) →
  foldl (shared_step halo r) a l = a.
Proof.
  induction l as [|n l IH]; intros Hsize; cbn [foldl]; [done|].
  rewrite shared_step_idle by (apply Hsize, elem_of_cons; by left).
  apply IH. intros q Hq. apply Hsize, elem_of_cons. by right.
Qed.

Lemma touching_ranks_one_rank m r0 n :
  (∀ c, c ∈ cells_ m → c_rank (cell m c) = r0) →
  (size (touching_ranks m n) ≤ 1)%nat.
Proof.
  intros Hrank.
  assert (touching_ranks m n ⊆ {[r0]}) as Hsub.
  { intros x. unfold touching_ranks. rewrite elem_of_list_to_set.
    intros (c & -> & Hc)%list_elem_of_fmap.
    apply list_elem_of_filter in Hc as [_ Hc].
    apply elem_of_singleton. by apply Hrank. }
  apply subseteq_size in Hsub. by rewrite size_singleton in Hsub.
Qed.

(** X10. On a mesh whose cells all have one rank, [find_domain_shared_nodes]
    finds no shared node: the container of the domain-shared nodes is
    empty, the counter of the build is 0 and every node keeps the ghost id
    it had. *)
Theorem find_domain_shared_nodes_one_rank (USE_HALO_EXCHANGE : bool)
    (mpi_rank r0 : N) (m : Mesh) :
  (∀ c, c ∈ cells_ m → c_rank (cell m c) = r0) →
  let m' := find_domain_shared_nodes USE_HALO_EXCHANGE mpi_rank m in
  domain_shared_nodes_ m' = []
  ∧ (if USE_HALO_EXCHANGE then ncomms_ m' = 0%N else nhalo_nodes_ m' = 0%N)
  ∧ ∀ q, n_ghost_id (node m' q) = n_ghost_id (node m q).
Proof.
  intros Hrank. cbn zeta. rewrite find_domain_shared_nodes_unfold.
  destruct (shared_start_spec USE_HALO_EXCHANGE m)
    as (_ & _ & _ & Hd & Hc & Hq).
  rewrite shared_loop_idle.
  - split_and!; [done| |intros q; by destruct (Hq q) as (_ & -> & _)].
    by destruct USE_HALO_EXCHANGE; destruct Hc.
  - intros n Hn. destruct (Hq n) as (_ & _ & ->).
    rewrite decide_True by done. rewrite (left_id_L ∅ (∪)).
    by apply (touching_ranks_one_rank m r0).
Qed.

(** The half of the decomposed line that rank 0 owns. *)
Lemma find_domain_shared_nodes_one_rank_witness :
  let m := set_cells_ [1%positive; 2%positive] (decomposed_mesh (λ _, 0%Z)) in
  let m' := find_domain_shared_nodes false 0 m in
  domain_shared_nodes_ m' = []
  ∧ nhalo_nodes_ m' = 0%N
  ∧ ∀ q, n_ghost_id (node m' q) = n_ghost_id (node m q).
Proof.
  apply (find_domain_shared_nodes_one_rank false 0 0
           (set_cells_ [1%positive; 2%positive] (decomposed_mesh (λ _, 0%Z)))).
  intros c Hc. cbn in Hc.
  apply elem_of_cons in Hc as [->|Hc]; [by vm_compute|].
  apply list_elem_of_singleton in Hc as ->. by vm_compute.
Defined.

(** ** The number of messages of the halo exchange *)

Lemma wrap32_add_l x y : wrap32 (wrap32 x + y) = wrap32 (x + y).
Proof. unfold wrap32. by rewrite N.Div0.add_mod_idemp_l. Qed.

Lemma wrap32_idemp x : wrap32 (wrap32 x) = wrap32 x.
Proof. unfold wrap32. by rewrite N.Div0.mod_mod. Qed.

Lemma count_other_ranks (r : N) (l : list N) : ∀ j,
  foldl (λ j node_rank,
           if bool_decide (node_rank ≠ r) then wrap32 (j + 1) else j)
    (wrap32 j) l
  = wrap32 (j + N.of_nat (length (filter (λ x, x ≠ r) l))).
Proof.
  induction l as [|x l IH]; intros j; cbn [foldl].
  - rewrite filter_nil. change (N.of_nat (length [])) with 0%N.
    by rewrite N.add_0_r.
  - rewrite filter_cons. destruct (decide (x ≠ r)) as [Hx|Hx].
    + rewrite bool_decide_eq_true_2 by done.
      rewrite wrap32_add_l, IH. cbn [length]. f_equal. lia.
    + rewrite bool_decide_eq_false_2 by done. apply IH.
Qed.

Lemma nsends_sum (r : N) (m : Mesh) :
  nsends r m
  = wrap32 (N.of_nat
      (sum_list_with
         (λ n, length (filter (λ x, x ≠ r) (elements (n_mpi_ranks (node m n)))))
         (domain_shared_nodes_ m))).
Proof.
  unfold nsends.
  assert (∀ l j,
    foldl (λ j n,
             foldl (λ j node_rank,
                      if bool_decide (node_rank ≠ r) then wrap32 (j + 1)
                      else j)
               j (elements (n_mpi_ranks (node m n))))
      (wrap32 j) l
    = wrap32 (j + N.of_nat
        (sum_list_with
           (λ n, length (filter (λ x, x ≠ r)
                           (elements (n_mpi_ranks (node m n))))) l))) as Hl.
  { induction l as [|n l IH]; intros j; cbn [foldl sum_list_with].
    - change (N.of_nat 0) with 0%N. by rewrite N.add_0_r.
    - rewrite count_other_ranks, IH. f_equal. lia. }
  exact (Hl (domain_shared_nodes_ m) 0%N).
Qed.

Lemma filter_all {A} (P : A → Prop) `{∀ x, Decision (P x)} (l : list A) :
  Forall P l → filter P l = l.
Proof.
  induction 1 as [|x l Hx Hl IH]; [done|].
  rewrite filter_cons_True by done. by rewrite IH.
Qed.

Lemma sum_list_with_ext_in {A} (f g : A → nat) (l : list A) :
  (∀ x, x ∈ l → f x = g x) → sum_list_with f l = sum_list_with g l.
Proof.
  induction l as [|x l IH]; intros Hfg; cbn; [done|].
  rewrite Hfg by (apply elem_of_cons; by left).
  rewrite IH; [done|]. intros y Hy. apply Hfg, elem_of_cons. by right.
Qed.

Lemma length_filter_other (r : N) (X : gset N) :
  r ∈ X → length (filter (λ x, x ≠ r) (elements X)) = (size X - 1)%nat.
Proof.
  intros Hr.
  assert (X = {[r]} ∪ X ∖ {[r]}) as HX.
  { apply set_eq. intros x. rewrite elem_of_union, elem_of_difference,
      elem_of_singleton. destruct (decide (x = r)) as [->|]; naive_solver. }
  assert (elements X ≡ₚ r :: elements (X ∖ {[r]})) as Hperm.
  { rewrite HX at 1. apply elements_union_singleton.
    rewrite elem_of_difference, elem_of_singleton. by intros [_ ?]. }
  rewrite Hperm. rewrite filter_cons_False by (by intros ?).
  assert (filter (λ x, x ≠ r) (elements (X ∖ {[r]})) = elements (X ∖ {[r]}))
    as ->.
  { apply filter_all. apply Forall_forall. intros x Hx.
    apply elem_of_elements, elem_of_difference in Hx as [_ Hx].
    by rewrite elem_of_singleton in Hx. }
  change (length (elements (X ∖ {[r]}))) with (size (X ∖ {[r]})).
  rewrite size_difference.
  - by rewrite size_singleton.
  - by apply singleton_subseteq_l.
Qed.

Section CommsLoop.
Context (r : N) (rk : positive → gset N).
Hypothesis rk_small : ∀ n, (N.of_nat (size (rk n)) < 4294967296)%N.

Lemma comms_loop (rest : list positive) : ∀ a j,
  (∀ q, q ∈ rest → n_mpi_ranks (node a q) = rk q) →
  ncomms_ a = wrap32 j →
  ncomms_ (foldl (shared_node_step_halo r) a rest)
  = wrap32 (j + N.of_nat
      (sum_list_with (λ n, size (rk n) - 1)%nat
         (filter (λ n, (1 < wrap32 (N.of_nat (size (rk n))))%N ∧ r ∈ rk n)
            rest))).
Proof.
  induction rest as [|n rest IH]; intros a j Hrk Hj; cbn [foldl].
  - rewrite filter_nil. cbn [sum_list_with]. change (N.of_nat 0) with 0%N.
    by rewrite N.add_0_r.
  - destruct (shared_node_step_halo_spec r a n) as (_ & _ & _ & _ & Hqa & Ha).
    cbn in Ha. rewrite (Hrk n) in Ha by (apply elem_of_cons; by left).
    assert (∀ q, q ∈ rest →
              n_mpi_ranks (node (shared_node_step_halo r a n) q) = rk q)
      as Hrk'.
    { intros q Hq. destruct (Hqa q) as [_ ->]. apply Hrk, elem_of_cons.
      by right. }
    rewrite filter_cons.
    destruct (decide ((1 < wrap32 (N.of_nat (size (rk n))))%N ∧ r ∈ rk n))
      as [[Hs1 Hs2]|Hs].
    + rewrite (proj2 (N.ltb_lt _ _) Hs1), (bool_decide_eq_true_2 _ Hs2) in Ha.
      destruct Ha as (Hc & _).
      rewrite (wrap32_small _ (rk_small n)) in Hc, Hs1.
      rewrite (IH _ (j + N.of_nat (size (rk n)) - 1)%N Hrk').
      * cbn [sum_list_with]. f_equal. lia.
      * rewrite Hc, Hj.
        replace (wrap32 j + N.of_nat (size (rk n)) - 1)%N
          with (wrap32 j + (N.of_nat (size (rk n)) - 1))%N by lia.
        rewrite wrap32_add_l. f_equal. lia.
    + assert ((1 <? wrap32 (N.of_nat (size (rk n))))%N
              && bool_decide (r ∈ rk n) = false) as Hfalse.
      { apply not_true_is_false. intros [H1 H2]%andb_true_iff.
        apply bool_decide_eq_true in H2.
        apply Hs. split; [by apply N.ltb_lt|done]. }
      rewrite Hfalse in Ha. rewrite Ha. apply IH; [|done].
      intros q Hq. apply Hrk, elem_of_cons. by right.
Qed.
End CommsLoop.



(** ** The halo exchange over any number of processes *)

Section ExchangeAll.
Context {T : Type} (zero : T) (plus : T → T → T).
Context (getter : Node → T) (setter : Node → T → Node).
Context (Hmon : commutative_monoid zero plus).
Context (Hlens : property_lens getter setter).

Lemma gather_contribution (m : Mesh) (nhalo : N) :
  nhalo_nodes_ m = nhalo →
  NoDup ((λ n, n_ghost_id (node m n)) <$> domain_shared_nodes_ m) →
  (∀ n, n ∈ domain_shared_nodes_ m → (n_ghost_id (node m n) < nhalo)%N) →
  ∃ buf, gather zero getter m = Ok buf
    ∧ length buf = N.to_nat nhalo
    ∧ ∀ g, (g < N.to_nat nhalo)%nat →
           buf !! g = Some (contribution zero getter m g).
Proof.
  intros Hnh Hnd Hlt.
  destruct (gather_spec zero getter m nhalo Hnh Hnd Hlt)
    as (buf & Hrun & Hlen & Hin & Hout).
  exists buf. split_and!; [done..|]. intros g Hg. unfold contribution.
  destruct (filter (λ n, slot m n = g) (domain_shared_nodes_ m))
    as [|n l] eqn:Hf; cbn.
  - apply Hout; [done|]. intros n Hn Hslot.
    assert (n ∈ filter (λ n, slot m n = g) (domain_shared_nodes_ m)) as Hin'
      by by apply list_elem_of_filter.
    rewrite Hf in Hin'. by apply elem_of_nil in Hin'.
  - assert (n ∈ filter (λ n, slot m n = g) (domain_shared_nodes_ m)) as Hin'
      by (rewrite Hf; apply elem_of_cons; by left).
    apply list_elem_of_filter in Hin' as [<- Hn]. by apply Hin.
Qed.

Lemma scatter_frame (prop_set : list T) (m : Mesh) :
  NoDup (domain_shared_nodes_ m) →
  (∀ n, n ∈ domain_shared_nodes_ m → (slot m n < length prop_set)%nat) →
  ∃ m', scatter setter prop_set m = Ok m'
    ∧ (∀ n v, n ∈ domain_shared_nodes_ m → prop_set !! slot m n = Some v →
              getter (node m' n) = v)
    ∧ (∀ q, q ∉ domain_shared_nodes_ m → node m' q = node m q).
Proof.
  intros Hnd Hlt. unfold scatter.
  by destruct (scatter_fold getter setter Hlens prop_set m
                 (domain_shared_nodes_ m) m Hnd)
    as (m' & Hrun & Hin & Hout); [done..|exists m'].
Qed.

End ExchangeAll.


Section ExchangeDirect.
Context {T : Type} (zero : T) (plus : T → T → T).
Context (getter : Node → T) (setter : Node → T → Node).
Context (Hmon : commutative_monoid zero plus).
Context (Hlens : property_lens getter setter).

End ExchangeDirect.


(** ** Neighbours of the cells *)

Lemma elem_of_set_insert (x y : Index) (l : list Index) :
  y ∈ set_insert x l ↔ y = x ∨ y ∈ l.
Proof.
  induction l as [|z l IH]; cbn.
  - rewrite elem_of_cons. split; intros [?|?]; auto.
  - destruct (x <? z)%N eqn:Hlt.
    + by rewrite elem_of_cons.
    + destruct (x =? z)%N eqn:Heq.
      * apply N.eqb_eq in Heq as ->. rewrite elem_of_cons. tauto.
      * rewrite !elem_of_cons, IH. tauto.
Qed.

Lemma elem_of_foldr_set_insert (l : list Index) (y : Index) :
  y ∈ foldr set_insert [] l ↔ y ∈ l.
Proof.
  induction l as [|x l IH]; cbn; [done|].
  by rewrite elem_of_set_insert, elem_of_cons, IH.
Qed.

Lemma elem_of_nodes_id (m : Mesh) (c : ptr) (id : Index) :
  id ∈ nodes_id (objects m) c
  ↔ ∃ n, n ∈ c_nodes (cell m c) ∧ n_id (node m n) = id.
Proof.
  unfold nodes_id. rewrite elem_of_foldr_set_insert, list_elem_of_fmap.
  split; intros (n & ? & ?); by exists n.
Qed.

(** The cells around a node id, after the turns of the first loop for the
    ids [ids] of the cell with the id [cid]. *)
Lemma node_cell_map_ids (cid : Index) (ids : list Index) :
  ∀ (acc : gmap N (list Index)) id d,
  d ∈ default [] (foldl (λ acc id,
                           <[id := set_insert cid (default [] (acc !! id))]>
                             acc) acc ids !! id)
  ↔ d ∈ default [] (acc !! id) ∨ (d = cid ∧ id ∈ ids).
Proof.
  induction ids as [|i ids IH]; intros acc id d; cbn [foldl].
  - split; [by left|]. intros [?|[_ ?%elem_of_nil]]; done.
  - rewrite IH, elem_of_cons. destruct (decide (id = i)) as [->|Hne].
    + rewrite lookup_insert_eq. cbn. rewrite elem_of_set_insert. tauto.
    + rewrite lookup_insert_ne by done. tauto.
Qed.

Lemma node_cell_map_spec (m : Mesh) (id d : Index) :
  d ∈ default [] (node_cell_map m !! id)
  ↔ ∃ c, c ∈ cells_ m ∧ c_id (cell m c) = d ∧ id ∈ nodes_id (objects m) c.
Proof.
  unfold node_cell_map.
  assert (∀ cells (acc : gmap N (list Index)),
    d ∈ default []
          (foldl (λ acc c,
                    let cell_id := c_id (cell m c) in
                    foldl (λ acc id,
                             <[id := set_insert cell_id
                                       (default [] (acc !! id))]> acc)
                      acc (nodes_id (objects m) c)) acc cells !! id)
    ↔ d ∈ default [] (acc !! id)
      ∨ ∃ c, c ∈ cells ∧ c_id (cell m c) = d
             ∧ id ∈ nodes_id (objects m) c) as Hcells.
  { induction cells as [|c cells IH]; intros acc; cbn [foldl].
    - split; [by left|]. intros [?|(c & ?%elem_of_nil & _)]; done.
    - rewrite IH. cbn zeta. rewrite node_cell_map_ids. split.
      + intros [[?|[-> ?]]|(c' & ? & ? & ?)]; [by left| |].
        * right. exists c. split_and!; [apply elem_of_cons; by left|done..].
        * right. exists c'. split_and!; [apply elem_of_cons; by right|done..].
      + intros [?|(c' & [->|?]%elem_of_cons & ? & ?)]; [by left; left| |].
        * left. right. by split.
        * right. by exists c'. }
  rewrite Hcells, lookup_empty. cbn. split; [|by right].
  by intros [?%elem_of_nil|?].
Qed.

Lemma neighbours_grown_refl c s : neighbours_grown c (λ _, False) s s.
Proof. unfold neighbours_grown. split_and!; try done. intros d. tauto. Qed.

Lemma neighbours_grown_trans c X Y s1 s2 s3 :
  neighbours_grown c X s1 s2 → neighbours_grown c Y s2 s3 →
  neighbours_grown c (λ d, X d ∨ Y d) s1 s3.
Proof.
  intros (Hn1 & Hp1 & Ho1 & Hi1 & Hc1 & Hr1 & Hl1 & Hx1)
         (Hn2 & Hp2 & Ho2 & Hi2 & Hc2 & Hr2 & Hl2 & Hx2).
  unfold neighbours_grown. split_and!; try congruence.
  - intros c' Hc'. by rewrite Ho2, Ho1.
  - intros d. rewrite Hx2, Hx1. tauto.
Qed.

Lemma neighbours_grown_iff c X Y s s' :
  (∀ d, X d ↔ Y d) → neighbours_grown c X s s' → neighbours_grown c Y s s'.
Proof.
  intros HXY (?&?&?&?&?&?&?&Hx). unfold neighbours_grown.
  split_and!; try done. intros d. by rewrite Hx, HXY.
Qed.

Lemma add_neighbour_grown c d s :
  neighbours_grown c (λ d', d' = d) s (add_neighbour c d s).
Proof.
  unfold neighbours_grown, add_neighbour. cbn.
  rewrite lookup_total_insert_eq. cbn. split_and!; try done.
  - intros c' Hc'. by rewrite lookup_total_insert_ne.
  - intros d'. rewrite elem_of_set_insert. tauto.
Qed.

Lemma add_neighbours_grown c cid (l : list Index) : ∀ s,
  neighbours_grown c (λ d, d ∈ l ∧ d ≠ cid) s
    (foldl (λ s neighbour_id,
              if bool_decide (neighbour_id ≠ cid)
              then add_neighbour c neighbour_id s else s) s l).
Proof.
  induction l as [|x l IH]; intros s; cbn [foldl].
  - eapply neighbours_grown_iff; [|apply neighbours_grown_refl].
    intros d. split; [done|]. by intros [?%elem_of_nil _].
  - eapply neighbours_grown_iff; [|eapply neighbours_grown_trans; [|apply IH]].
    2:{ instantiate (1 := λ d, d = x ∧ x ≠ cid). case_bool_decide as Hx.
        - eapply neighbours_grown_iff; [|apply add_neighbour_grown].
          intros d. cbn. tauto.
        - eapply neighbours_grown_iff; [|apply neighbours_grown_refl].
          intros d. cbn. tauto. }
    intros d. cbn. rewrite elem_of_cons. split.
    + intros [[-> ?]|[? ?]]; auto.
    + intros [[->|?] ?]; auto.
Qed.

Lemma add_cell_neighbours_fold (ncm : gmap N (list Index)) c cid
    (ids : list Index) : ∀ s,
  c_id (cell_heap s !!! c) = cid →
  neighbours_grown c
    (λ d, d ≠ cid ∧ ∃ id, id ∈ ids ∧ d ∈ default [] (ncm !! id)) s
    (foldl (λ s id,
              let cell_id := c_id (cell_heap s !!! c) in
              foldl (λ s neighbour_id,
                       if bool_decide (neighbour_id ≠ cell_id)
                       then add_neighbour c neighbour_id s else s)
                s (default [] (ncm !! id))) s ids).
Proof.
  induction ids as [|id ids IH]; intros s Hcid; cbn [foldl].
  - eapply neighbours_grown_iff; [|apply neighbours_grown_refl].
    intros d. split; [done|]. by intros [_ (id & ?%elem_of_nil & _)].
  - cbn zeta. rewrite Hcid.
    pose proof (add_neighbours_grown c cid (default [] (ncm !! id)) s) as H1.
    eapply neighbours_grown_iff;
      [|eapply neighbours_grown_trans; [exact H1|apply IH]].
    + intros d. cbn. split.
      * intros [[? ?]|[? (id' & ? & ?)]].
        -- split; [done|]. exists id. split; [apply elem_of_cons; by left|done].
        -- split; [done|]. exists id'.
           split; [apply elem_of_cons; by right|done].
      * intros [? (id' & [->|?]%elem_of_cons & ?)]; [by left|].
        right. split; [done|]. by exists id'.
    + destruct H1 as (_ & _ & _ & -> & _). done.
Qed.

Lemma add_cell_neighbours_grown (ncm : gmap N (list Index)) c s :
  neighbours_grown c
    (λ d, d ≠ c_id (cell_heap s !!! c)
          ∧ ∃ id, id ∈ nodes_id s c ∧ d ∈ default [] (ncm !! id))
    s (add_cell_neighbours ncm c s).
Proof. by apply add_cell_neighbours_fold. Qed.

Lemma cell_set_objects s m c : cell (set_objects s m) c = cell_heap s !!! c.
Proof. done. Qed.

(** The second loop, over a list of cells. *)
Lemma neighbours_loop (ncm : gmap N (list Index)) (cs : list ptr) : ∀ s,
  let s' := foldl (λ s c, add_cell_neighbours ncm c s) s cs in
  node_heap s' = node_heap s ∧ particle_heap s' = particle_heap s
  ∧ (∀ c, c ∉ cs → cell_heap s' !!! c = cell_heap s !!! c)
  ∧ (∀ c, c_id (cell_heap s' !!! c) = c_id (cell_heap s !!! c)
          ∧ c_nodes (cell_heap s' !!! c) = c_nodes (cell_heap s !!! c)
          ∧ c_rank (cell_heap s' !!! c) = c_rank (cell_heap s !!! c)
          ∧ c_particles (cell_heap s' !!! c) = c_particles (cell_heap s !!! c))
  ∧ ∀ c d, c ∈ cs →
      d ∈ c_neighbours (cell_heap s' !!! c)
      ↔ d ∈ c_neighbours (cell_heap s !!! c)
        ∨ (d ≠ c_id (cell_heap s !!! c)
           ∧ ∃ id, id ∈ nodes_id s c ∧ d ∈ default [] (ncm !! id)).
Proof.
  induction cs as [|c cs IH]; intros s; cbn [foldl].
  - split_and!; try done. by intros c d ?%elem_of_nil.
  - destruct (add_cell_neighbours_grown ncm c s)
      as (Hn1 & Hp1 & Ho1 & Hi1 & Hc1 & Hr1 & Hl1 & Hx1).
    set (s1 := add_cell_neighbours ncm c s) in *.
    destruct (IH s1) as (Hn & Hp & Ho & Hf & Hx). clear IH.
    assert (∀ c', c_id (cell_heap s1 !!! c') = c_id (cell_heap s !!! c')
                  ∧ c_nodes (cell_heap s1 !!! c') = c_nodes (cell_heap s !!! c')
                  ∧ c_rank (cell_heap s1 !!! c') = c_rank (cell_heap s !!! c')
                  ∧ c_particles (cell_heap s1 !!! c')
                    = c_particles (cell_heap s !!! c')) as Hf1.
    { intros c'. destruct (decide (c' = c)) as [->|Hne]; [done|].
      by rewrite (Ho1 c' Hne). }
    assert (∀ c', nodes_id s1 c' = nodes_id s c') as Hids.
    { intros c'. unfold nodes_id. destruct (Hf1 c') as (_ & -> & _).
      by rewrite Hn1. }
    split_and!.
    + congruence.
    + congruence.
    + intros c' [Hne Hc']%not_elem_of_cons. by rewrite (Ho c' Hc'), Ho1.
    + intros c'. destruct (Hf c') as (-> & -> & -> & ->). apply Hf1.
    + intros c' d Hc'.
      destruct (decide (c' ∈ cs)) as [Hin|Hnin].
      * rewrite (Hx c' d Hin), Hids. destruct (Hf1 c') as (-> & _).
        destruct (decide (c' = c)) as [->|Hne].
        -- rewrite Hx1. tauto.
        -- by rewrite (Ho1 c' Hne).
      * apply elem_of_cons in Hc' as [->|?]; [|done].
        rewrite (Ho c Hnin). apply Hx1.
Qed.

Lemma adjacent_node_cell_map (m : Mesh) (c : ptr) (d : Index) :
  (d ≠ c_id (cell m c)
   ∧ ∃ id, id ∈ nodes_id (objects m) c
           ∧ d ∈ default [] (node_cell_map m !! id))
  ↔ adjacent m c d.
Proof.
  unfold adjacent, share_node. split.
  - intros [Hd (id & Hid & Hin)]. split; [done|].
    apply node_cell_map_spec in Hin as (c' & Hc' & Hcid & Hid').
    apply elem_of_nodes_id in Hid as (n & Hn & Hnid).
    apply elem_of_nodes_id in Hid' as (n' & Hn' & Hnid').
    exists c'. split_and!; [done..|]. exists n, n'. split_and!; [done..|].
    congruence.
  - intros [Hd (c' & Hc' & Hcid & n & n' & Hn & Hn' & Hnn)]. split; [done|].
    exists (n_id (node m n)). split.
    + apply elem_of_nodes_id. by exists n.
    + apply node_cell_map_spec. exists c'. split_and!; [done..|].
      apply elem_of_nodes_id. by exists n'.
Qed.




Lemma decomposed_mesh_cells q :
  q ∈ cells_ (decomposed_mesh (λ _, 0%Z)) →
  q = 1%positive ∨ q = 2%positive ∨ q = 3%positive ∨ q = 4%positive.
Proof.
  cbn. rewrite !elem_of_cons. intros [?|[?|[?|[?|Hq]]]]; try tauto.
  by apply elem_of_nil in Hq.
Qed.


(** There the cells get the cells to their left and right as neighbours,
    in ascending order. *)
Lemma decomposed_mesh_neighbours :
  (λ q, c_neighbours (cell (compute_cell_neighbours
                              (decomposed_mesh (λ _, 0%Z))) q))
    <$> [1; 2; 3; 4]%positive
  = [[1]; [0; 2]; [1; 3]; [2]]%N.
Proof. by vm_compute. Qed.

(** ** Addition of a particle *)

Section AddParticle.
Context `{Element}.

Lemma locate_particle_cells_in_mesh p m :
  locatable m p →
  ∃ b m1, locate_particle_cells p m = (Ok b, m1)
    ∧ frame m m1 ∧ (b = true ↔ in_mesh m p).
Proof.
  intros Hloc.
  destruct (locate_particle_cells_spec p m Hloc) as (b & m1 & Hrun & Hb & _).
  exists b, m1. split_and!; [done| |].
  - pose proof (locate_particle_cells_object_op p m) as [_ Hf].
    by rewrite Hrun in Hf.
  - rewrite Hb. unfold in_mesh. by rewrite Exists_exists.
Qed.

Lemma insert_particle_fresh p m :
  map_particles_ m !! p_id (particle m p) = None →
  p_id (particle m p) ∉ (λ q, p_id (particle m q)) <$> particles_ m →
  ∃ m', insert_particle p true m = (Ok true, m')
    ∧ particles_ m' = particles_ m ++ [p]
    ∧ map_particles_ m' = <[p_id (particle m p) := p]> (map_particles_ m)
    ∧ console_ m' = console_ m ∧ objects m' = objects m
    ∧ nodes_ m' = nodes_ m ∧ map_nodes_ m' = map_nodes_ m
    ∧ cells_ m' = cells_ m ∧ map_cells_ m' = map_cells_ m.
Proof.
  intros Hnone Hfresh. unfold insert_particle. rewrite bind_get.
  rewrite (container_add_fresh _ _ _ Hfresh). cbn.
  eexists. split; [done|]. cbn. unfold Map.insert.
  change (particle (set_particles_cell_ids_ _ _) p) with (particle m p).
  by rewrite Hnone.
Qed.

Lemma add_particle_cases (p : ptr) (m : Mesh) :
  synced m → locatable m p →
  ∃ b m', add_particle p true m = (Ok b, m')
    ∧ (b = true ↔ in_mesh m p
                  ∧ p_id (particle m p)
                    ∉ (λ q, p_id (particle m q)) <$> particles_ m)
    ∧ (if b then
         particles_ m' = particles_ m ++ [p]
         ∧ map_particles_ m' = <[p_id (particle m p) := p]> (map_particles_ m)
         ∧ console_ m' = console_ m
       else
         particles_ m' = particles_ m
         ∧ map_particles_ m' = map_particles_ m
         ∧ ∃ what, console_ m' = console_ m ++ [what])
    ∧ synced m'
    ∧ ∀ q, p_id (particle m' q) = p_id (particle m q).
Proof.
  intros Hs Hloc.
  destruct (add_particle_spec p m Hs) as (b0 & m0 & Hrun0 & Hs0 & _).
  destruct (locate_particle_cells_in_mesh p m Hloc)
    as (located & m1 & Hrun & Hf & Hb).
  assert (particles_ m1 = particles_ m ∧ map_particles_ m1 = map_particles_ m
          ∧ console_ m1 = console_ m) as (Hp1 & Hmp1 & Hcon1)
    by by destruct Hf as (s & -> & _).
  assert ((λ q, p_id (particle m1 q)) <$> particles_ m1
          = (λ q, p_id (particle m q)) <$> particles_ m) as Hids.
  { rewrite Hp1. apply list_fmap_ext. intros i q _. by apply frame_p_id. }
  revert Hrun0. unfold add_particle, try_catch. rewrite !bind_assoc.
  rewrite (bind_run _ _ _ _ _ Hrun). cbv beta.
  destruct located.
  - destruct (decide (p_id (particle m p)
                      ∈ (λ q, p_id (particle m q)) <$> particles_ m))
      as [Hdup|Hfresh].
    + destruct (insert_particle_spec p m1 (synced_frame _ _ Hf Hs))
        as (b & m2 & Hins & Hs2 & Hcon & Hd).
      rewrite Hids, (frame_p_id _ _ p Hf) in Hd.
      destruct (Hd Hdup) as (-> & Hp2 & Hmp2).
      rewrite (bind_run _ _ _ _ _ Hins). cbn. intros [= <- <-].
      exists false, (set_console_ (console_ m2 ++ ["Particle addition failed"]) m2).
      split; [done|].
      split; [|split; [|split; [by apply synced_set_console|]]].
      * split; [done|]. by intros [_ ?].
      * cbn. split_and!; [congruence..|]. eexists. by rewrite Hcon, Hcon1.
      * intros q. change (particle (set_console_ _ m2) q) with (particle m2 q).
        rewrite <- (frame_p_id _ _ q Hf). revert Hins.
        unfold insert_particle. rewrite bind_get.
        destruct (Container.add _ _ _ _) as [? ?]. cbn.
        by intros [= _ <-].
    + destruct (insert_particle_fresh p m1)
        as (m2 & Hins & Hp2 & Hmp2 & Hc2 & Ho2 & _).
      { rewrite Hmp1, (frame_p_id _ _ p Hf).
        destruct Hs as (_ & _ & [_ Hmap]).
        apply eq_None_not_Some. intros [q Hq]. apply Hmap in Hq as [Hq Hid].
        apply Hfresh. rewrite <- Hid.
        by apply (list_elem_of_fmap_2 (λ q, p_id (particle m q))). }
      { by rewrite Hids, (frame_p_id _ _ p Hf). }
      rewrite (bind_run _ _ _ _ _ Hins). cbn. intros [= <- <-].
      exists true, m2. split; [done|].
      split; [|split; [|split; [exact Hs0|]]].
      * split; [|done]. intros _. split; [by apply Hb|done].
      * rewrite (frame_p_id _ _ p Hf) in Hmp2. split_and!; congruence.
      * intros q. unfold particle at 1. rewrite Ho2.
        apply (frame_p_id _ _ q Hf).
  - cbn. intros [= <- <-].
    eexists false, _. split; [done|].
    split; [|split; [|split; [exact Hs0|]]].
    + split; [done|]. intros [Hin _]. by apply Hb in Hin.
    + cbn. split_and!; [done..|]. eexists. by rewrite Hcon1.
    + intros q. apply (frame_p_id _ _ q Hf).
Qed.


(** X16. On a mesh whose containers and id maps are in step and that is
    well formed around the particle, [add_particle] with checks returns
    true exactly when some cell of the mesh contains the particle and no
    particle of the mesh has its id.  Then the particle is the last of the
    container and sits under its id in the id map, and nothing is logged;
    else container and id map stay as they are and one message is
    logged.  Either way container and id map are in step afterwards. *)
Theorem add_particle_adds (p : ptr) (m : Mesh) :
  synced m → locatable m p →
  ∃ b m', add_particle p true m = (Ok b, m')
    ∧ (b = true ↔ in_mesh m p
                  ∧ p_id (particle m p)
                    ∉ (λ q, p_id (particle m q)) <$> particles_ m)
    ∧ (if b then
         particles_ m' = particles_ m ++ [p]
         ∧ map_particles_ m' = <[p_id (particle m p) := p]> (map_particles_ m)
         ∧ console_ m' = console_ m
       else
         particles_ m' = particles_ m
         ∧ map_particles_ m' = map_particles_ m
         ∧ ∃ what, console_ m' = console_ m ++ [what])
    ∧ synced m'.
Proof.
  intros Hs Hloc.
  destruct (add_particle_cases p m Hs Hloc)
    as (b & m' & Hrun & Hb & Hcase & Hs' & _).
  exists b, m'. by split_and!.
Qed.

End AddParticle.

Lemma line_mesh_synced x : synced (line_mesh x).
Proof.
  assert (∀ (id_of : ptr → Index), in_sync id_of [] ∅) as Hempty.
  { intros id_of. split; [apply NoDup_nil_2|]. intros i p.
    rewrite lookup_empty. split; [done|]. by intros [?%elem_of_nil _]. }
  split_and!; [apply Hempty| |apply Hempty].
  split.
  - apply (bool_decide_unpack _). by vm_compute.
  - intros i p. cbn. rewrite lookup_insert_Some, lookup_singleton_Some.
    rewrite !elem_of_cons, elem_of_nil. split.
    + intros [[<- <-]|[Hne [<- <-]]]; (split; [tauto|by vm_compute]).
    + intros [[->|[->|[]]] <-]; vm_compute; [left|right]; done.
Qed.

(** The particle at 15 is taken into the line mesh. *)
Lemma add_particle_adds_witness :
  let m := line_mesh 15 in
  ∃ b m', @add_particle interval_element 1%positive true m = (Ok b, m')
    ∧ (b = true ↔ @in_mesh interval_element m 1%positive
                  ∧ p_id (particle m 1%positive)
                    ∉ (λ q, p_id (particle m q)) <$> particles_ m)
    ∧ (if b then
         particles_ m' = particles_ m ++ [1%positive]
         ∧ map_particles_ m'
           = <[p_id (particle m 1%positive) := 1%positive]> (map_particles_ m)
         ∧ console_ m' = console_ m
       else
         particles_ m' = particles_ m
         ∧ map_particles_ m' = map_particles_ m
         ∧ ∃ what, console_ m' = console_ m ++ [what])
    ∧ synced m'.
Proof.
  apply (@add_particle_adds interval_element 1%positive (line_mesh 15)).
  - apply line_mesh_synced.
  - apply line_mesh_locatable.
Defined.


(** ** Removal of the particles of other ranks *)

Lemma remove_cell_lists q m c :
  p_id (particle m q) ∉ c_particles (cell m c) →
  c_particles (cell (ParticleBase.remove_cell q m).2 c)
  = c_particles (cell m c).
Proof.
  intros Hid. unfold ParticleBase.remove_cell, ParticleBase.leave_cell.
  rewrite bind_assoc, bind_get.
  destruct (p_cell (particle m q)) as [c0|];
    unfold CellBase.remove_particle_id, update_cell, update_particle,
      modify, bind, ret; cbn; [|done].
  unfold cell. cbn. destruct (decide (c = c0)) as [->|Hne].
  - rewrite lookup_total_insert_eq. cbn. apply filter_all, Forall_forall.
    intros j Hj ->. done.
  - by rewrite lookup_total_insert_ne.
Qed.

Lemma drop_particle_id_lists id q m c :
  map_particles_ m !! id = Some q → p_id (particle m q) = id →
  id ∉ c_particles (cell m c) →
  c_particles (cell (drop_particle_id id m).2 c) = c_particles (cell m c).
Proof.
  intros Hq Hid Hc. unfold drop_particle_id. rewrite bind_get.
  unfold Map.at_. rewrite Hq, bind_ret.
  destruct (remove_cell_objects_only q m) as (m1 & Hrun & _).
  pose proof (remove_cell_lists q m c) as Hl. rewrite Hrun in Hl.
  rewrite (bind_run _ _ _ _ _ Hrun). cbn. apply Hl. by rewrite Hid.
Qed.

Lemma dropped_keyed mp m m' :
  dropped mp m m' → keyed_by_id m → (∀ i p, mp !! i = Some p →
                                            map_particles_ m !! i = Some p) →
  keyed_by_id m'.
Proof.
  intros (s & -> & Hst) Hkey Hsub i p Hip. cbn in Hip.
  unfold particle. cbn. destruct Hst as (Hpart & _).
  destruct (Hpart p) as [-> _]. by apply Hkey, Hsub.
Qed.

Lemma drop_particle_ids_lists (pids : list Index) : ∀ m,
  NoDup pids → keyed_by_id m →
  (∀ id, id ∈ pids → is_Some (map_particles_ m !! id)) →
  ∃ m' mp, for_each pids drop_particle_id m = (Ok tt, m')
    ∧ dropped mp m m'
    ∧ (∀ i, mp !! i = if decide (i ∈ pids) then None
                      else map_particles_ m !! i)
    ∧ ∀ c, (∀ id, id ∈ pids → id ∉ c_particles (cell m c)) →
           c_particles (cell m' c) = c_particles (cell m c).
Proof.
  induction pids as [|id pids IH]; intros m Hnd Hkey Hin; cbn [for_each].
  - exists m, (map_particles_ m). split_and!; [done| | |done].
    + exists (objects m). split; [by destruct m|apply stable_refl].
    + intros i. rewrite decide_False; [done|]. by intros ?%elem_of_nil.
  - apply NoDup_cons in Hnd as [Hid Hnd].
    destruct (Hin id) as [q Hq]; [apply elem_of_cons; by left|].
    destruct (drop_particle_id_spec id q m Hq) as (m1 & Hrun & Hd1).
    pose proof (λ c, drop_particle_id_lists id q m c Hq (Hkey id q Hq)) as Hl1.
    rewrite Hrun in Hl1. cbn [snd] in Hl1.
    rewrite (bind_run _ _ _ _ _ Hrun).
    assert (map_particles_ m1 = base.delete id (map_particles_ m)) as Hmp1
      by by destruct Hd1 as (s & -> & _).
    destruct (IH m1 Hnd) as (m' & mp & -> & Hd & Hlook & Hlists).
    { apply (dropped_keyed _ _ _ Hd1 Hkey). intros i p.
      rewrite lookup_delete_Some. by intros [_ ?]. }
    { intros i Hi. rewrite Hmp1, lookup_delete_ne.
      - apply Hin, elem_of_cons. by right.
      - by intros ->. }
    exists m', mp. split_and!; [done|by eapply dropped_trans| |].
    + intros i. rewrite Hlook, Hmp1.
      destruct (decide (i ∈ pids)) as [Hi|Hi].
      * rewrite decide_True; [done|]. apply elem_of_cons. by right.
      * destruct (decide (i = id)) as [->|Hne].
        -- rewrite lookup_delete_eq, decide_True; [done|].
           apply elem_of_cons. by left.
        -- rewrite lookup_delete_ne by done. rewrite decide_False; [done|].
           by intros [?|?]%elem_of_cons.
    + intros c Hc. rewrite Hlists.
      * apply Hl1, Hc, elem_of_cons. by left.
      * intros i Hi. rewrite Hl1 by (apply Hc, elem_of_cons; by left).
        apply Hc, elem_of_cons. by right.
Qed.

Lemma dropped_frame mp m m1 m2 : dropped mp m m1 → frame m1 m2 → dropped mp m m2.
Proof.
  intros (s1 & -> & H1) (s2 & -> & H2). exists s2. split; [done|].
  by apply (stable_trans _ s1).
Qed.

Lemma dropped_rank mp m m1 c :
  dropped mp m m1 → c_rank (cell m1 c) = c_rank (cell m c).
Proof. intros (s & -> & _ & Hc & _). by destruct (Hc c) as (_ & _ & ? & _). Qed.

Lemma clear_particle_ids_lists c m :
  ∃ m', CellBase.clear_particle_ids c m = (Ok tt, m') ∧ frame m m'
    ∧ c_particles (cell m' c) = []
    ∧ ∀ c', c' ≠ c → c_particles (cell m' c') = c_particles (cell m c').
Proof.
  destruct (clear_particle_ids_objects_only c m) as (m' & Hrun & Hf).
  exists m'. split_and!; [done..| |]; revert Hrun;
    unfold CellBase.clear_particle_ids, update_cell, modify;
    intros [= <-]; unfold cell; cbn.
  - by rewrite lookup_total_insert_eq.
  - intros c' Hne. by rewrite lookup_total_insert_ne.
Qed.

Lemma nonrank_particle_ids_app r m pre rest :
  nonrank_particle_ids r m (pre ++ rest)
  = nonrank_particle_ids r m pre ++ nonrank_particle_ids r m rest.
Proof.
  unfold nonrank_particle_ids. by rewrite filter_app, fmap_app, concat_app.
Qed.

Lemma nonrank_particle_ids_cons r m c rest :
  nonrank_particle_ids r m (c :: rest)
  = (if decide (c_rank (cell m c) ≠ r) then c_particles (cell m c) else [])
    ++ nonrank_particle_ids r m rest.
Proof.
  unfold nonrank_particle_ids. rewrite filter_cons.
  by destruct (decide (c_rank (cell m c) ≠ r)).
Qed.

Lemma elem_of_nonrank_particle_ids r m cells id :
  id ∈ nonrank_particle_ids r m cells
  ↔ ∃ c, c ∈ cells ∧ c_rank (cell m c) ≠ r ∧ id ∈ c_particles (cell m c).
Proof.
  unfold nonrank_particle_ids. rewrite list_elem_of_In, in_concat. split.
  - intros (l & Hl & Hid). apply list_elem_of_In in Hl, Hid.
    apply list_elem_of_fmap in Hl as (c & -> & Hc).
    apply list_elem_of_filter in Hc as [? ?]. by exists c.
  - intros (c & Hc & Hr & Hid). exists (c_particles (cell m c)).
    split; apply list_elem_of_In; [|done].
    apply list_elem_of_fmap. exists c. split; [done|].
    by apply list_elem_of_filter.
Qed.

Lemma nonrank_loop (mpi_rank : N) (m : Mesh) (rest : list ptr) :
  ∀ pre m1 mp1,
  keyed_by_id m →
  NoDup (pre ++ rest) →
  NoDup (nonrank_particle_ids mpi_rank m (pre ++ rest)) →
  (∀ id, id ∈ nonrank_particle_ids mpi_rank m (pre ++ rest) →
         is_Some (map_particles_ m !! id)) →
  nonrank_progress mpi_rank m pre rest mp1 m1 →
  ∃ m' mp',
    for_each rest (λ c,
      let* m1 := get in
      if bool_decide (length (c_particles (cell m1 c)) ≠ 0%nat)
         && bool_decide (c_rank (cell m1 c) ≠ mpi_rank)
      then
        let* _ := for_each (c_particles (cell m1 c)) drop_particle_id in
        CellBase.clear_particle_ids c
      else ret tt) m1 = (Ok tt, m')
    ∧ nonrank_progress mpi_rank m (pre ++ rest) [] mp' m'.
Proof.
  induction rest as [|c rest IH]; intros pre m1 mp1 Hkey Hnd HndL Hin Hinv.
  { exists m1, mp1. split; [done|]. by rewrite app_nil_r. }
  destruct Hinv as (Hdr & Hmp & Hrest & Hpre & Hoth).
  assert ((c ∉ pre) ∧ (c ∉ rest) ∧ NoDup rest) as (Hcpre & Hcrest & Hndrest).
  { apply NoDup_app in Hnd as (_ & Hd & Hr). apply NoDup_cons in Hr as [? ?].
    split_and!; [|done..]. intros Hc. apply (Hd c Hc), elem_of_cons. by left. }
  assert (pre ++ c :: rest = (pre ++ [c]) ++ rest) as Happ
    by by rewrite <- app_assoc.
  rewrite Happ in Hnd, HndL, Hin, Hoth.
  cbn [for_each]. rewrite bind_assoc, bind_get.
  rewrite (dropped_rank _ _ _ c Hdr).
  destruct (decide (c_rank (cell m c) ≠ mpi_rank)) as [Hr|Hr].
  2:{ rewrite (bool_decide_eq_false_2 _ Hr), andb_false_r, bind_ret.
      destruct (IH (pre ++ [c]) m1 mp1 Hkey Hnd HndL Hin) as (m' & mp' & Hrun & Hfin).
      - split_and!; [done| | | |].
        + intros i. rewrite Hmp, nonrank_particle_ids_app,
            nonrank_particle_ids_cons.
          rewrite (decide_False _ _ Hr). cbn. by rewrite !app_nil_r.
        + intros c' Hc'. apply Hrest, elem_of_cons. by right.
        + intros c' [Hc'| ->%list_elem_of_singleton]%elem_of_app Hr';
            [by apply Hpre|done].
        + done.
      - exists m', mp'. by rewrite Happ. }
  rewrite (bool_decide_eq_true_2 _ Hr), andb_true_r.
  assert (c_particles (cell m1 c) = c_particles (cell m c)) as Hlist.
  { apply Hrest; [|done]. apply elem_of_cons. by left. }
  rewrite Hlist.
  assert (nonrank_particle_ids mpi_rank m ((pre ++ [c]) ++ rest)
          = nonrank_particle_ids mpi_rank m pre ++ c_particles (cell m c)
            ++ nonrank_particle_ids mpi_rank m rest) as HL.
  { rewrite <- Happ, nonrank_particle_ids_app, nonrank_particle_ids_cons.
    by rewrite (decide_True _ _ Hr). }
  assert (nonrank_particle_ids mpi_rank m (pre ++ [c])
          = nonrank_particle_ids mpi_rank m pre ++ c_particles (cell m c)) as HLc.
  { rewrite nonrank_particle_ids_app, nonrank_particle_ids_cons.
    rewrite (decide_True _ _ Hr). cbn. by rewrite app_nil_r. }
  pose proof HndL as HndL'. rewrite HL in HndL'.
  apply NoDup_app in HndL' as (_ & Hdpre & HndL').
  apply NoDup_app in HndL' as (Hndc & Hdrest & _).
  assert (∀ id, id ∈ c_particles (cell m c) →
                id ∉ nonrank_particle_ids mpi_rank m pre) as Hfresh.
  { intros id Hid Hp. apply (Hdpre id Hp), elem_of_app. by left. }
  assert (map_particles_ m1 = mp1) as Hm1.
  { by destruct Hdr as (s & -> & _). }
  destruct (decide (length (c_particles (cell m c)) ≠ 0%nat)) as [Hlen|Hlen].
  2:{ rewrite (bool_decide_eq_false_2 _ Hlen). cbn [andb]. rewrite bind_ret.
      assert (c_particles (cell m c) = []) as Hnil.
      { destruct (c_particles (cell m c)); [done|]. cbn in Hlen. lia. }
      destruct (IH (pre ++ [c]) m1 mp1 Hkey Hnd HndL Hin) as (m' & mp' & Hrun & Hfin).
      - split_and!; [done| | | |].
        + intros i. by rewrite Hmp, HLc, Hnil, app_nil_r.
        + intros c' Hc'. apply Hrest, elem_of_cons. by right.
        + intros c' [Hc'| ->%list_elem_of_singleton]%elem_of_app Hr';
            [by apply Hpre|]. by rewrite Hlist.
        + done.
      - exists m', mp'. by rewrite Happ. }
  rewrite (bool_decide_eq_true_2 _ Hlen). cbn [andb].
  destruct (drop_particle_ids_lists (c_particles (cell m c)) m1)
    as (m2 & mp2 & Hrun2 & Hdr2 & Hmp2 & Hlists2).
  { done. }
  { apply (dropped_keyed mp1 m); [done..|]. intros i p. rewrite Hmp.
    by destruct (decide _). }
  { intros id Hid. rewrite Hm1, Hmp, (decide_False _ _ (Hfresh id Hid)).
    apply Hin. rewrite HL. apply elem_of_app. right. apply elem_of_app.
    by left. }
  rewrite bind_assoc, (bind_run _ _ _ _ _ Hrun2).
  destruct (clear_particle_ids_lists c m2) as (m3 & Hrun3 & Hf3 & Hc3 & Hoth3).
  rewrite (bind_run _ _ _ _ _ Hrun3).
  assert (∀ c', c' ≠ c → c_rank (cell m c') ≠ mpi_rank → c' ∈ pre ++ rest →
                c_particles (cell m3 c') = c_particles (cell m1 c')) as Hkeep.
  { intros c' Hne Hr' Hc'. rewrite (Hoth3 c' Hne). apply Hlists2.
    intros id Hid Hid'. apply elem_of_app in Hc' as [Hc'|Hc'].
    - rewrite (Hpre c' Hc' Hr') in Hid'. by apply elem_of_nil in Hid'.
    - rewrite (Hrest c') in Hid'; [|apply elem_of_cons; by right|done].
      apply (Hdrest id Hid). apply elem_of_nonrank_particle_ids.
      by exists c'. }
  destruct (IH (pre ++ [c]) m3 mp2 Hkey Hnd HndL Hin) as (m' & mp' & Hrun & Hfin).
  - split_and!.
    + apply (dropped_frame _ _ m2); [|done].
      clear -Hdr Hdr2.
      destruct Hdr as (s1 & -> & H1), Hdr2 as (s2 & -> & H2).
      exists s2. split; [done|]. by apply (stable_trans _ s1).
    + intros i. rewrite Hmp2, Hm1, Hmp, HLc.
      destruct (decide (i ∈ c_particles (cell m c))) as [Hi|Hi].
      * rewrite decide_True; [done|]. apply elem_of_app. by right.
      * destruct (decide (i ∈ nonrank_particle_ids mpi_rank m pre)) as [Hp|Hp].
        -- rewrite decide_True; [done|]. apply elem_of_app. by left.
        -- rewrite decide_False; [done|]. intros [?|?]%elem_of_app; tauto.
    + intros c' Hc' Hr'. rewrite Hkeep; [| |done|].
      * apply Hrest; [|done]. apply elem_of_cons. by right.
      * intros ->. done.
      * apply elem_of_app. by right.
    + intros c' [Hc'| ->%list_elem_of_singleton]%elem_of_app Hr'; [|done].
      rewrite Hkeep; [by apply Hpre| |done|].
      * intros ->. done.
      * apply elem_of_app. by left.
    + intros c' Hc'. assert (c' ≠ c) as Hne.
      { intros ->. destruct (c_particles (cell m c)) as [|id l] eqn:Hl;
          [done|]. apply (Hc' id); [|apply elem_of_cons; by left].
        rewrite HL. apply elem_of_app. right. apply elem_of_app. left.
        apply elem_of_cons. by left. }
      rewrite (Hoth3 c' Hne), Hlists2; [by apply Hoth|].
      intros id Hid. rewrite (Hoth c' Hc'). apply Hc'. rewrite HL.
      apply elem_of_app. right. apply elem_of_app. by left.
  - exists m', mp'. by rewrite Happ.
Qed.

Lemma dropped_refl m : dropped (map_particles_ m) m m.
Proof. exists (objects m). split; [by destruct m|apply stable_refl]. Qed.

(** X18. [remove_all_nonrank_particles] on a mesh whose id map keeps every
    particle under its own id, whose cell container has no cell twice, and
    whose cells of other ranks list each particle id once and only ids of
    the id map: it returns; the id map loses exactly the ids that the
    cells of other ranks listed; the particle container is rebuilt in step
    with the id map; every cell of another rank lists no particle; a cell
    that listed none of the removed ids lists what it listed; the node and
    cell containers are as they were. *)
Theorem remove_all_nonrank_particles_clears (mpi_rank : N) (m : Mesh) :
  keyed_by_id m → NoDup (cells_ m) →
  NoDup (nonrank_particle_ids mpi_rank m (cells_ m)) →
  (∀ id, id ∈ nonrank_particle_ids mpi_rank m (cells_ m) →
         is_Some (map_particles_ m !! id)) →
  ∃ m', remove_all_nonrank_particles mpi_rank m = (Ok tt, m')
    ∧ (∀ i, map_particles_ m' !! i
            = if decide (i ∈ nonrank_particle_ids mpi_rank m (cells_ m))
              then None else map_particles_ m !! i)
    ∧ in_sync (λ q, p_id (particle m' q)) (particles_ m') (map_particles_ m')
    ∧ (∀ c, c ∈ cells_ m → c_rank (cell m c) ≠ mpi_rank →
            c_particles (cell m' c) = [])
    ∧ (∀ c, (∀ id, id ∈ nonrank_particle_ids mpi_rank m (cells_ m) →
                   id ∉ c_particles (cell m c)) →
            c_particles (cell m' c) = c_particles (cell m c))
    ∧ nodes_ m' = nodes_ m ∧ map_nodes_ m' = map_nodes_ m
    ∧ cells_ m' = cells_ m ∧ map_cells_ m' = map_cells_ m.
Proof.
  intros Hkey Hnd HndL Hin. unfold remove_all_nonrank_particles.
  rewrite bind_get.
  destruct (nonrank_loop mpi_rank m (cells_ m) [] m (map_particles_ m))
    as (m1 & mp & Hrun & Hdr & Hmp & _ & Hpre & Hoth); [done..| |].
  { split_and!; [apply dropped_refl| |done| |done].
    - intros i. rewrite decide_False; [done|]. by intros ?%elem_of_nil.
    - by intros c ?%elem_of_nil. }
  cbn [app] in *. rewrite app_nil_r in Hoth.
  rewrite (bind_run _ _ _ _ _ Hrun), rebuild_particles_spec.
  destruct Hdr as (s & -> & Hst).
  eexists. split; [done|]. cbn. split_and!; try done.
  apply in_sync_map_values. intros i p Hip.
  unfold particle. cbn. destruct Hst as (Hpart & _).
  destruct (Hpart p) as [-> _]. apply Hkey.
  rewrite Hmp in Hip. by destruct (decide _).
Qed.

(** The line mesh with its located particle, seen from rank 1: both cells
    belong to rank 0, and the particle with the id 0 goes. *)
Lemma remove_all_nonrank_particles_clears_witness :
  ∃ m', remove_all_nonrank_particles 1 located_mesh = (Ok tt, m')
    ∧ (∀ i, map_particles_ m' !! i
            = if decide (i ∈ nonrank_particle_ids 1 located_mesh
                               (cells_ located_mesh))
              then None else map_particles_ located_mesh !! i)
    ∧ in_sync (λ q, p_id (particle m' q)) (particles_ m') (map_particles_ m')
    ∧ (∀ c, c ∈ cells_ located_mesh → c_rank (cell located_mesh c) ≠ 1%N →
            c_particles (cell m' c) = [])
    ∧ (∀ c, (∀ id, id ∈ nonrank_particle_ids 1 located_mesh
                            (cells_ located_mesh) →
                   id ∉ c_particles (cell located_mesh c)) →
            c_particles (cell m' c) = c_particles (cell located_mesh c))
    ∧ nodes_ m' = nodes_ located_mesh ∧ map_nodes_ m' = map_nodes_ located_mesh
    ∧ cells_ m' = cells_ located_mesh ∧ map_cells_ m' = map_cells_ located_mesh.
Proof.
  assert (nonrank_particle_ids 1 located_mesh (cells_ located_mesh) = [0%N])
    as Hids by by vm_compute.
  apply (remove_all_nonrank_particles_clears 1 located_mesh).
  - intros i p Hip.
    assert (map_particles_ located_mesh = {[ 0%N := 1%positive ]}) as Hmp
      by by vm_compute.
    rewrite Hmp in Hip. apply lookup_singleton_Some in Hip as [<- <-].
    by vm_compute.
  - assert (cells_ located_mesh = [1%positive; 2%positive]) as ->
      by by vm_compute.
    apply NoDup_cons. split; [by intros ?%list_elem_of_singleton|].
    apply NoDup_singleton.
  - rewrite Hids. apply NoDup_singleton.
  - rewrite Hids. intros id ->%list_elem_of_singleton. exists 1%positive.
    by vm_compute.
Defined.

(** On that mesh the removal empties the id map, the container and the
    list of the cell that held the particle. *)
Example located_mesh_nonrank_removed :
  let m' := (remove_all_nonrank_particles 1 located_mesh).2 in
  map_particles_ m' = ∅ ∧ particles_ m' = []
  ∧ c_particles (cell located_mesh 2%positive) = [0%N]
  ∧ c_particles (cell m' 2%positive) = [].
Proof. by vm_compute. Qed.
(** ** The two single removals *)

(** X19. [remove_particle_by_id] on an id under which the id map keeps a
    particle with that id does what [remove_particle] does on that
    particle: the same result, the same mesh afterwards. *)
Theorem remove_particle_by_id_agrees (id : Index) (q : ptr) (m : Mesh) :
  map_particles_ m !! id = Some q → p_id (particle m q) = id →
  remove_particle_by_id id m = remove_particle q m.
Proof.
  intros Hq Hid. unfold remove_particle_by_id, remove_particle.
  rewrite !bind_get. cbn zeta. rewrite Hid. unfold Map.at_ at 1 3.
  rewrite Hq, !bind_ret.
  destruct (remove_cell_objects_only q m) as (m1 & Hrun & s & -> & Hst).
  rewrite !(bind_run _ _ _ _ _ Hrun), !bind_get.
  unfold Map.at_. cbn [map_particles_ set_objects]. by rewrite Hq, bind_ret.
Qed.

(** The located particle of the line mesh, by its id 0. *)
Lemma remove_particle_by_id_agrees_witness :
  remove_particle_by_id 0 located_mesh = remove_particle 1%positive located_mesh.
Proof. by apply (remove_particle_by_id_agrees 0 1%positive located_mesh). Defined.

(** Either way the particle leaves the container, the id map and the list
    of its cell. *)
Example located_mesh_removed_by_id :
  let r := remove_particle_by_id 0 located_mesh in
  r.1 = Ok true ∧ particles_ r.2 = [] ∧ map_particles_ r.2 = ∅
  ∧ c_particles (cell r.2 2%positive) = [].
Proof. by vm_compute. Qed.
(** ** Ghost cells *)

Lemma set_insert_ascending (x : Index) (l : list Index) :
  ascending l → ascending (set_insert x l).
Proof.
  induction l as [|y l IH]; cbn.
  - intros _. split; [by intros ? ?%elem_of_nil|done].
  - intros [Hy Hl]. destruct (x <? y)%N eqn:Hlt.
    + apply N.ltb_lt in Hlt. cbn. split_and!; [|done..].
      intros z [->|Hz]%elem_of_cons; [done|]. specialize (Hy z Hz). lia.
    + destruct (x =? y)%N eqn:Heq; [done|]. cbn. split; [|by apply IH].
      intros z [->|Hz]%elem_of_set_insert; [|by apply Hy].
      apply N.ltb_ge in Hlt. apply N.eqb_neq in Heq. lia.
Qed.

Lemma ghost_neighbours_spec (mpi_rank : N) (m : Mesh) (neighbours : list Index) :
  ∀ gc nr,
  cells_keyed_by_id m →
  (∀ i, i ∈ neighbours → is_Some (map_cells_ m !! i)) →
  (∀ d, d ∈ gc → map_cells_ m !! c_id (cell m d) = Some d) →
  NoDup gc → ascending nr →
  ∃ gc' nr',
    ghost_neighbours mpi_rank m neighbours gc nr = (Ok tt, (gc', nr'))
    ∧ (∀ d, d ∈ gc' ↔ d ∈ gc ∨ (c_rank (cell m d) ≠ mpi_rank
          ∧ ∃ i, i ∈ neighbours ∧ map_cells_ m !! i = Some d))
    ∧ (∀ d, d ∈ gc' → map_cells_ m !! c_id (cell m d) = Some d)
    ∧ NoDup gc' ∧ ascending nr'
    ∧ (∀ k, k ∈ nr' ↔ k ∈ nr ∨ ∃ d i, c_rank (cell m d) ≠ mpi_rank
          ∧ i ∈ neighbours ∧ map_cells_ m !! i = Some d
          ∧ c_rank (cell m d) = k).
Proof.
  induction neighbours as [|i neighbours IH];
    intros gc nr Hkey Hres Hgc Hnd Hasc; cbn [ghost_neighbours].
  { exists gc, nr. split_and!; [done| |done..|].
    - intros d. split; [by left|]. intros [?|(_ & ? & ?%elem_of_nil & _)]; done.
    - intros k. split; [by left|].
      intros [?|(? & ? & _ & ?%elem_of_nil & _)]; done. }
  destruct (Hres i) as [d Hd]; [apply elem_of_cons; by left|].
  unfold Map.at_. rewrite Hd. cbn [ret fst].
  assert (∀ j, j ∈ neighbours → is_Some (map_cells_ m !! j)) as Hres'.
  { intros j Hj. apply Hres, elem_of_cons. by right. }
  destruct (decide (c_rank (cell m d) ≠ mpi_rank)) as [Hr|Hr].
  - rewrite (bool_decide_eq_true_2 _ Hr).
    assert (∃ gc1, (Container.add (cell_id m) gc d true).2 = gc1
              ∧ (∀ d', d' ∈ gc1 ↔ d' ∈ gc ∨ d' = d) ∧ NoDup gc1)
      as (gc1 & -> & Hgc1 & Hnd1).
    { unfold Container.add, Container.has_id. cbn [andb].
      case_bool_decide as Hhas; cbn [snd]; eexists; split; try done.
      - apply list_elem_of_fmap in Hhas as (d' & Hid & Hd').
        assert (d' = d) as ->.
        { pose proof (Hgc d' Hd') as Hm. unfold cell_id in Hid.
          rewrite <- Hid, (Hkey i d Hd), Hd in Hm. by injection Hm. }
        split; [|done]. intros d'. split; [by left|]. by intros [?| ->].
      - split.
        + intros d'. rewrite elem_of_app, list_elem_of_singleton. tauto.
        + apply NoDup_app. split_and!; [done| |apply NoDup_singleton].
          intros d' Hd' ->%list_elem_of_singleton. apply Hhas.
          apply list_elem_of_fmap. by exists d. }
    destruct (IH gc1 (set_insert (c_rank (cell m d)) nr) Hkey Hres')
      as (gc' & nr' & Hrun & Hin & Hmap & Hnd' & Hasc' & Hnr);
      [|done|by apply set_insert_ascending|].
    { intros d' [?| ->]%Hgc1; [by apply Hgc|]. by rewrite (Hkey i d Hd). }
    exists gc', nr'. split_and!; [done| |done..|].
    + intros d'. rewrite Hin, Hgc1. split.
      * intros [[?| ->]|(? & j & ? & ?)]; [by left| |].
        -- right. split; [done|]. exists i. split; [|done].
           apply elem_of_cons. by left.
        -- right. split; [done|]. exists j. split; [|done].
           apply elem_of_cons. by right.
      * intros [?|(? & j & [->|?]%elem_of_cons & Hj)]; [by left; left| |].
        -- left; right. rewrite Hd in Hj. by injection Hj.
        -- right. split; [done|]. by exists j.
    + intros k. rewrite Hnr, elem_of_set_insert. split.
      * intros [[->|?]|(d' & j & ? & ? & ? & ?)]; [|by left|].
        -- right. exists d, i. split_and!; [done| |done..].
           apply elem_of_cons. by left.
        -- right. exists d', j. split_and!; [done| |done..].
           apply elem_of_cons. by right.
      * intros [?|(d' & j & ? & [->|?]%elem_of_cons & Hj & Hk)];
          [by left; right| |].
        -- rewrite Hd in Hj. injection Hj as <-. by left; left.
        -- right. by exists d', j.
  - rewrite (bool_decide_eq_false_2 _ Hr).
    destruct (IH gc nr Hkey Hres' Hgc Hnd Hasc)
      as (gc' & nr' & Hrun & Hin & Hmap & Hnd' & Hasc' & Hnr).
    exists gc', nr'. split_and!; [done| |done..|].
    + intros d'. rewrite Hin. split.
      * intros [?|(? & j & ? & ?)]; [by left|]. right. split; [done|].
        exists j. split; [|done]. apply elem_of_cons. by right.
      * intros [?|(Hr' & j & [->|?]%elem_of_cons & Hj)]; [by left| |].
        -- rewrite Hd in Hj. injection Hj as <-. done.
        -- right. split; [done|]. by exists j.
    + intros k. rewrite Hnr. split.
      * intros [?|(d' & j & ? & ? & ? & ?)]; [by left|].
        right. exists d', j. split_and!; [done| |done..].
        apply elem_of_cons. by right.
      * intros [?|(d' & j & Hr' & [->|?]%elem_of_cons & Hj & Hk)];
          [by left| |].
        -- rewrite Hd in Hj. injection Hj as <-. done.
        -- right. by exists d', j.
Qed.

Lemma ghost_cells_loop_spec (mpi_rank : N) (m : Mesh) (rest : list ptr) :
  ∀ pre g,
  cells_keyed_by_id m →
  (∀ c i, c ∈ rest → c_rank (cell m c) = mpi_rank →
          i ∈ c_neighbours (cell m c) → is_Some (map_cells_ m !! i)) →
  NoDup ((λ c, wrap32 (c_id (cell m c))) <$> pre ++ rest) →
  ghost_progress mpi_rank m pre g →
  ∃ g', ghost_cells_loop mpi_rank m rest g = (Ok tt, g')
        ∧ ghost_progress mpi_rank m (pre ++ rest) g'.
Proof.
  induction rest as [|c rest IH]; intros pre g Hkey Hres Hids Hinv.
  { exists g. split; [done|]. by rewrite app_nil_r. }
  assert (pre ++ c :: rest = (pre ++ [c]) ++ rest) as Happ
    by by rewrite <- app_assoc.
  assert (∀ c', c' ∈ pre →
                wrap32 (c_id (cell m c')) ≠ wrap32 (c_id (cell m c))) as Hfresh.
  { intros c' Hc' Heq. rewrite fmap_app in Hids.
    apply NoDup_app in Hids as (_ & Hd & _).
    apply (Hd (wrap32 (c_id (cell m c')))).
    - apply list_elem_of_fmap. by exists c'.
    - rewrite Heq, fmap_cons. apply elem_of_cons. by left. }
  assert (∀ c' i, c' ∈ rest → c_rank (cell m c') = mpi_rank →
                  i ∈ c_neighbours (cell m c') →
                  is_Some (map_cells_ m !! i)) as Hres'.
  { intros c' i Hc'. apply Hres, elem_of_cons. by right. }
  rewrite Happ in Hids |- *.
  destruct Hinv as (Hgc & Hmap & Hnd & Hloc & Hndl & Hrk & Hkeys).
  cbn [ghost_cells_loop].
  destruct (decide (c_rank (cell m c) = mpi_rank)) as [Hr|Hr].
  2:{ rewrite (bool_decide_eq_false_2 _ Hr). cbn [length].
      rewrite bool_decide_eq_false_2 by lia.
      apply (IH (pre ++ [c])); [done..|].
      assert (∀ d, ¬ ghost_neighbour mpi_rank m c d) as Hno
        by (by intros d [? _]).
      unfold ghost_progress. cbn. split_and!; [| done..| | done| |].
      - intros d. rewrite Hgc. split.
        + intros (c' & ? & ?). exists c'. split; [|done].
          apply elem_of_app. by left.
        + intros (c' & [?| ->%list_elem_of_singleton]%elem_of_app & Hgn);
            [by exists c'|by apply Hno in Hgn].
      - intros c'. rewrite Hloc, elem_of_app, list_elem_of_singleton.
        split; [intros [? ?]; tauto|].
        intros [[?| ->] [d Hgn]]; [by eauto|by apply Hno in Hgn].
      - intros c' [?| ->%list_elem_of_singleton]%elem_of_app [d Hgn];
          [by eauto|by apply Hno in Hgn].
      - intros k Hk. destruct (Hkeys k Hk) as (c' & d & ? & ? & ?).
        exists c', d. split_and!; [|done..]. apply elem_of_app. by left. }
  rewrite (bool_decide_eq_true_2 _ Hr).
  destruct (ghost_neighbours_spec mpi_rank m (c_neighbours (cell m c))
              (ghost_cells_ g) []) as (gc' & nr' & -> & Hgc' & Hmap' & Hnd'
                                       & Hasc' & Hnr'); [done| |done..|].
  { intros i. apply Hres; [|done]. apply elem_of_cons. by left. }
  assert (∀ k, k ∈ nr' ↔ ∃ d, ghost_neighbour mpi_rank m c d
                              ∧ c_rank (cell m d) = k) as Hnr.
  { intros k. rewrite Hnr'. split.
    - intros [?%elem_of_nil|(d & i & ? & ? & ? & ?)]; [done|].
      exists d. split; [|done]. split_and!; [done..|]. by exists i.
    - intros (d & (_ & ? & i & ? & ?) & ?). right. by exists d, i. }
  assert (∀ d, d ∈ gc' ↔ ∃ c', c' ∈ pre ++ [c]
                               ∧ ghost_neighbour mpi_rank m c' d) as Hgc1.
  { intros d. rewrite Hgc', Hgc. split.
    - intros [(c' & ? & ?)|[? ?]].
      + exists c'. split; [|done]. apply elem_of_app. by left.
      + exists c. split; [|done]. apply elem_of_app. right.
        by apply list_elem_of_singleton.
    - intros (c' & [?| ->%list_elem_of_singleton]%elem_of_app & Hgn).
      + left. by exists c'.
      + right. by destruct Hgn as (_ & ? & ?). }
  destruct (decide (0 < length nr')%nat) as [Hlen|Hlen].
  - rewrite (bool_decide_eq_true_2 _ Hlen).
    assert (∃ d, ghost_neighbour mpi_rank m c d) as Hex.
    { destruct nr' as [|k nr']; [cbn in Hlen; lia|].
      destruct (proj1 (Hnr k)) as (d & ? & _); [apply elem_of_cons; by left|].
      by exists d. }
    assert ((Container.add (cell_id m) (local_ghost_cells_ g) c true).2
            = local_ghost_cells_ g ++ [c] ∧ (c ∉ local_ghost_cells_ g))
      as [-> Hcl].
    { assert (c ∉ local_ghost_cells_ g) as Hcl.
      { intros [Hc _]%Hloc. by apply (Hfresh c Hc). }
      split; [|done]. unfold Container.add, Container.has_id. cbn [andb].
      rewrite bool_decide_eq_false_2; [done|].
      intros (c' & Hid & [Hc' _]%Hloc)%list_elem_of_fmap.
      apply (Hfresh c' Hc'). unfold cell_id in Hid. by rewrite Hid. }
    apply (IH (pre ++ [c])); [done..|].
    unfold ghost_progress. cbn. split_and!; [done..| | | |].
    + intros c'. rewrite !elem_of_app, Hloc, list_elem_of_singleton.
      split; [intros [[? ?]| ->]; tauto|]. intros [[?| ->] ?]; tauto.
    + apply NoDup_app. split_and!; [done| |apply NoDup_singleton].
      by intros c' Hc' ->%list_elem_of_singleton.
    + intros c' [Hc'| ->%list_elem_of_singleton]%elem_of_app Hgn.
      * rewrite lookup_insert_ne; [by apply Hrk|]. intros Heq.
        by apply (Hfresh c' Hc').
      * rewrite lookup_insert_eq. by exists nr'.
    + intros k Hk. destruct (decide (k = wrap32 (c_id (cell m c)))) as [->|Hne].
      * destruct Hex as [d Hd]. exists c, d. split_and!; [|done..].
        apply elem_of_app. right. by apply list_elem_of_singleton.
      * rewrite lookup_insert_ne in Hk by done.
        destruct (Hkeys k Hk) as (c' & d & ? & ? & ?).
        exists c', d. split_and!; [|done..]. apply elem_of_app. by left.
  - rewrite (bool_decide_eq_false_2 _ Hlen).
    assert (∀ d, ¬ ghost_neighbour mpi_rank m c d) as Hno.
    { intros d Hd. destruct nr' as [|k nr']; [|cbn in Hlen; lia].
      apply (elem_of_nil (c_rank (cell m d))), Hnr. by exists d. }
    apply (IH (pre ++ [c])); [done..|].
    unfold ghost_progress. cbn. split_and!; [done..| | done| |].
    + intros c'. rewrite Hloc, elem_of_app, list_elem_of_singleton.
      split; [intros [? ?]; tauto|].
      intros [[?| ->] [d Hgn]]; [by eauto|by apply Hno in Hgn].
    + intros c' [?| ->%list_elem_of_singleton]%elem_of_app [d Hgn];
        [by eauto|by apply Hno in Hgn].
    + intros k Hk. destruct (Hkeys k Hk) as (c' & d & ? & ? & ?).
      exists c', d. split_and!; [|done..]. apply elem_of_app. by left.
Qed.

Lemma find_ghost_boundary_cells_spec (mpi_size mpi_rank : N) (m : Mesh)
    (g : Ghosts) :
  (1 < mpi_size)%N → cells_keyed_by_id m → neighbours_resolve mpi_rank m →
  NoDup ((λ c, wrap32 (c_id (cell m c))) <$> cells_ m) →
  ∃ g', find_ghost_boundary_cells true mpi_size mpi_rank m g = (Ok tt, g')
        ∧ ghost_progress mpi_rank m (cells_ m) g'.
Proof.
  intros Hsize Hkey Hres Hids. unfold find_ghost_boundary_cells.
  rewrite (bool_decide_eq_true_2 _ Hsize). cbn [andb].
  apply (ghost_cells_loop_spec mpi_rank m (cells_ m) []); [done..|].
  unfold ghost_progress. cbn. split_and!.
  - intros d. split; [by intros ?%elem_of_nil|].
    by intros (c & ?%elem_of_nil & _).
  - by intros d ?%elem_of_nil.
  - apply NoDup_nil_2.
  - intros c. split; [by intros ?%elem_of_nil|]. by intros [?%elem_of_nil _].
  - apply NoDup_nil_2.
  - by intros c ?%elem_of_nil.
  - intros k [l Hl]. by rewrite lookup_empty in Hl.
Qed.

(** X20. [find_ghost_boundary_cells] in a build with MPI on more than one
    rank, on a mesh whose cell map keeps every cell under its own id, whose
    cells of the rank have neighbour ids of the cell map only, and whose
    cells have distinct ids as [unsigned]: it returns, whatever the ghost
    members held before, and [ghost_cells_] then holds, each once, exactly
    the cells of other ranks that are neighbours of a cell of the rank. *)
Theorem find_ghost_boundary_cells_ghosts (mpi_size mpi_rank : N) (m : Mesh)
    (g : Ghosts) :
  (1 < mpi_size)%N → cells_keyed_by_id m → neighbours_resolve mpi_rank m →
  NoDup ((λ c, wrap32 (c_id (cell m c))) <$> cells_ m) →
  ∃ g', find_ghost_boundary_cells true mpi_size mpi_rank m g = (Ok tt, g')
    ∧ NoDup (ghost_cells_ g')
    ∧ ∀ d, d ∈ ghost_cells_ g'
           ↔ ∃ c, c ∈ cells_ m ∧ ghost_neighbour mpi_rank m c d.
Proof.
  intros Hsize Hkey Hres Hids.
  destruct (find_ghost_boundary_cells_spec mpi_size mpi_rank m g)
    as (g' & Hrun & Hgc & _ & Hnd & _); [done..|].
  by exists g'.
Qed.

(** X21. [find_ghost_boundary_cells] in a build with MPI on more than one
    rank, on a mesh whose cell map keeps every cell under its own id, whose
    cells of the rank have neighbour ids of the cell map only, and whose
    cells have distinct ids as [unsigned]: it returns, and
    [local_ghost_cells_] then holds, each once, exactly the cells of the
    container that belong to the rank and have a neighbour of another
    rank. *)
Theorem find_ghost_boundary_cells_local (mpi_size mpi_rank : N) (m : Mesh)
    (g : Ghosts) :
  (1 < mpi_size)%N → cells_keyed_by_id m → neighbours_resolve mpi_rank m →
  NoDup ((λ c, wrap32 (c_id (cell m c))) <$> cells_ m) →
  ∃ g', find_ghost_boundary_cells true mpi_size mpi_rank m g = (Ok tt, g')
    ∧ NoDup (local_ghost_cells_ g')
    ∧ ∀ c, c ∈ local_ghost_cells_ g'
           ↔ c ∈ cells_ m ∧ ∃ d, ghost_neighbour mpi_rank m c d.
Proof.
  intros Hsize Hkey Hres Hids.
  destruct (find_ghost_boundary_cells_spec mpi_size mpi_rank m g)
    as (g' & Hrun & _ & _ & _ & Hloc & Hnd & _); [done..|].
  by exists g'.
Qed.

(** X22. [find_ghost_boundary_cells] in a build with MPI on more than one
    rank, on a mesh whose cell map keeps every cell under its own id, whose
    cells of the rank have neighbour ids of the cell map only, and whose
    cells have distinct ids as [unsigned]: it returns, and
    [ghost_cells_neighbour_ranks_] then has an entry for the id of every
    cell of the rank with a neighbour of another rank, and for no other
    key: the ranks of these neighbours, in ascending order, each once, the
    rank of the process not among them. *)
Theorem find_ghost_boundary_cells_ranks (mpi_size mpi_rank : N) (m : Mesh)
    (g : Ghosts) :
  (1 < mpi_size)%N → cells_keyed_by_id m → neighbours_resolve mpi_rank m →
  NoDup ((λ c, wrap32 (c_id (cell m c))) <$> cells_ m) →
  ∃ g', find_ghost_boundary_cells true mpi_size mpi_rank m g = (Ok tt, g')
    ∧ (∀ c, c ∈ cells_ m → (∃ d, ghost_neighbour mpi_rank m c d) →
            ∃ l, ghost_cells_neighbour_ranks_ g' !! wrap32 (c_id (cell m c))
                 = Some l
                 ∧ ascending l ∧ (mpi_rank ∉ l)
                 ∧ ∀ k, k ∈ l ↔ ∃ d, ghost_neighbour mpi_rank m c d
                                     ∧ c_rank (cell m d) = k)
    ∧ (∀ k, is_Some (ghost_cells_neighbour_ranks_ g' !! k) →
            ∃ c d, c ∈ cells_ m ∧ k = wrap32 (c_id (cell m c))
                   ∧ ghost_neighbour mpi_rank m c d).
Proof.
  intros Hsize Hkey Hres Hids.
  destruct (find_ghost_boundary_cells_spec mpi_size mpi_rank m g)
    as (g' & Hrun & _ & _ & _ & _ & _ & Hrk & Hkeys); [done..|].
  exists g'. split_and!; [done| |done].
  intros c Hc Hgn. destruct (Hrk c Hc Hgn) as (l & Hl & Hasc & Hin).
  exists l. split_and!; [done..| |done].
  intros (d & (_ & Hne & _) & Heq)%Hin. done.
Qed.

(** The line of four cells: its cell map, neighbours and ids are in order
    for rank 0. *)
Lemma ghost_mesh_keyed : cells_keyed_by_id ghost_mesh.
Proof.
  intros i d Hd.
  assert (map_cells_ ghost_mesh
          = list_to_map [(0%N, 1%positive); (1%N, 2%positive);
                         (2%N, 3%positive); (3%N, 4%positive)]) as Hmap
    by done.
  rewrite Hmap in Hd. apply elem_of_list_to_map_2 in Hd.
  repeat (apply elem_of_cons in Hd as [[= -> ->]|Hd]; [by vm_compute|]).
  by apply elem_of_nil in Hd.
Qed.

Lemma ghost_mesh_resolves : neighbours_resolve 0 ghost_mesh.
Proof.
  assert (Forall (λ c, Forall (λ i, is_Some (map_cells_ ghost_mesh !! i))
                         (c_neighbours (cell ghost_mesh c)))
            (cells_ ghost_mesh)) as Hall.
  { vm_compute. repeat (constructor; [repeat (constructor; [by eexists|])|]);
      constructor. }
  intros c i Hc _ Hi. rewrite Forall_forall in Hall.
  specialize (Hall c Hc). rewrite Forall_forall in Hall. by apply Hall.
Qed.

Lemma ghost_mesh_ids :
  NoDup ((λ c, wrap32 (c_id (cell ghost_mesh c))) <$> cells_ ghost_mesh).
Proof.
  assert ((λ c, wrap32 (c_id (cell ghost_mesh c))) <$> cells_ ghost_mesh
          = [0; 1; 2; 3]%N) as -> by by vm_compute.
  repeat (apply NoDup_cons; split; [set_solver|]). apply NoDup_nil_2.
Qed.

Lemma find_ghost_boundary_cells_ghosts_witness :
  ∃ g', find_ghost_boundary_cells true 2 0 ghost_mesh
          {| ghost_cells_ := [4%positive]; local_ghost_cells_ := [];
             ghost_cells_neighbour_ranks_ := ∅ |} = (Ok tt, g')
    ∧ NoDup (ghost_cells_ g')
    ∧ ∀ d, d ∈ ghost_cells_ g'
           ↔ ∃ c, c ∈ cells_ ghost_mesh ∧ ghost_neighbour 0 ghost_mesh c d.
Proof.
  apply (find_ghost_boundary_cells_ghosts 2 0 ghost_mesh); [lia|..].
  - apply ghost_mesh_keyed.
  - apply ghost_mesh_resolves.
  - apply ghost_mesh_ids.
Defined.

Lemma find_ghost_boundary_cells_local_witness :
  ∃ g', find_ghost_boundary_cells true 2 0 ghost_mesh
          {| ghost_cells_ := []; local_ghost_cells_ := [1%positive];
             ghost_cells_neighbour_ranks_ := ∅ |} = (Ok tt, g')
    ∧ NoDup (local_ghost_cells_ g')
    ∧ ∀ c, c ∈ local_ghost_cells_ g'
           ↔ c ∈ cells_ ghost_mesh ∧ ∃ d, ghost_neighbour 0 ghost_mesh c d.
Proof.
  apply (find_ghost_boundary_cells_local 2 0 ghost_mesh); [lia|..].
  - apply ghost_mesh_keyed.
  - apply ghost_mesh_resolves.
  - apply ghost_mesh_ids.
Defined.

Lemma find_ghost_boundary_cells_ranks_witness :
  ∃ g', find_ghost_boundary_cells true 2 0 ghost_mesh
          {| ghost_cells_ := []; local_ghost_cells_ := [];
             ghost_cells_neighbour_ranks_ := {[ 7%N := [5%N] ]} |}
        = (Ok tt, g')
    ∧ (∀ c, c ∈ cells_ ghost_mesh → (∃ d, ghost_neighbour 0 ghost_mesh c d) →
            ∃ l, ghost_cells_neighbour_ranks_ g'
                   !! wrap32 (c_id (cell ghost_mesh c)) = Some l
                 ∧ ascending l ∧ (0%N ∉ l)
                 ∧ ∀ k, k ∈ l ↔ ∃ d, ghost_neighbour 0 ghost_mesh c d
                                     ∧ c_rank (cell ghost_mesh d) = k)
    ∧ (∀ k, is_Some (ghost_cells_neighbour_ranks_ g' !! k) →
            ∃ c d, c ∈ cells_ ghost_mesh
                   ∧ k = wrap32 (c_id (cell ghost_mesh c))
                   ∧ ghost_neighbour 0 ghost_mesh c d).
Proof.
  apply (find_ghost_boundary_cells_ranks 2 0 ghost_mesh); [lia|..].
  - apply ghost_mesh_keyed.
  - apply ghost_mesh_resolves.
  - apply ghost_mesh_ids.
Defined.

(** On that mesh rank 0 finds the cell with the id 2 as its ghost cell, the
    cell with the id 1 as its local ghost cell, and rank 1 as the rank
    next to it. *)
Example ghost_mesh_ghosts :
  find_ghost_boundary_cells true 2 0 ghost_mesh
    {| ghost_cells_ := [4%positive]; local_ghost_cells_ := [];
       ghost_cells_neighbour_ranks_ := ∅ |}
  = (Ok tt, {| ghost_cells_ := [3%positive];
               local_ghost_cells_ := [2%positive];
               ghost_cells_neighbour_ranks_ := {[ 1%N := [1%N] ]} |}).
Proof. by vm_compute. Qed.
(** ** Ghost cells of a mesh with computed neighbours *)

Lemma compute_cell_neighbours_grows (m : Mesh) :
  ∃ s, compute_cell_neighbours m = set_objects s m
    ∧ (∀ c, c_id (cell_heap s !!! c) = c_id (cell m c)
            ∧ c_rank (cell_heap s !!! c) = c_rank (cell m c))
    ∧ ∀ c d, c ∈ cells_ m →
        d ∈ c_neighbours (cell_heap s !!! c)
        ↔ d ∈ c_neighbours (cell m c) ∨ adjacent m c d.
Proof.
  unfold compute_cell_neighbours. cbn zeta.
  rewrite (parallel_for_elements (add_cell_neighbours (node_cell_map m))).
  eexists. split; [done|].
  destruct (neighbours_loop (node_cell_map m) (cells_ m) (objects m))
    as (_ & _ & _ & Hf & Hx).
  split.
  - intros c. by destruct (Hf c) as (? & _ & ? & _).
  - intros c d Hc. rewrite (Hx c d Hc).
    by rewrite (adjacent_node_cell_map m c d).
Qed.


Lemma mapped_mesh_in_sync :
  in_sync (λ q, c_id (cell mapped_mesh q)) (cells_ mapped_mesh)
    (map_cells_ mapped_mesh).
Proof.
  split.
  - apply (bool_decide_unpack _). by vm_compute.
  - intros i p.
    change (map_cells_ mapped_mesh)
      with (list_to_map [(0%N, 1%positive); (1%N, 2%positive);
                         (2%N, 3%positive); (3%N, 4%positive)]
            : gmap N positive).
    change (cells_ mapped_mesh) with [1; 2; 3; 4]%positive. split.
    + intros Hp. apply elem_of_list_to_map_2 in Hp.
      repeat (apply elem_of_cons in Hp as [[= -> ->]|Hp];
              [split; [set_solver|by vm_compute]|]).
      by apply elem_of_nil in Hp.
    + intros [Hp <-].
      repeat (apply elem_of_cons in Hp as [->|Hp]; [by vm_compute|]).
      by apply elem_of_nil in Hp.
Qed.

(** ** Active nodes *)

Section ActiveNodesProofs.
Context (status : Node → bool).

Lemma find_active_nodes_loop (m : Mesh) (rest : list ptr) : ∀ pre,
  NoDup ((λ q, n_id (node m q)) <$> pre ++ rest) →
  foldl (λ active_nodes_ n,
           if status (node m n)
           then (Container.add (λ q, n_id (node m q)) active_nodes_ n
                   default_check_duplicates).2
           else active_nodes_)
    (filter (λ n, status (node m n) = true) pre) rest
  = filter (λ n, status (node m n) = true) (pre ++ rest).
Proof.
  induction rest as [|n rest IH]; intros pre Hnd; cbn [foldl].
  { by rewrite app_nil_r. }
  assert (pre ++ n :: rest = (pre ++ [n]) ++ rest) as Happ
    by by rewrite <- app_assoc.
  rewrite Happ in Hnd |- *. rewrite <- (IH (pre ++ [n]) Hnd). f_equal.
  rewrite filter_app, filter_cons, filter_nil.
  destruct (status (node m n)) eqn:Hst.
  - rewrite decide_True by done.
    unfold Container.add, Container.has_id, default_check_duplicates.
    cbn [andb]. rewrite bool_decide_eq_false_2; [done|].
    intros (q & Hid & Hq)%list_elem_of_fmap.
    apply list_elem_of_filter in Hq as [_ Hq].
    rewrite !fmap_app in Hnd. apply NoDup_app in Hnd as [Hnd _].
    apply NoDup_app in Hnd as (_ & Hd & _).
    apply (Hd (n_id (node m q))).
    + apply list_elem_of_fmap. by exists q.
    + rewrite <- Hid. cbn. by apply list_elem_of_singleton.
  - rewrite decide_False by done. by rewrite app_nil_r.
Qed.

Lemma active_nodes_fold (oper : Toper) (s0 : Store) (l : list ptr) : ∀ s,
  (∀ p s n, status (node_heap (oper p s) !!! n)
            = status (node_heap s !!! n)) →
  (∀ n, status (node_heap s !!! n) = status (node_heap s0 !!! n)) →
  foldl (λ s n, oper n s) s
    (filter (λ n, status (node_heap s0 !!! n) = true) l)
  = foldl (λ s n, if status (node_heap s !!! n) then oper n s else s) s l.
Proof.
  induction l as [|n l IH]; intros s Hoper Hs; [done|].
  rewrite filter_cons. cbn [foldl]. rewrite (Hs n).
  destruct (status (node_heap s0 !!! n)) eqn:Hst.
  - rewrite decide_True by done. cbn [foldl]. apply IH; [done|].
    intros n'. by rewrite Hoper.
  - rewrite decide_False by done. by apply IH.
Qed.

End ActiveNodesProofs.


(** On that mesh the middle node alone is active and gets the ghost id. *)
Example decomposed_mesh_active :
  let m := decomposed_mesh (λ n, if decide (n = 3%positive) then 5%Z else 0%Z) in
  find_active_nodes has_mass m = [3%positive]
  ∧ (λ n, n_ghost_id (node (iterate_over_active_nodes
                              (find_active_nodes has_mass m)
                              (NodeBase.ghost_id 4) m).2 n))
      <$> nodes_ m = [9; 9; 4; 9; 9]%N.
Proof. by vm_compute. Qed.
(** ** Nodes and cells: addition and removal *)

Lemma filter_fresh (p : ptr) (l : list ptr) :
  p ∉ l → filter (λ q, q ≠ p) (l ++ [p]) = l.
Proof.
  intros Hp. rewrite filter_app, filter_cons, filter_nil.
  rewrite decide_False by (by intros ?). rewrite app_nil_r.
  apply filter_all, Forall_forall. intros q Hq ->. done.
Qed.

(** X25. A node whose id no node of the container has, added to a mesh
    whose node container and node map are in step, and removed again: both
    calls return true, with or without the check for duplicates, and the
    mesh is what it was. *)
Theorem add_then_remove_node (m : Mesh) (n : ptr) (check_duplicates : bool) :
  in_sync (λ q, n_id (node m q)) (nodes_ m) (map_nodes_ m) →
  n_id (node m n) ∉ (λ q, n_id (node m q)) <$> nodes_ m →
  ∃ m1, add_node n check_duplicates m = (Ok true, m1)
        ∧ nodes_ m1 = nodes_ m ++ [n]
        ∧ map_nodes_ m1 !! n_id (node m n) = Some n
        ∧ remove_node n m1 = (Ok true, m).
Proof.
  intros [Hnd Hsync] Hfresh.
  assert (n ∉ nodes_ m) as Hn.
  { intros Hn. apply Hfresh, list_elem_of_fmap. by exists n. }
  assert (map_nodes_ m !! n_id (node m n) = None) as Hmap.
  { destruct (map_nodes_ m !! n_id (node m n)) as [q|] eqn:Hq; [|done].
    apply Hsync in Hq as [Hq Hid]. exfalso. apply Hfresh.
    apply list_elem_of_fmap. by exists q. }
  exists (set_map_nodes_ (<[n_id (node m n) := n]> (map_nodes_ m))
            (set_nodes_ (nodes_ m ++ [n]) m)).
  split_and!.
  - unfold add_node. rewrite bind_get.
    unfold Container.add, Container.has_id.
    rewrite (bool_decide_eq_false_2 _ Hfresh), andb_false_r.
    unfold bind, modify, ret. cbn.
    change (node (set_nodes_ (nodes_ m ++ [n]) m) n) with (node m n).
    unfold Map.insert. by rewrite Hmap.
  - done.
  - cbn. by rewrite lookup_insert_eq.
  - unfold remove_node. rewrite bind_get. cbn zeta.
    unfold Container.remove. cbn [nodes_ set_map_nodes_ set_nodes_].
    rewrite bool_decide_eq_true_2
      by (apply elem_of_app; right; by apply list_elem_of_singleton).
    unfold bind, modify, ret, Map.remove. cbn.
    change (node _ n) with (node m n).
    rewrite lookup_insert_eq. cbn. rewrite delete_insert_id by done.
    rewrite (filter_fresh n (nodes_ m) Hn). by destruct m.
Qed.

(** X26. A cell whose id no cell of the container has, added to a mesh
    whose cell container and cell map are in step, and removed again: both
    calls return true, with or without the check for duplicates, and the
    mesh is what it was. *)
Theorem add_then_remove_cell (m : Mesh) (c : ptr) (check_duplicates : bool) :
  in_sync (λ q, c_id (cell m q)) (cells_ m) (map_cells_ m) →
  c_id (cell m c) ∉ (λ q, c_id (cell m q)) <$> cells_ m →
  ∃ m1, add_cell c check_duplicates m = (Ok true, m1)
        ∧ cells_ m1 = cells_ m ++ [c]
        ∧ map_cells_ m1 !! c_id (cell m c) = Some c
        ∧ remove_cell c m1 = (Ok true, m).
Proof.
  intros [Hnd Hsync] Hfresh.
  assert (c ∉ cells_ m) as Hc.
  { intros Hc. apply Hfresh, list_elem_of_fmap. by exists c. }
  assert (map_cells_ m !! c_id (cell m c) = None) as Hmap.
  { destruct (map_cells_ m !! c_id (cell m c)) as [q|] eqn:Hq; [|done].
    apply Hsync in Hq as [Hq Hid]. exfalso. apply Hfresh.
    apply list_elem_of_fmap. by exists q. }
  exists (set_map_cells_ (<[c_id (cell m c) := c]> (map_cells_ m))
            (set_cells_ (cells_ m ++ [c]) m)).
  split_and!.
  - unfold add_cell. rewrite bind_get.
    unfold Container.add, Container.has_id.
    rewrite (bool_decide_eq_false_2 _ Hfresh), andb_false_r.
    unfold bind, modify, ret. cbn.
    change (cell (set_cells_ (cells_ m ++ [c]) m) c) with (cell m c).
    unfold Map.insert. by rewrite Hmap.
  - done.
  - cbn. by rewrite lookup_insert_eq.
  - unfold remove_cell. rewrite bind_get. cbn zeta.
    unfold Container.remove. cbn [cells_ set_map_cells_ set_cells_].
    rewrite bool_decide_eq_true_2
      by (apply elem_of_app; right; by apply list_elem_of_singleton).
    unfold bind, modify, ret, Map.remove. cbn.
    change (cell _ c) with (cell m c).
    rewrite lookup_insert_eq. cbn. rewrite delete_insert_id by done.
    rewrite (filter_fresh c (cells_ m) Hc). by destruct m.
Qed.

(** The third node of the line joins its first two and leaves again. *)
Lemma add_then_remove_node_witness :
  ∃ m1, add_node 3%positive true half_mesh = (Ok true, m1)
        ∧ nodes_ m1 = nodes_ half_mesh ++ [3%positive]
        ∧ map_nodes_ m1 !! n_id (node half_mesh 3%positive) = Some 3%positive
        ∧ remove_node 3%positive m1 = (Ok true, half_mesh).
Proof.
  apply (add_then_remove_node half_mesh 3%positive true).
  - split; [apply (bool_decide_unpack _); by vm_compute|].
    intros i p.
    change (map_nodes_ half_mesh)
      with (list_to_map [(0%N, 1%positive); (1%N, 2%positive)]
            : gmap N positive).
    change (nodes_ half_mesh) with [1; 2]%positive. split.
    + intros Hp. apply elem_of_list_to_map_2 in Hp.
      repeat (apply elem_of_cons in Hp as [[= -> ->]|Hp];
              [split; [set_solver|by vm_compute]|]).
      by apply elem_of_nil in Hp.
    + intros [Hp <-].
      repeat (apply elem_of_cons in Hp as [->|Hp]; [by vm_compute|]).
      by apply elem_of_nil in Hp.
  - apply (bool_decide_unpack _). by vm_compute.
Defined.

(** The second cell of the line joins its first and leaves again. *)
Lemma add_then_remove_cell_witness :
  ∃ m1, add_cell 2%positive false half_mesh = (Ok true, m1)
        ∧ cells_ m1 = cells_ half_mesh ++ [2%positive]
        ∧ map_cells_ m1 !! c_id (cell half_mesh 2%positive) = Some 2%positive
        ∧ remove_cell 2%positive m1 = (Ok true, half_mesh).
Proof.
  apply (add_then_remove_cell half_mesh 2%positive false).
  - split; [apply (bool_decide_unpack _); by vm_compute|].
    intros i p.
    change (map_cells_ half_mesh) with ({[ 0%N := 1%positive ]} : gmap N positive).
    change (cells_ half_mesh) with [1%positive].
    rewrite lookup_singleton_Some, list_elem_of_singleton. split.
    + intros [<- <-]. split; [done|by vm_compute].
    + intros [-> <-]. split; [by vm_compute|done].
  - apply (bool_decide_unpack _). by vm_compute.
Defined.
